(** * babel-auto-break: a shallow embedding of [src/babel-auto-break.ts]

    The plugin rewrites every [for], [while] and [do ... while] loop of a
    program so that the loop carries a wall-clock guard.  Babel's AST is a
    graph of mutable objects, so the embedding keeps the nodes in a store
    ([gmap ref Node]) and runs the plugin's functions in a state-and-error
    monad over that store.  Of the host library, the parser and the scope
    table are parameters; the tree-splicing operations of a path and the
    visitor dispatch are written out, the former with the cases the library
    makes for a statement under a label, in a list and in a field. *)

From Stdlib Require Import ZArith NArith List Bool Ascii String Lia.
From stdpp Require Import base option list gmap strings fin_maps pretty.

Set Warnings "-register-all".

Local Open Scope Z_scope.
Local Open Scope string_scope.
Local Open Scope list_scope.
Local Open Scope stdpp_scope.

(* ===================================================================== *)
(** ** JavaScript strings *)
(* ===================================================================== *)

(** A JavaScript string is a sequence of UTF-16 code units.  Regular
    expressions without the [u] flag, [String.prototype.replace] and
    template literals all work code unit by code unit. *)
Module JS.

Definition code_unit := N.
Definition jsstring := list code_unit.

(** Literals of the source are ASCII; [lit] spells them as code units. *)
Fixpoint lit (s : string) : jsstring :=
  match s with
  | EmptyString => []
  | String a s' => N_of_ascii a :: lit s'
  end.

Definition DQUOTE : code_unit := 34%N.      (* the double quote *)
Definition BACKSLASH : code_unit := 92%N.
Definition LPAREN : code_unit := 40%N.

(** The class [\s] of ECMAScript regular expressions: WhiteSpace and
    LineTerminator code points. *)
Definition is_regexp_space (c : code_unit) : bool :=
  ((9 <=? c) && (c <=? 13) || (c =? 32) || (c =? 160) || (c =? 5760)
   || ((8192 <=? c) && (c <=? 8202)) || (c =? 8232) || (c =? 8233)
   || (c =? 8239) || (c =? 8287) || (c =? 12288) || (c =? 65279))%N.

(** [strip_prefix p s] is [Some rest] when [s = p ++ rest]. *)
Fixpoint strip_prefix (p s : jsstring) : option jsstring :=
  match p, s with
  | [], _ => Some s
  | a :: p', b :: s' => if (a =? b)%N then strip_prefix p' s' else None
  | _ :: _, [] => None
  end.


(** Greedy [\s*]: the longest run of white space at the head of [s]. *)
Fixpoint skip_spaces (s : jsstring) : jsstring :=
  match s with
  | c :: s' => if is_regexp_space c then skip_spaces s' else s
  | [] => []
  end.

(** [s.replace(/"/g, '\\"')]: every double quote becomes backslash,
    double quote; the replacement text has no [$] pattern. *)
Definition escape_double_quotes (s : jsstring) : jsstring :=
  flat_map (fun c => if (c =? DQUOTE)%N then [BACKSLASH; DQUOTE] else [c]) s.

(** [s.replace(/^function\s*\(/, 'function $onAutoBreak$(')].  The
    pattern is anchored and [\s*] cannot give a parenthesis back, so the
    match is decided by one left-to-right scan.  In the replacement text
    neither [$o] nor [$(] is a substitution pattern: it is inserted as it
    stands.  Without the [g] flag at most one match is replaced. *)
Definition name_anonymous_function (s : jsstring) : jsstring :=
  match strip_prefix (lit "function") s with
  | Some rest =>
      match skip_spaces rest with
      | c :: rest' =>
          if (c =? LPAREN)%N then lit "function $onAutoBreak$(" ++ rest'
          else s
      | [] => s
      end
  | None => s
  end.

End JS.

Export JS.

(* ===================================================================== *)
(** ** The AST as a store of mutable nodes *)
(* ===================================================================== *)

(** A node is a JavaScript object; two places of a tree that hold the same
    object hold the same reference. *)
Definition ref := nat.

(** The node kinds of [@babel/types] that the plugin builds, inspects or
    rewrites, with their fields in builder order.  [R] is the type of the
    child positions: [ref] in the store, a tree in a read-back. *)
Inductive NodeShape (R : Type) : Type :=
| Identifier (name : string)
| NumericLiteral (value : Z)
| StringLiteral (value : jsstring)
| MemberExpression (object property : R)
| CallExpression (callee : R) (arguments : list R)
| BinaryExpression (operator : string) (left right : R)
| ArrowFunctionExpression (params : list R) (body : R) (async : bool)
| FunctionExpression (id : option R) (params : list R) (body : R)
    (generator async : bool)
| FunctionDeclaration (id : option R) (params : list R) (body : R)
    (generator async : bool)
| VariableDeclarator (id : R) (init : option R)
| VariableDeclaration (kind : string) (declarations : list R)
| ExpressionStatement (expression : R)
| BlockStatement (body : list R)
| IfStatement (test consequent : R) (alternate : option R)
| BreakStatement (label : option R)
| ForStatement (init test update : option R) (body : R)
| WhileStatement (test body : R)
| DoWhileStatement (body test : R)
| Program (body : list R)
| OtherNode (type : string) (children : list R)
| LabeledStatement (label body : R)
| WithStatement (object body : R)
| ForInStatement (left right body : R)
| ForOfStatement (left right body : R) (await : bool)
| SwitchCase (test : option R) (consequent : list R)
| StaticBlock (body : list R).

Arguments Identifier {R} name.
Arguments NumericLiteral {R} value.
Arguments StringLiteral {R} value.
Arguments MemberExpression {R} object property.
Arguments CallExpression {R} callee arguments.
Arguments BinaryExpression {R} operator left right.
Arguments ArrowFunctionExpression {R} params body async.
Arguments FunctionExpression {R} id params body generator async.
Arguments FunctionDeclaration {R} id params body generator async.
Arguments VariableDeclarator {R} id init.
Arguments VariableDeclaration {R} kind declarations.
Arguments ExpressionStatement {R} expression.
Arguments BlockStatement {R} body.
Arguments IfStatement {R} test consequent alternate.
Arguments BreakStatement {R} label.
Arguments ForStatement {R} init test update body.
Arguments WhileStatement {R} test body.
Arguments DoWhileStatement {R} body test.
Arguments Program {R} body.
Arguments OtherNode {R} type children.
Arguments LabeledStatement {R} label body.
Arguments WithStatement {R} object body.
Arguments ForInStatement {R} left right body.
Arguments ForOfStatement {R} left right body await.
Arguments SwitchCase {R} test consequent.
Arguments StaticBlock {R} body.

(** [loc.start] is an object with numeric properties ([line], [column],
    [index]); a property that is missing is a key that is not bound. *)
Record SourceLocation := { start : gmap string Z; end_ : gmap string Z }.

Record Node := { loc : option SourceLocation; shape : NodeShape ref }.

Abbreviation Heap := (gmap ref Node).

(** *** Node-kind predicates ([t.isX]) on shapes *)

Definition is_ExpressionStatement {R} (s : NodeShape R) : bool :=
  match s with ExpressionStatement _ => true | _ => false end.

Definition is_FunctionDeclaration {R} (s : NodeShape R) : bool :=
  match s with FunctionDeclaration _ _ _ _ _ => true | _ => false end.

Definition is_BlockStatement {R} (s : NodeShape R) : bool :=
  match s with BlockStatement _ => true | _ => false end.

Definition is_loop {R} (s : NodeShape R) : bool :=
  match s with
  | ForStatement _ _ _ _ | WhileStatement _ _ | DoWhileStatement _ _ => true
  | _ => false
  end.

(** The callable expressions: arrow functions and function expressions. *)
Definition is_callable {R} (s : NodeShape R) : bool :=
  match s with
  | ArrowFunctionExpression _ _ _ | FunctionExpression _ _ _ _ _ => true
  | _ => false
  end.

(** The nodes a tree splice can write to: the nodes that hold statements,
    in a list or in a field. *)
Definition is_container {R} (s : NodeShape R) : bool :=
  match s with
  | BlockStatement _ | Program _ | SwitchCase _ _ | StaticBlock _
  | IfStatement _ _ _ | LabeledStatement _ _ | WithStatement _ _
  | ForInStatement _ _ _ | ForOfStatement _ _ _ _ => true
  | _ => is_loop s
  end.

(** The parents to which [insertBefore] hands an insertion on: a statement
    cannot be put between a label and its statement, nor inside an
    expression statement. *)
Definition delegates {R} (s : NodeShape R) : bool :=
  match s with
  | LabeledStatement _ _ | ExpressionStatement _ => true
  | _ => false
  end.

(** The kinds that are expressions ([isNodeType("Expression")]), as far as
    the kinds of this file go; of an [OtherNode] it is not known. *)
Definition is_expression {R} (s : NodeShape R) : bool :=
  match s with
  | Identifier _ | NumericLiteral _ | StringLiteral _ | MemberExpression _ _
  | CallExpression _ _ | BinaryExpression _ _ _
  | ArrowFunctionExpression _ _ _ | FunctionExpression _ _ _ _ _
  | OtherNode _ _ => true
  | _ => false
  end.

Definition is_ForStatement {R} (s : NodeShape R) : bool :=
  match s with ForStatement _ _ _ _ => true | _ => false end.

(** *** Named access to the fields the plugin reaches through paths *)

(** The statement list called [lk] of a node ([node[lk]] as an array). *)
Definition get_list (lk : string) (s : NodeShape ref) : option (list ref) :=
  match s with
  | BlockStatement body | Program body | StaticBlock body =>
      if decide (lk = "body") then Some body else None
  | SwitchCase _ consequent =>
      if decide (lk = "consequent") then Some consequent else None
  | _ => None
  end.

Definition set_list (l : list ref) (s : NodeShape ref) : NodeShape ref :=
  match s with
  | BlockStatement _ => BlockStatement l
  | Program _ => Program l
  | StaticBlock _ => StaticBlock l
  | SwitchCase t _ => SwitchCase t l
  | _ => s
  end.

(** The single-node field called [f] of a loop ([node[f]]). *)
Definition get_field (f : string) (s : NodeShape ref) : option ref :=
  match s with
  | ForStatement _ _ _ b | WhileStatement _ b | DoWhileStatement b _ =>
      if decide (f = "body") then Some b else None
  | _ => None
  end.

Definition set_field (b : ref) (s : NodeShape ref) : NodeShape ref :=
  match s with
  | ForStatement i t u _ => ForStatement i t u b
  | WhileStatement t _ => WhileStatement t b
  | DoWhileStatement _ t => DoWhileStatement b t
  | _ => s
  end.

(** The keys under which a node holds one statement: Babel's
    [STATEMENT_OR_BLOCK_KEYS]. *)
Definition statement_or_block_key (f : string) : bool :=
  (String.eqb f "consequent" || String.eqb f "body"
   || String.eqb f "alternate")%bool.

(** The statement a node holds in its field [f] ([node[f]], for the fields
    that hold a statement): the branches of an [if], the body of a loop of
    any kind, of a label and of [with]. *)
Definition get_statement (f : string) (s : NodeShape ref) : option ref :=
  match s with
  | IfStatement _ c a =>
      if String.eqb f "consequent" then Some c
      else if String.eqb f "alternate" then a else None
  | LabeledStatement _ b | WithStatement _ b | ForInStatement _ _ b
  | ForOfStatement _ _ b _ =>
      if String.eqb f "body" then Some b else None
  | _ => get_field f s
  end.

(** The assignment [node[f] = b] to such a field. *)
Definition set_statement (f : string) (b : ref) (s : NodeShape ref)
  : NodeShape ref :=
  match s with
  | IfStatement t c a =>
      if String.eqb f "consequent" then IfStatement t b a
      else if String.eqb f "alternate" then IfStatement t c (Some b) else s
  | LabeledStatement l _ => if String.eqb f "body" then LabeledStatement l b else s
  | WithStatement o _ => if String.eqb f "body" then WithStatement o b else s
  | ForInStatement l r _ => if String.eqb f "body" then ForInStatement l r b else s
  | ForOfStatement l r _ a =>
      if String.eqb f "body" then ForOfStatement l r b a else s
  | _ => if String.eqb f "body" then set_field b s else s
  end.

(** *** Reading a subtree back from the store *)

(** A tree whose leaves may be references left unexpanded (the shared
    sub-terms one wants to name rather than copy). *)
Inductive Tree : Type :=
| Shared (r : ref)
| T (s : NodeShape Tree).

Definition traverse_option {A B} (f : A -> option B) (o : option A)
  : option (option B) :=
  match o with
  | None => Some None
  | Some a => Some <$> f a
  end.

Definition traverse_shape {A B} (f : A -> option B) (s : NodeShape A)
  : option (NodeShape B) :=
  match s with
  | Identifier x => Some (Identifier x)
  | NumericLiteral v => Some (NumericLiteral v)
  | StringLiteral v => Some (StringLiteral v)
  | MemberExpression o p =>
      o' ← f o; p' ← f p; Some (MemberExpression o' p')
  | CallExpression c args =>
      c' ← f c; args' ← mapM f args; Some (CallExpression c' args')
  | BinaryExpression op l r =>
      l' ← f l; r' ← f r; Some (BinaryExpression op l' r')
  | ArrowFunctionExpression ps b a =>
      ps' ← mapM f ps; b' ← f b; Some (ArrowFunctionExpression ps' b' a)
  | FunctionExpression i ps b g a =>
      i' ← traverse_option f i; ps' ← mapM f ps; b' ← f b;
      Some (FunctionExpression i' ps' b' g a)
  | FunctionDeclaration i ps b g a =>
      i' ← traverse_option f i; ps' ← mapM f ps; b' ← f b;
      Some (FunctionDeclaration i' ps' b' g a)
  | VariableDeclarator i e =>
      i' ← f i; e' ← traverse_option f e; Some (VariableDeclarator i' e')
  | VariableDeclaration k ds =>
      ds' ← mapM f ds; Some (VariableDeclaration k ds')
  | ExpressionStatement e => e' ← f e; Some (ExpressionStatement e')
  | BlockStatement b => b' ← mapM f b; Some (BlockStatement b')
  | IfStatement c t e =>
      c' ← f c; t' ← f t; e' ← traverse_option f e;
      Some (IfStatement c' t' e')
  | BreakStatement l => l' ← traverse_option f l; Some (BreakStatement l')
  | ForStatement i c u b =>
      i' ← traverse_option f i; c' ← traverse_option f c;
      u' ← traverse_option f u; b' ← f b; Some (ForStatement i' c' u' b')
  | WhileStatement c b => c' ← f c; b' ← f b; Some (WhileStatement c' b')
  | DoWhileStatement b c => b' ← f b; c' ← f c; Some (DoWhileStatement b' c')
  | Program b => b' ← mapM f b; Some (Program b')
  | OtherNode ty cs => cs' ← mapM f cs; Some (OtherNode ty cs')
  | LabeledStatement l b => l' ← f l; b' ← f b; Some (LabeledStatement l' b')
  | WithStatement o b => o' ← f o; b' ← f b; Some (WithStatement o' b')
  | ForInStatement l r b =>
      l' ← f l; r' ← f r; b' ← f b; Some (ForInStatement l' r' b')
  | ForOfStatement l r b a =>
      l' ← f l; r' ← f r; b' ← f b; Some (ForOfStatement l' r' b' a)
  | SwitchCase t c =>
      t' ← traverse_option f t; c' ← mapM f c; Some (SwitchCase t' c')
  | StaticBlock b => b' ← mapM f b; Some (StaticBlock b')
  end.

(** [read_back n keep h r] follows references from [r] for at most [n]
    levels; the references in [keep] are left as [Shared] leaves. *)
Fixpoint read_back (n : nat) (keep : list ref) (h : Heap) (r : ref)
  : option Tree :=
  match n with
  | O => None
  | S n' =>
      if bool_decide (r ∈ keep) then Some (Shared r)
      else nd ← h !! r; s ← traverse_shape (read_back n' keep h) (shape nd);
           Some (T s)
  end.

(** *** Allocation *)

(** A new object gets a reference that is not in use; a node made by a
    builder has no source position. *)
Definition next (h : Heap) : ref := fresh (dom h).

Definition built (s : NodeShape ref) : Node := {| loc := None; shape := s |}.

Definition allocate (h : Heap) (s : NodeShape ref) : Heap :=
  <[next h := built s]> h.

(* ===================================================================== *)
(** ** The host library and the monad of the plugin *)
(* ===================================================================== *)

(** What a JavaScript [throw] carries.  [OutsideModel] marks the calls the
    embedding does not follow (a dangling reference, a Babel code path that
    is not modelled); it is never the result of a [throw] of the plugin. *)
Inductive Error :=
| JsError (message : string)
| OutsideModel (what : string).

(** [transform(code, { ast: true })] gives [BabelFileResult | null]; the
    plugin reads [?.ast?.program.body[0]] from it. *)
Record File := { program_body : list ref }.
Record BabelFileResult := { ast : option File }.

Inductive TransformOutcome :=
| Parsed (result : option BabelFileResult)
| Raised (e : Error).

(** The capabilities the plugin takes from [@babel/core]: the parser
    behind [transform], which may allocate nodes and may raise (a syntax
    error), and the scope table behind [scope.generateUid]. *)
Class Babel := {
  HostState : Type;
  Scope : Type;
  transform : jsstring -> Heap -> HostState ->
              TransformOutcome * Heap * HostState;
  generateUid : Scope -> string -> HostState -> string * HostState
}.

Section Monad.
Context {HS : Type}.

(** The state a pass runs in: the node store, the host's own state and
    the list of the source texts handed to [transform] so far. *)
Record StateOf := {
  heap : Heap;
  host : HS;
  transformed : list jsstring
}.

Inductive OutcomeOf (A : Type) : Type :=
| Returns (a : A) (σ : StateOf)
| Throws (e : Error) (σ : StateOf).

Definition MOf (A : Type) : Type := StateOf -> OutcomeOf A.

Definition ret {A} (a : A) : MOf A := fun σ => Returns A a σ.

Definition bind {A B} (m : MOf A) (k : A -> MOf B) : MOf B :=
  fun σ => match m σ with
           | Returns _ a σ' => k a σ'
           | Throws _ e σ' => Throws B e σ'
           end.

Definition throw {A} (e : Error) : MOf A := fun σ => Throws A e σ.

Definition get_heap : MOf Heap := fun σ => Returns _ (heap σ) σ.

Definition put_heap (h : Heap) : MOf unit :=
  fun σ => Returns _ tt
    {| heap := h; host := host σ; transformed := transformed σ |}.

End Monad.

Arguments StateOf HS : clear implicits.
Arguments OutcomeOf HS A : clear implicits.
Arguments MOf HS A : clear implicits.
Arguments Returns {HS A} a σ.
Arguments Throws {HS A} e σ.

(** The types of a pass on a given host: the state and the monad carry
    the host's state, a path carries the host's scope. *)
Abbreviation State := (StateOf HostState).
Abbreviation Outcome := (OutcomeOf HostState).
Abbreviation M := (MOf HostState).

Notation "x <- m ;; k" := (bind m (fun x => k))
  (at level 100, m at next level, right associativity,
   format "'[v' x  <-  m  ;;  '/' k ']'").
Notation "m ;;; k" := (bind m (fun _ => k))
  (at level 100, right associativity).

Section Store.
Context `{Babel}.

(** [new s]: a builder of [@babel/types] returns a new object. *)
Definition new (s : NodeShape ref) : M ref :=
  h <- get_heap ;;
  put_heap (allocate h s) ;;;
  ret (next h).

Definition read (r : ref) : M Node :=
  h <- get_heap ;;
  match h !! r with
  | Some n => ret n
  | None => throw (OutsideModel "dangling reference")
  end.

(** Assignment to fields of an existing object: its position stays. *)
Definition write (r : ref) (s : NodeShape ref) : M unit :=
  n <- read r ;;
  h <- get_heap ;;
  put_heap (<[r := {| loc := loc n; shape := s |}]> h).

(** The call of the host's [transform], recorded in [transformed]. *)
Definition call_transform (code : jsstring) : M (option BabelFileResult) :=
  fun σ =>
    let '(out, h', s') := transform code (heap σ) (host σ) in
    let σ' := {| heap := h'; host := s';
                 transformed := transformed σ ++ [code] |} in
    match out with
    | Parsed r => Returns r σ'
    | Raised e => Throws e σ'
    end.

Definition call_generateUid (sc : Scope) (name : string) : M string :=
  fun σ =>
    let '(x, s') := generateUid sc name (host σ) in
    Returns x {| heap := heap σ; host := s';
                 transformed := transformed σ |}.

End Store.

(** ** The builders and predicates of [@babel/types] ([t]) *)
Module t.
Section Builders.
Context `{Babel}.

Definition identifier (name : string) : M ref := new (Identifier name).
Definition numericLiteral (value : Z) : M ref := new (NumericLiteral value).
Definition memberExpression (object property : ref) : M ref :=
  new (MemberExpression object property).
Definition callExpression (callee : ref) (arguments : list ref) : M ref :=
  new (CallExpression callee arguments).
Definition binaryExpression (operator : string) (left right : ref) : M ref :=
  new (BinaryExpression operator left right).
Definition variableDeclarator (id : ref) (init : option ref) : M ref :=
  new (VariableDeclarator id init).
Definition variableDeclaration (kind : string) (declarations : list ref)
  : M ref := new (VariableDeclaration kind declarations).
Definition expressionStatement (expression : ref) : M ref :=
  new (ExpressionStatement expression).
Definition blockStatement (body : list ref) : M ref :=
  new (BlockStatement body).
(** [t.ifStatement(test, consequent)]: [alternate] defaults to [null]. *)
Definition ifStatement (test consequent : ref) : M ref :=
  new (IfStatement test consequent None).
(** [t.breakStatement()]: [label] defaults to [null]. *)
Definition breakStatement : M ref := new (BreakStatement None).
(** [t.functionExpression(id, params, body)]: [generator] and [async]
    default to [false]. *)
Definition functionExpression (id : option ref) (params : list ref)
  (body : ref) : M ref :=
  new (FunctionExpression id params body false false).

(** [t.isX(node)] is false on [undefined] and on a node of another
    kind. *)
Definition isKind (p : NodeShape ref -> bool) (h : Heap) (o : option ref)
  : bool :=
  match o with
  | Some r => match h !! r with Some n => p (shape n) | None => false end
  | None => false
  end.
Definition isExpressionStatement := isKind is_ExpressionStatement.
Definition isFunctionDeclaration := isKind is_FunctionDeclaration.
Definition isBlockStatement := isKind is_BlockStatement.

End Builders.
End t.

(* ===================================================================== *)
(** ** Paths: the tree-splicing capability *)
(* ===================================================================== *)

(** Where a node sits in its parent: at an index of a statement list
    ([listKey], [key]) or in a single-node field ([key]). *)
Inductive Key :=
| ListKey (listKey : string) (index : nat)
| FieldKey (name : string).

(** A path is the engine's handle on a node: the node, the parent that
    holds it and where, the scope, and the path of the parent when the
    engine gives it.  Babel changes the fields of a path in place; here an
    operation that does so returns the path as it is afterwards. *)
Inductive NodePathOf (Sc : Type) : Type := Path {
  parentPath : option (NodePathOf Sc);
  parent : ref;
  key : Key;
  node : ref;
  scope : Sc
}.

Arguments Path {Sc} _ _ _ _ _.
Arguments parentPath {Sc} _.
Arguments parent {Sc} _.
Arguments key {Sc} _.
Arguments node {Sc} _.
Arguments scope {Sc} _.

(** What [path.get(key)] gives: one path when [node[key]] is a node, the
    list of the paths of the elements when it is an array. *)
Inductive GotOf (Sc : Type) : Type :=
| One (p : NodePathOf Sc)
| Many (ps : list (NodePathOf Sc)).

Arguments One {Sc} p.
Arguments Many {Sc} ps.

(** The path with another node in its place ([this.node = node]). *)
Definition with_node {Sc} (p : NodePathOf Sc) (n : ref) : NodePathOf Sc :=
  {| parentPath := parentPath p; parent := parent p; key := key p;
     node := n; scope := scope p |}.

(** The path of the node of [p] once a statement has been inserted before
    it in its list: the same node of the same parent, one index further
    ([updateSiblingKeys]). *)
Definition after_insertion {Sc} (p : NodePathOf Sc) : NodePathOf Sc :=
  {| parentPath := parentPath p;
     parent := parent p;
     key := match key p with
            | ListKey lk i => ListKey lk (S i)
            | FieldKey f => FieldKey f
            end;
     node := node p;
     scope := scope p |}.

Abbreviation NodePath := (NodePathOf Scope).

(** The plugin object: a visitor with one handler for each kind of loop. *)
Record VisitorOf (HS Sc : Type) := {
  visit_ForStatement : NodePathOf Sc -> MOf HS unit;
  visit_WhileStatement : NodePathOf Sc -> MOf HS unit;
  visit_DoWhileStatement : NodePathOf Sc -> MOf HS unit
}.

Arguments visit_ForStatement {HS Sc} _.
Arguments visit_WhileStatement {HS Sc} _.
Arguments visit_DoWhileStatement {HS Sc} _.

Record PluginObjOf (HS Sc : Type) := { visitor : VisitorOf HS Sc }.

Arguments visitor {HS Sc} _.

Abbreviation Visitor := (VisitorOf HostState Scope).
Abbreviation PluginObj := (PluginObjOf HostState Scope).

Abbreviation Got := (GotOf Scope).

Section Paths.
Context `{Babel}.

(** Modelled from the spec: [path.replaceWith(node)] of the host library,
    which is not part of the repository; the spec (section 6) names it
    replace-node.  The slot of the parent that holds the path's node (a
    field that holds a statement, or an index of a list) is assigned the
    new node.  The two calls in this file replace a statement by a block
    statement; what Babel does when an expression is replaced by a
    statement is not followed. *)
Definition replaceWith (p : NodePath) (n : ref) : M unit :=
  par <- read (parent p) ;;
  match key p with
  | FieldKey f =>
      match get_statement f (shape par) with
      | Some _ => write (parent p) (set_statement f n (shape par))
      | None => throw (OutsideModel "replaceWith: no such field")
      end
  | ListKey lk i =>
      match get_list lk (shape par) with
      | Some l => write (parent p) (set_list (<[i := n]> l) (shape par))
      | None => throw (OutsideModel "replaceWith: no such list")
      end
  end.

(** Modelled from the spec: [path.unshiftContainer(listKey, node)], the
    splice prepend-statement-to-block on the path's own node. *)
Definition unshiftContainer (p : NodePath) (lk : string) (n : ref)
  : M unit :=
  nd <- read (node p) ;;
  match get_list lk (shape nd) with
  | Some l => write (node p) (set_list (n :: l) (shape nd))
  | None => throw (OutsideModel "unshiftContainer: no such list")
  end.

(** Modelled from the spec: [path.insertBefore(node)] of the host library
    (section 6: insert-sibling-before), with the cases the library makes
    for a statement.  Under a label (or in an expression statement) the
    insertion is handed on to the path of the parent, and the path stays
    as it is.  In a list the node is spliced in at the index of the path,
    which moves one index further.  A statement held in a field
    ([consequent], [body], [alternate]) is replaced there by a new block
    that holds it, the node goes first in that block, and the path is
    from then on the path of the block.  The rewriting of an expression
    into statements is not followed, nor is an insertion under a parent
    of a kind this file does not have. *)
Fixpoint insertBefore (p : NodePath) (n : ref) {struct p} : M NodePath :=
  par <- read (parent p) ;;
  if delegates (shape par) then
    match parentPath p with
    | Some pp => insertBefore pp n ;;; ret p
    | None => throw (OutsideModel "insertBefore: the path of the parent")
    end
  else
    nd <- read (node p) ;;
    if is_expression (shape nd) then
      throw (OutsideModel "insertBefore: replaceExpressionWithStatements")
    else
      match key p with
      | ListKey lk i =>
          match get_list lk (shape par) with
          | Some l =>
              write (parent p)
                    (set_list (take i l ++ n :: drop i l) (shape par)) ;;;
              ret (after_insertion p)
          | None => throw (OutsideModel "insertBefore: no such list")
          end
      | FieldKey f =>
          if statement_or_block_key f then
            block <- t.blockStatement [node p] ;;
            replaceWith p block ;;;
            unshiftContainer (with_node p block) "body" n ;;;
            ret (with_node p block)
          else if (is_ForStatement (shape par) && String.eqb f "init")%bool
          then
            throw (OutsideModel
                     "insertBefore: replaceExpressionWithStatements")
          else
            match shape par with
            | OtherNode _ _ =>
                throw (OutsideModel "insertBefore: a parent of another kind")
            | _ =>
                throw (JsError
                         "We don't know what to do with this node type. We were previously a Statement but we can't fit in here?")
            end
      end.

(** Modelled from the spec: [path.get(key)]: the path of the child held
    in a field, or the paths of the elements of a list. *)
Definition get (p : NodePath) (f : string) : M Got :=
  n <- read (node p) ;;
  match get_statement f (shape n) with
  | Some b =>
      ret (One {| parentPath := Some p; parent := node p; key := FieldKey f;
                  node := b; scope := scope p |})
  | None =>
      match get_list f (shape n) with
      | Some l =>
          ret (Many (imap (fun i r =>
                 {| parentPath := Some p; parent := node p;
                    key := ListKey f i; node := r; scope := scope p |}) l))
      | None => throw (OutsideModel "get: no such field")
      end
  end.

(** [path.isBlockStatement()]. *)
Definition isBlockStatement (p : NodePath) : M bool :=
  h <- get_heap ;; ret (t.isBlockStatement h (Some (node p))).

(** [scope.generateUidIdentifier(name)] is
    [t.identifier(scope.generateUid(name))]. *)
Definition generateUidIdentifier (sc : Scope) (name : string) : M ref :=
  x <- call_generateUid sc name ;; t.identifier x.

End Paths.

(* ===================================================================== *)
(** ** The plugin *)
(* ===================================================================== *)

(** A function value, as far as the plugin looks at it: the source text
    that [Function.prototype.toString] returns. *)
Record JsFunction := { toString : jsstring }.

(** [onBreak?: string | ((line, column) => unknown)]. *)
Inductive OnBreak :=
| Message (text : jsstring)
| Callable (f : JsFunction).

Record AutoBreakOptions := {
  onBreak : option OnBreak;
  timeout : option Z
}.

(** [const noop = function (): void { }]; the type annotation is erased
    when the module is compiled. *)
Definition noop : JsFunction := {| toString := lit "function () { }" |}.

(** [{ ...base, ...ext }]: the properties of [ext] win. *)
Definition js_spread (base ext : gmap string Z) : gmap string Z := ext ∪ base.

(** [{ line: 0, column: 0, ...loop.node.loc?.start }]. *)
Definition start_or_zero (l : option SourceLocation) : gmap string Z :=
  js_spread {[ "line" := 0; "column" := 0 ]}
            (match l with Some sl => start sl | None => ∅ end).

Section Plugin.
Context `{Babel}.

(** The source text handed to [transform] (line 64 to 66): the text of
    a function with its head rewritten, or the arrow function that reports
    the message, [String(onBreak)] of a string being the string. *)
Definition onAutoBreakCode (onBreak : OnBreak) : jsstring :=
  match onBreak with
  | Callable f => name_anonymous_function (toString f)
  | Message text =>
      lit "() => console.error(" ++ [DQUOTE]
        ++ escape_double_quotes text ++ [DQUOTE] ++ lit ")"
  end.

(** [result?.ast?.program.body[0]]. *)
Definition first_statement (result : option BabelFileResult) : option ref :=
  r ← result; f ← ast r; head (program_body f).

Definition invalid_onBreak : Error :=
  JsError "babel-babel-auto-break: invalid onBreak action".

(** The two tests [t.isExpressionStatement(onAutoBreak)] and
    [t.isFunctionDeclaration(onAutoBreak)], each followed by the reads of
    the fields of the node it found, are one match on the kind of the
    node; [undefined] and a node of any other kind reach the [throw]. *)
Definition transformOnBreak (onBreak : OnBreak) : M ref :=
  let onAutoBreakCode := onAutoBreakCode onBreak in
  result <- call_transform onAutoBreakCode ;;
  let onAutoBreak := first_statement result in
  h <- get_heap ;;
  match onAutoBreak ≫= (fun r => shape <$> h !! r) with
  | Some (ExpressionStatement expression) => ret expression
  | Some (FunctionDeclaration id params body _ _) =>
      t.functionExpression id params body
  | _ => throw invalid_onBreak
  end.

Definition generateInitialization (id : ref) : M ref :=
  date <- t.identifier "Date" ;;
  now <- t.identifier "now" ;;
  member <- t.memberExpression date now ;;
  call <- t.callExpression member [] ;;
  declarator <- t.variableDeclarator id (Some call) ;;
  t.variableDeclaration "var" [declarator].

Definition generateLoopGuard (id : ref) (line column timeout : Z)
  (onAutoBreak : ref) : M ref :=
  date <- t.identifier "Date" ;;
  now <- t.identifier "now" ;;
  member <- t.memberExpression date now ;;
  call <- t.callExpression member [] ;;
  elapsed <- t.binaryExpression "-" call id ;;
  limit <- t.numericLiteral timeout ;;
  test <- t.binaryExpression ">" elapsed limit ;;
  l <- t.numericLiteral line ;;
  c <- t.numericLiteral column ;;
  notify <- t.callExpression onAutoBreak [l; c] ;;
  statement <- t.expressionStatement notify ;;
  exit <- t.breakStatement ;;
  consequent <- t.blockStatement [statement; exit] ;;
  t.ifStatement test consequent.

(** What JavaScript throws at line 48 when [loopBody] is an array: the
    property [isBlockStatement] of an array is [undefined]. *)
Definition not_a_function : Error :=
  JsError "TypeError: loopBody.isBlockStatement is not a function".

(** The closure [breakAfter] of one [autoBreak] call; [timeout] and
    [onAutoBreak] are the variables it captures.  The destructuring
    [const { line, column } = ...] reads two properties that the spread
    has always set.  [loop] is one path object from line 38 to line 53:
    after [insertBefore] it is read as that call left it. *)
Definition breakAfter (timeout : Z) (onAutoBreak : ref) (loop : NodePath)
  : M unit :=
  n <- read (node loop) ;;
  let position := start_or_zero (loc n) in
  let line := position !!! "line" in
  let column := position !!! "column" in
  id <- generateUidIdentifier (scope loop) "auto_break_start" ;;
  init <- generateInitialization id ;;
  loop <- insertBefore loop init ;;
  loopBody <- get loop "body" ;;
  loopGuard <- generateLoopGuard id line column timeout onAutoBreak ;;
  match loopBody with
  | One loopBody =>
      isBlock <- isBlockStatement loopBody ;;
      if negb isBlock then
        block <- t.blockStatement [loopGuard; node loopBody] ;;
        replaceWith loopBody block
      else
        unshiftContainer loopBody "body" loopGuard
  | Many _ => throw not_a_function
  end.

Definition autoBreak (options : AutoBreakOptions) : M PluginObj :=
  let timeout := default 2000 (timeout options) in
  let onBreak := default (Callable noop) (onBreak options) in
  onAutoBreak <- transformOnBreak onBreak ;;
  ret {| visitor := {|
           visit_ForStatement := breakAfter timeout onAutoBreak;
           visit_WhileStatement := breakAfter timeout onAutoBreak;
           visit_DoWhileStatement := breakAfter timeout onAutoBreak |} |}.

(** The plugin object [autoBreak] returns when the synthesized callback
    is [cb]: the same closure under the three loop kinds. *)
Definition plugin_of (timeout : Z) (cb : ref) : PluginObj :=
  {| visitor := {|
       visit_ForStatement := breakAfter timeout cb;
       visit_WhileStatement := breakAfter timeout cb;
       visit_DoWhileStatement := breakAfter timeout cb |} |}.

(** Modelled from the spec: the visitor dispatch of the host's traversal
    engine, which calls the handler registered for the kind of the node
    and nothing for the other kinds (section 4.3). *)
Definition visit (v : Visitor) (p : NodePath) : M unit :=
  n <- read (node p) ;;
  match shape n with
  | ForStatement _ _ _ _ => visit_ForStatement v p
  | WhileStatement _ _ => visit_WhileStatement v p
  | DoWhileStatement _ _ => visit_DoWhileStatement v p
  | _ => ret tt
  end.

(** A traversal, as the plugin sees it: the paths the engine visits, in
    the engine's order. *)
Fixpoint traverse (v : Visitor) (paths : list NodePath) : M unit :=
  match paths with
  | [] => ret tt
  | p :: rest => visit v p ;;; traverse v rest
  end.

End Plugin.

(* ===================================================================== *)
(** ** The forms the specification gives to the injected statements *)
(* ===================================================================== *)

(** [Date.now()]. *)
Definition date_now : Tree :=
  T (CallExpression
       (T (MemberExpression (T (Identifier "Date")) (T (Identifier "now"))))
       []).

(** The guard as the specification words it:
    [if ((now() - timerName) > timeoutMillis) { callback(line, column); break; }],
    with the callback left as a reference to the one shared node. *)
Definition guard_form (timerName : string) (line column timeoutMillis : Z)
  (callback : ref) : Tree :=
  T (IfStatement
       (T (BinaryExpression ">"
             (T (BinaryExpression "-" date_now (T (Identifier timerName))))
             (T (NumericLiteral timeoutMillis))))
       (T (BlockStatement
             [T (ExpressionStatement
                   (T (CallExpression (Shared callback)
                         [T (NumericLiteral line); T (NumericLiteral column)])));
              T (BreakStatement None)]))
       None).

(** The timer initialisation as the specification words it:
    [var <timerName> = now()]. *)
Definition init_form (timerName : string) : Tree :=
  T (VariableDeclaration "var"
       [T (VariableDeclarator (T (Identifier timerName)) (Some date_now))]).

(* ===================================================================== *)
(** ** What the emitted guard does when it runs *)
(* ===================================================================== *)

(** ECMAScript evaluation, for the statements and expressions a guard is
    made of.  Times, positions and the timeout are integers; [clock] is the
    value [Date.now()] returns and [env] binds the variables. *)
Inductive Value := VNumber (z : Z) | VBoolean (b : bool).

(** The completion of a statement: normal, or a [break] with its label. *)
Inductive Completion := Normal | Break (label : option Tree).

Record Call := { callee : Tree; args : list Value }.

Fixpoint eval (clock : Z) (env : gmap string Z) (e : Tree) : option Value :=
  match e with
  | T (NumericLiteral v) => Some (VNumber v)
  | T (Identifier x) => VNumber <$> env !! x
  | T (CallExpression (T (MemberExpression (T (Identifier o)) (T (Identifier p)))) []) =>
      if (String.eqb o "Date" && String.eqb p "now")%bool
      then Some (VNumber clock) else None
  | T (BinaryExpression op l r) =>
      match eval clock env l, eval clock env r with
      | Some (VNumber a), Some (VNumber b) =>
          if String.eqb op "-" then Some (VNumber (a - b))
          else if String.eqb op ">" then Some (VBoolean (Z.gtb a b))
          else None
      | _, _ => None
      end
  | _ => None
  end.

(** [ToBoolean] of a value. *)
Definition truthy (v : Value) : bool :=
  match v with
  | VBoolean b => b
  | VNumber z => negb (Z.eqb z 0)
  end.

(** What a loop makes of the completion of its body: a [break] without a
    label ends that loop, which then completes normally, so the statements
    around it go on; a labelled [break] goes on to its label.  After a
    body that completed normally comes another iteration, which this
    evaluator (where no time passes) does not follow. *)
Definition end_of_loop (r : option (list Call * Completion))
  : option (list Call * Completion) :=
  match r with
  | Some (calls, Break None) => Some (calls, Normal)
  | Some (calls, Break (Some l)) => Some (calls, Break (Some l))
  | Some (_, Normal) => None
  | None => None
  end.

(** [exec] gives the calls a statement makes, in order, and how it
    completes.  A block stops at the first abrupt completion. *)
Fixpoint exec (clock : Z) (env : gmap string Z) (s : Tree)
  : option (list Call * Completion) :=
  match s with
  | T (WhileStatement c body) =>
      match truthy <$> eval clock env c with
      | Some true => end_of_loop (exec clock env body)
      | Some false => Some ([], Normal)
      | None => None
      end
  | T (DoWhileStatement body _) => end_of_loop (exec clock env body)
  | T (ForStatement None c None body) =>
      match c with
      | None => end_of_loop (exec clock env body)
      | Some c' =>
          match truthy <$> eval clock env c' with
          | Some true => end_of_loop (exec clock env body)
          | Some false => Some ([], Normal)
          | None => None
          end
      end
  | T (ExpressionStatement (T (CallExpression f a))) =>
      vs ← mapM (eval clock env) a;
      Some ([{| callee := f; args := vs |}], Normal)
  | T (BreakStatement l) => Some ([], Break l)
  | T (BlockStatement ss) =>
      (fix run (ss : list Tree) : option (list Call * Completion) :=
         match ss with
         | [] => Some ([], Normal)
         | s1 :: rest =>
             match exec clock env s1 with
             | Some (c1, Normal) =>
                 match run rest with
                 | Some (c2, k) => Some (c1 ++ c2, k)
                 | None => None
                 end
             | other => other
             end
         end) ss
  | T (IfStatement c th None) =>
      match eval clock env c with
      | Some (VBoolean true) => exec clock env th
      | Some (VBoolean false) => Some ([], Normal)
      | _ => None
      end
  | _ => None
  end.

(* ===================================================================== *)
(** ** Reading a double-quoted string literal *)
(* ===================================================================== *)

(** The lexical rule of ECMAScript for the characters after an opening
    double quote: the literal ends at the first double quote that is not
    escaped; a backslash escapes the next character; a line terminator
    (LF, CR) may not occur.  Of the escapes only backslash followed by a
    double quote, a single quote or a backslash are read (each stands for
    the escaped character itself).  The result is the string value and the
    text after the closing quote. *)
Fixpoint string_literal_body (s : jsstring) : option (jsstring * jsstring) :=
  match s with
  | [] => None
  | c :: s' =>
      if (c =? DQUOTE)%N then Some ([], s')
      else if (c =? BACKSLASH)%N then
        match s' with
        | d :: s'' =>
            if ((d =? DQUOTE) || (d =? BACKSLASH) || (d =? 39))%N then
              match string_literal_body s'' with
              | Some (v, rest) => Some (d :: v, rest)
              | None => None
              end
            else None
        | [] => None
        end
      else if ((c =? 10) || (c =? 13))%N then None
      else
        match string_literal_body s' with
        | Some (v, rest) => Some (c :: v, rest)
        | None => None
        end
  end.

(** The message a text [() => console.error("...")] reports, when the text
    has that form. *)
Definition reported_message (code : jsstring) : option jsstring :=
  rest ← strip_prefix (lit "() => console.error(" ++ [DQUOTE]) code;
  '(v, rest') ← string_literal_body rest;
  if decide (rest' = lit ")") then Some v else None.

(* ===================================================================== *)
(** ** A small host, to run the plugin on concrete programs *)
(* ===================================================================== *)

Module Demo.

Definition build (s : NodeShape ref) (h : Heap) : ref * Heap :=
  (next h, allocate h s).

Definition one_statement (r : ref) : TransformOutcome :=
  Parsed (Some {| ast := Some {| program_body := [r] |} |}).

(** [() => console.error("msg")] *)
Definition parse_report (msg : jsstring) (h : Heap) : TransformOutcome * Heap :=
  let '(console, h) := build (Identifier "console") h in
  let '(error, h) := build (Identifier "error") h in
  let '(member, h) := build (MemberExpression console error) h in
  let '(text, h) := build (StringLiteral msg) h in
  let '(call, h) := build (CallExpression member [text]) h in
  let '(arrow, h) := build (ArrowFunctionExpression [] call false) h in
  let '(statement, h) := build (ExpressionStatement arrow) h in
  (one_statement statement, h).

(** [function $onAutoBreak$() { }] *)
Definition parse_named_noop (h : Heap) : TransformOutcome * Heap :=
  let '(name, h) := build (Identifier "$onAutoBreak$") h in
  let '(body, h) := build (BlockStatement []) h in
  let '(declaration, h) :=
    build (FunctionDeclaration (Some name) [] body false false) h in
  (one_statement declaration, h).

(** The text of a method [notify(line, column)] whose braces start on
    the next line: a call statement ended by a line break, then a block. *)
Definition method_text : jsstring :=
  lit "notify(line, column)" ++ [10%N] ++ lit "{ }".

Definition parse_method (h : Heap) : TransformOutcome * Heap :=
  let '(notify, h) := build (Identifier "notify") h in
  let '(line, h) := build (Identifier "line") h in
  let '(column, h) := build (Identifier "column") h in
  let '(call, h) := build (CallExpression notify [line; column]) h in
  let '(statement, h) := build (ExpressionStatement call) h in
  let '(block, h) := build (BlockStatement []) h in
  (Parsed (Some {| ast := Some {| program_body := [statement; block] |} |}),
   h).

(** A parser for the three texts above; any other text is a syntax
    error. *)
Definition parse (code : jsstring) (h : Heap) : TransformOutcome * Heap :=
  match reported_message code with
  | Some msg => parse_report msg h
  | None =>
      if decide (code = lit "function $onAutoBreak$() { }") then
        parse_named_noop h
      else if decide (code = method_text) then parse_method h
      else (Raised (JsError "SyntaxError"), h)
  end.


(** A message made of a backslash and a double quote. *)
Definition backslash_quote : jsstring := [BACKSLASH; DQUOTE].

(** The names [_hint], [_hint2], [_hint3], ... in the order asked for. *)
Definition uid (name : string) (n : nat) : string :=
  "_" +:+ name +:+ match n with O => EmptyString | S _ => pretty (S n) end.

#[export] Instance babel : Babel := {|
  HostState := nat;
  Scope := unit;
  transform := fun code h s => (parse code h, s);
  generateUid := fun _ name n => (uid name n, S n)
|}.

(** The program [while (x) { }], a loop at line 5, column 2:
    0 the program, 1 the loop, 2 its test, 3 its body. *)
Definition at_5_2 : SourceLocation :=
  {| start := {[ "line" := 5; "column" := 2 ]};
     end_ := {[ "line" := 5; "column" := 15 ]} |}.

Definition while_block : Heap :=
  {[ 0%nat := built (Program [1%nat]);
     1%nat := {| loc := Some at_5_2; shape := WhileStatement 2%nat 3%nat |};
     2%nat := built (Identifier "x");
     3%nat := built (BlockStatement []) ]}.

(** The program [for (;;) tick;], a loop without a position and with a
    bare statement as its body: 0 the program, 1 the loop, 2 its body. *)
Definition for_bare : Heap :=
  {[ 0%nat := built (Program [1%nat]);
     1%nat := built (ForStatement None None None 2%nat);
     2%nat := built (ExpressionStatement 3%nat);
     3%nat := built (Identifier "tick") ]}.

(** A store that already holds a callback [() => { }]: 8 the arrow
    function, 9 its body. *)
Definition with_callback (h : Heap) : Heap :=
  <[8%nat := built (ArrowFunctionExpression [] 9%nat false)]>
    (<[9%nat := built (BlockStatement [])]> h).

(** A state of this host: the store, the number of names minted and the
    texts parsed so far. *)
Definition state (h : Heap) (n : nat) (log : list jsstring) : State :=
  {| heap := h; host := n; transformed := log |}.

Definition initial (h : Heap) : State := state h O [].

(** The path of the statement at index 0 of the program. *)
Definition top_level : NodePath :=
  {| parentPath := None; parent := 0%nat; key := ListKey "body" 0;
     node := 1%nat; scope := tt |}.

(** The program [while (x) { } for (;;) tick;], two loops in one list:
    0 the program, 1 the first loop, 4 the second. *)
Definition two_loops : Heap :=
  {[ 0%nat := built (Program [1%nat; 4%nat]);
     1%nat := {| loc := Some at_5_2; shape := WhileStatement 2%nat 3%nat |};
     2%nat := built (Identifier "x");
     3%nat := built (BlockStatement []);
     4%nat := built (ForStatement None None None 5%nat);
     5%nat := built (ExpressionStatement 6%nat);
     6%nat := built (Identifier "tick") ]}.

(** The options [{ onBreak: 'stuck' }]. *)
Definition stuck : AutoBreakOptions :=
  {| onBreak := Some (Message (lit "stuck")); timeout := None |}.

(** The state in which a computation ends. *)
Definition final {A} (o : Outcome A) : State :=
  match o with Returns _ σ => σ | Throws _ σ => σ end.

(** The pass over [two_loops]: the plugin is made, then the first loop
    is visited; the second loop is then at index 2 of the program. *)
Definition made : State := final (autoBreak stuck (initial two_loops)).

Definition first_visited : State :=
  final (traverse (visitor (plugin_of 2000 12%nat)) [top_level] made).

Definition second_loop : NodePath :=
  {| parentPath := None; parent := 0%nat; key := ListKey "body" 2;
     node := 4%nat; scope := tt |}.

(** The two programs with a callback in the store, before any visit. *)
Definition while_state : State := initial (with_callback while_block).
Definition for_state : State := initial (with_callback for_bare).

End Demo.

(* ===================================================================== *)
(** ** Vocabulary of the statements *)
(* ===================================================================== *)

Section Vocabulary.
Context `{Babel}.

Definition live (h : Heap) (r : ref) : Prop := is_Some (h !! r).

Definition with_heap (σ : State) (h : Heap) : State :=
  {| heap := h; host := host σ; transformed := transformed σ |}.

(** [post o Q]: the computation returned, and [Q] holds of the value and
    of the state it returned in. *)
Definition post {A} (o : Outcome A) (Q : A -> State -> Prop) : Prop :=
  match o with
  | Returns a σ => Q a σ
  | Throws _ _ => False
  end.

(** [h'] still has every node of [h] that was new with respect to
    [base]. *)
Definition keeps_new (base h h' : Heap) : Prop :=
  forall r n, base !! r = None -> h !! r = Some n -> h' !! r = Some n.

(** The nodes of [var id = Date.now()], all new with respect to [base]. *)
Definition init_at (base h : Heap) (init id : ref) : Prop :=
  exists date now member call declarator,
    Forall (fun r => base !! r = None)
           [date; now; member; call; declarator; init]
    /\ h !! date = Some (built (Identifier "Date"))
    /\ h !! now = Some (built (Identifier "now"))
    /\ h !! member = Some (built (MemberExpression date now))
    /\ h !! call = Some (built (CallExpression member []))
    /\ h !! declarator = Some (built (VariableDeclarator id (Some call)))
    /\ h !! init = Some (built (VariableDeclaration "var" [declarator])).

(** The nodes of the guard, all new with respect to [base]. *)
Definition guard_at (base h : Heap) (guard id cb : ref)
  (line column timeout : Z) : Prop :=
  exists date now member call elapsed limit test l c notify statement
         exit consequent,
    Forall (fun r => base !! r = None)
           [date; now; member; call; elapsed; limit; test; l; c; notify;
            statement; exit; consequent; guard]
    /\ h !! date = Some (built (Identifier "Date"))
    /\ h !! now = Some (built (Identifier "now"))
    /\ h !! member = Some (built (MemberExpression date now))
    /\ h !! call = Some (built (CallExpression member []))
    /\ h !! elapsed = Some (built (BinaryExpression "-" call id))
    /\ h !! limit = Some (built (NumericLiteral timeout))
    /\ h !! test = Some (built (BinaryExpression ">" elapsed limit))
    /\ h !! l = Some (built (NumericLiteral line))
    /\ h !! c = Some (built (NumericLiteral column))
    /\ h !! notify = Some (built (CallExpression cb [l; c]))
    /\ h !! statement = Some (built (ExpressionStatement notify))
    /\ h !! exit = Some (built (BreakStatement None))
    /\ h !! consequent = Some (built (BlockStatement [statement; exit]))
    /\ h !! guard = Some (built (IfStatement test consequent None)).

(** A visited loop that is an element of a statement list: the path's
    node is a live loop with a live body, the path says where the loop
    sits in the [body] list of its parent, and the loop's body is neither
    that parent nor the loop (the AST is a tree). *)
Record loop_site (h : Heap) (p : NodePath) (nl np nb : Node) (b : ref)
  (i : nat) (stmts : list ref) : Prop := {
  site_loop : h !! node p = Some nl;
  site_body : get_field "body" (shape nl) = Some b;
  site_body_live : h !! b = Some nb;
  site_key : key p = ListKey "body" i;
  site_parent : h !! parent p = Some np;
  site_list : get_list "body" (shape np) = Some stmts;
  site_index : stmts !! i = Some (node p);
  site_tree : parent p <> b /\ node p <> b
}.

(** The name the scope mints for the timer of the loop at [p]. *)
Definition timer_name (σ : State) (p : NodePath) : string :=
  fst (generateUid (scope p) "auto_break_start" (host σ)).

(** The position the plugin takes for a loop node. *)
Definition line_of (n : Node) : Z := start_or_zero (loc n) !!! "line".
Definition column_of (n : Node) : Z := start_or_zero (loc n) !!! "column".

(** The effect of one [breakAfter] on the store, from [σ] to [σ']:
    the timer identifier [id], the initialisation [init] and the guard
    [guard] are new; [init] is spliced into the parent's list before the
    loop; the guard goes first in the body; nothing else changes. *)
Definition rewritten (timeout : Z) (cb : ref) (p : NodePath)
  (nl np nb : Node) (b : ref) (i : nat) (stmts : list ref)
  (σ σ' : State) (id init guard : ref) : Prop :=
  host σ' = snd (generateUid (scope p) "auto_break_start" (host σ))
  /\ transformed σ' = transformed σ
  /\ heap σ !! id = None
  /\ heap σ' !! id = Some (built (Identifier (timer_name σ p)))
  /\ init_at (heap σ) (heap σ') init id
  /\ guard_at (heap σ) (heap σ') guard id cb
       (line_of nl) (column_of nl) timeout
  /\ heap σ' !! parent p
     = Some {| loc := loc np;
               shape := set_list (take i stmts ++ init :: drop i stmts)
                                 (shape np) |}
  /\ match shape nb with
     | BlockStatement body =>
         heap σ' !! node p = Some nl
         /\ heap σ' !! b
            = Some {| loc := loc nb; shape := BlockStatement (guard :: body) |}
     | _ =>
         exists block,
           heap σ !! block = None
           /\ heap σ' !! block = Some (built (BlockStatement [guard; b]))
           /\ heap σ' !! node p
              = Some {| loc := loc nl; shape := set_field block (shape nl) |}
           /\ heap σ' !! b = Some nb
     end
  /\ (forall r n, heap σ !! r = Some n ->
        r <> parent p -> r <> node p -> r <> b -> heap σ' !! r = Some n).

(** The part of a loop that is not its body: the kind, and the
    initialisation, test and update it has. *)
Definition loop_header (s : NodeShape ref)
  : option (string * list (option ref)) :=
  match s with
  | ForStatement i c u _ => Some ("ForStatement", [i; c; u])
  | WhileStatement c _ => Some ("WhileStatement", [Some c])
  | DoWhileStatement _ c => Some ("DoWhileStatement", [Some c])
  | _ => None
  end.

(** The first statement of the body of the loop at [r], when the body is
    a block. *)
Definition first_of_body (h : Heap) (r : ref) : option ref :=
  nl ← h !! r;
  b ← get_field "body" (shape nl);
  nb ← h !! b;
  match shape nb with
  | BlockStatement (g :: _) => Some g
  | _ => None
  end.

(** The fragment shapes the claim on the error condition names: an
    expression statement that wraps a callable, or a function
    declaration. *)
Definition wraps_callable (h : Heap) (o : option ref) : bool :=
  match o ≫= (fun r => shape <$> h !! r) with
  | Some (ExpressionStatement e) => t.isKind is_callable h (Some e)
  | _ => false
  end.

End Vocabulary.

(* ===================================================================== *)
(** ** Where a visited loop can sit *)
(* ===================================================================== *)

Section Sites.
Context `{Babel}.

(** [placed h p a]: an insertion before [p] is made before [a].  That is
    [p] itself, unless the parent of [p] is a label (or an expression
    statement): then it is where an insertion before the path of that
    parent is made. *)
Inductive placed (h : Heap) : NodePath -> NodePath -> Prop :=
| placed_here p np :
    h !! parent p = Some np -> delegates (shape np) = false ->
    placed h p p
| placed_up p pp np a :
    h !! parent p = Some np -> delegates (shape np) = true ->
    parentPath p = Some pp -> node pp = parent p ->
    placed h pp a -> placed h p a.

(** The node of [a] is a statement that its parent [nh] holds where the
    path says: at an index of a statement list, or in a field that holds
    one statement. *)
Definition held (h : Heap) (a : NodePath) (nh : Node) : Prop :=
  h !! parent a = Some nh
  /\ (exists na, h !! node a = Some na /\ is_expression (shape na) = false)
  /\ match key a with
     | ListKey lk i =>
         exists l, get_list lk (shape nh) = Some l /\ l !! i = Some (node a)
     | FieldKey f =>
         statement_or_block_key f = true
         /\ get_statement f (shape nh) = Some (node a)
     end.

(** A loop as the engine visits it, wherever a statement can sit: the
    path's node is a live loop with a live body; the insertion before it
    is made at [a], which its parent [nh] holds; and the body is neither
    that parent nor the loop, nor is the loop that parent (the AST is a
    tree). *)
Record visited_loop (h : Heap) (p a : NodePath) (nl nh nb : Node)
  (b : ref) : Prop := {
  visited_node : h !! node p = Some nl;
  visited_body : get_field "body" (shape nl) = Some b;
  visited_body_live : h !! b = Some nb;
  visited_placed : placed h p a;
  visited_held : held h a nh;
  visited_tree : parent a <> b /\ node p <> b /\ parent a <> node p
}.

(** The loop is itself the one statement of a field of its parent: the
    branch of an [if], the body of [with] or of a loop of another kind. *)
Definition single_statement (h : Heap) (p : NodePath) : bool :=
  match h !! parent p, key p with
  | Some np, FieldKey _ => negb (delegates (shape np))
  | _, _ => false
  end.

(** What the parent [nh] of [a] has become when [n] was inserted before
    [a], and the nodes that were made for it: in a list, the list with [n]
    at the index of [a]; in a field, a new block in that field, which
    holds [n] and then the node of [a]. *)
Definition inserted_shape (a : NodePath) (nh : Node) (n : ref)
  (nh' : Node) (news : list (ref * Node)) : Prop :=
  match key a with
  | ListKey lk i =>
      exists l, get_list lk (shape nh) = Some l
                /\ news = []
                /\ nh' = {| loc := loc nh;
                            shape := set_list (take i l ++ n :: drop i l)
                                              (shape nh) |}
  | FieldKey f =>
      exists block,
        news = [(block, built (BlockStatement [n; node a]))]
        /\ nh' = {| loc := loc nh;
                    shape := set_statement f block (shape nh) |}
  end.

(** The effect on the store of a visit that returned, from [σ] to [σ']:
    the timer identifier, the initialisation and the guard are new; the
    parent [holder] of the place of insertion has become [nh'], with the
    new nodes [news] made for it; the guard goes first in the body;
    nothing else changes. *)
Definition rewritten_at (timeout : Z) (cb : ref) (p : NodePath)
  (nl nb : Node) (b holder : ref) (nh' : Node) (news : list (ref * Node))
  (σ σ' : State) (id init guard : ref) : Prop :=
  host σ' = snd (generateUid (scope p) "auto_break_start" (host σ))
  /\ transformed σ' = transformed σ
  /\ heap σ !! id = None
  /\ heap σ' !! id = Some (built (Identifier (timer_name σ p)))
  /\ init_at (heap σ) (heap σ') init id
  /\ guard_at (heap σ) (heap σ') guard id cb
       (line_of nl) (column_of nl) timeout
  /\ heap σ' !! holder = Some nh'
  /\ Forall (fun rn => heap σ !! rn.1 = None /\ heap σ' !! rn.1 = Some rn.2)
            news
  /\ match shape nb with
     | BlockStatement body =>
         heap σ' !! node p = Some nl
         /\ heap σ' !! b
            = Some {| loc := loc nb; shape := BlockStatement (guard :: body) |}
     | _ =>
         exists block,
           heap σ !! block = None
           /\ heap σ' !! block = Some (built (BlockStatement [guard; b]))
           /\ heap σ' !! node p
              = Some {| loc := loc nl; shape := set_field block (shape nl) |}
           /\ heap σ' !! b = Some nb
     end
  /\ (forall r n, heap σ !! r = Some n ->
        r <> holder -> r <> node p -> r <> b -> heap σ' !! r = Some n).

(** The effect on the store of the visit of a loop that is a single
    statement, which stops at line 48: the timer identifier, the
    initialisation and a guard were made; the field of the parent holds a
    new block with the initialisation and the loop; the loop and every
    other node are as they were, so the guard is in no body. *)
Definition wrapped_at (timeout : Z) (cb : ref) (p : NodePath)
  (nl nh : Node) (f : string) (σ σ' : State) (id init guard block : ref)
  : Prop :=
  host σ' = snd (generateUid (scope p) "auto_break_start" (host σ))
  /\ transformed σ' = transformed σ
  /\ heap σ !! id = None
  /\ heap σ' !! id = Some (built (Identifier (timer_name σ p)))
  /\ init_at (heap σ) (heap σ') init id
  /\ guard_at (heap σ) (heap σ') guard id cb
       (line_of nl) (column_of nl) timeout
  /\ heap σ !! block = None
  /\ heap σ' !! block = Some (built (BlockStatement [init; node p]))
  /\ heap σ' !! parent p
     = Some {| loc := loc nh; shape := set_statement f block (shape nh) |}
  /\ (forall r n, heap σ !! r = Some n ->
        r <> parent p -> heap σ' !! r = Some n).

End Sites.

(* ===================================================================== *)
(** ** Vocabulary of the properties of whole traversals and of revisits *)
(* ===================================================================== *)

(** What a pass may make of the shape of a node.  A node with a statement
    list is the same node with a list that still has the old statements,
    in their order, among its statements.  A node that holds a statement in
    a field (a loop and its body, an [if] and its branches, a label and its
    statement) is the same node with any statement in that field; an [if]
    without an [else] stays without.  Any other node is as it was. *)
Definition shape_grows (s s' : NodeShape ref) : Prop :=
  match s with
  | BlockStatement l => exists l', s' = BlockStatement l' /\ sublist l l'
  | Program l => exists l', s' = Program l' /\ sublist l l'
  | StaticBlock l => exists l', s' = StaticBlock l' /\ sublist l l'
  | SwitchCase t l => exists l', s' = SwitchCase t l' /\ sublist l l'
  | ForStatement i c u _ => exists b', s' = ForStatement i c u b'
  | WhileStatement c _ => exists b', s' = WhileStatement c b'
  | DoWhileStatement _ c => exists b', s' = DoWhileStatement b' c
  | IfStatement t _ a =>
      exists c' a', s' = IfStatement t c' a' /\ (a = None -> a' = None)
  | LabeledStatement l _ => exists b', s' = LabeledStatement l b'
  | WithStatement o _ => exists b', s' = WithStatement o b'
  | ForInStatement l r _ => exists b', s' = ForInStatement l r b'
  | ForOfStatement l r _ a => exists b', s' = ForOfStatement l r b' a
  | _ => s' = s
  end.

(** The statement list of the block or program at [r]. *)
Definition statements (h : Heap) (r : ref) : option (list ref) :=
  n ← h !! r; get_list "body" (shape n).

(** The statements of the body of the loop at [r]. *)
Definition body_statements (h : Heap) (r : ref) : option (list ref) :=
  nl ← h !! r; b ← get_field "body" (shape nl); statements h b.

(** The identifier node that the declaration at [r] declares, when the
    declaration has a single declarator. *)
Definition declared_id (h : Heap) (r : ref) : option ref :=
  n ← h !! r;
  match shape n with
  | VariableDeclaration _ [d] =>
      nd ← h !! d;
      match shape nd with
      | VariableDeclarator id _ => Some id
      | _ => None
      end
  | _ => None
  end.

(** The node that the test of the [if] statement at [r] subtracts: the
    right operand of the left operand of the test. *)
Definition subtracted_id (h : Heap) (r : ref) : option ref :=
  n ← h !! r;
  match shape n with
  | IfStatement test _ _ =>
      nt ← h !! test;
      match shape nt with
      | BinaryExpression _ elapsed _ =>
          ne ← h !! elapsed;
          match shape ne with
          | BinaryExpression _ _ operand => Some operand
          | _ => None
          end
      | _ => None
      end
  | _ => None
  end.

(** The [generator] and [async] flags of a function node. *)
Definition function_flags (s : NodeShape ref) : option (bool * bool) :=
  match s with
  | FunctionExpression _ _ _ g a | FunctionDeclaration _ _ _ g a => Some (g, a)
  | ArrowFunctionExpression _ _ a => Some (false, a)
  | _ => None
  end.

(** The body of a function node. *)
Definition function_body (s : NodeShape ref) : option ref :=
  match s with
  | FunctionExpression _ _ b _ _ | FunctionDeclaration _ _ b _ _
  | ArrowFunctionExpression _ b _ => Some b
  | _ => None
  end.

(** The code units a message may hold for the emitted string literal to
    read back as the message: no backslash, no line feed, no carriage
    return. *)
Definition plain (c : code_unit) : Prop :=
  c <> BACKSLASH /\ c <> 10%N /\ c <> 13%N.

Section Traversals.
Context `{Babel}.

(** The state a computation ends in, whether it returned or threw. *)
Definition final_state {A} (o : Outcome A) : State :=
  match o with Returns _ σ => σ | Throws _ σ => σ end.

(** From [σ] to [σ'] the parser was not called, no node was removed or
    moved to another position of the source, and every node is what it
    was up to [shape_grows]. *)
Definition grown (σ σ' : State) : Prop :=
  transformed σ' = transformed σ
  /\ forall r n, heap σ !! r = Some n ->
       exists n', heap σ' !! r = Some n' /\ loc n' = loc n
                  /\ shape_grows (shape n) (shape n').

(** [m] only grows the program, whether it returns or throws. *)
Definition steady {A} (m : M A) : Prop :=
  forall σ, grown σ (final_state (m σ)).

(** The outcome is one the embedding follows to its end: a return, or an
    exception that JavaScript throws. *)
Definition followed {A} (o : Outcome A) : Prop :=
  match o with
  | Returns _ _ => True
  | Throws (JsError _) _ => True
  | Throws (OutsideModel _) _ => False
  end.

End Traversals.

(** The program [while (x) { for (;;) tick; }], a loop in the body of a
    loop: 0 the program, 1 the outer loop, 2 its test, 3 its body, 4 the
    inner loop, 5 the inner body; 8 and 9 hold a callback. *)
Module Nested.

Definition program : Heap :=
  {[ 0%nat := built (Program [1%nat]);
     1%nat := {| loc := Some Demo.at_5_2;
                 shape := WhileStatement 2%nat 3%nat |};
     2%nat := built (Identifier "x");
     3%nat := built (BlockStatement [4%nat]);
     4%nat := built (ForStatement None None None 5%nat);
     5%nat := built (ExpressionStatement 6%nat);
     6%nat := built (Identifier "tick") ]}.

Definition before : State := Demo.initial (Demo.with_callback program).

(** The state after the visit of the outer loop. *)
Definition outer_visited : State :=
  final_state (H := Demo.babel)
    (breakAfter (H := Demo.babel) 2000 8%nat Demo.top_level before).

(** The inner loop, then at index 1 of the outer body. *)
Definition inner_loop : NodePathOf (@Scope Demo.babel) :=
  {| parentPath := None; parent := 3%nat; key := ListKey "body" 1;
     node := 4%nat; scope := tt |}.

End Nested.

(** The second loop of [Demo.two_loops] before any visit: the statement at
    index 1 of the program. *)
Module Siblings.

Definition second : NodePathOf (@Scope Demo.babel) :=
  {| parentPath := None; parent := 0%nat; key := ListKey "body" 1;
     node := 4%nat; scope := tt |}.

End Siblings.

(** The program [if (a) while (x) y();], a loop that is the one statement
    of a branch: 0 the program, 1 the [if], 2 its test, 3 the loop, 4 its
    test, 5 its body, the call 6 of 7; 8 and 9 hold a callback. *)
Module Branch.

Definition program : Heap :=
  {[ 0%nat := built (Program [1%nat]);
     1%nat := built (IfStatement 2%nat 3%nat None);
     2%nat := built (Identifier "a");
     3%nat := {| loc := Some Demo.at_5_2;
                 shape := WhileStatement 4%nat 5%nat |};
     4%nat := built (Identifier "x");
     5%nat := built (ExpressionStatement 6%nat);
     6%nat := built (CallExpression 7%nat []);
     7%nat := built (Identifier "y") ]}.

Definition before : State := Demo.initial (Demo.with_callback program).

Definition branch : NodePathOf (@Scope Demo.babel) :=
  {| parentPath := None; parent := 0%nat; key := ListKey "body" 0;
     node := 1%nat; scope := tt |}.

(** The path of the loop: the [consequent] of the [if]. *)
Definition loop : NodePathOf (@Scope Demo.babel) :=
  {| parentPath := Some branch; parent := 1%nat;
     key := FieldKey "consequent"; node := 3%nat; scope := tt |}.

(** The state in which the visit of the loop stops. *)
Definition stopped : State :=
  final_state (H := Demo.babel)
    (breakAfter (H := Demo.babel) 2000 8%nat loop before).


End Branch.

(** The program [outer: while (x) { }], a loop under a label: 0 the
    program, 1 the labeled statement, 2 the label, 3 the loop, 4 its test,
    5 its body; 8 and 9 hold a callback. *)
Module Labeled.

Definition program : Heap :=
  {[ 0%nat := built (Program [1%nat]);
     1%nat := built (LabeledStatement 2%nat 3%nat);
     2%nat := built (Identifier "outer");
     3%nat := {| loc := Some Demo.at_5_2;
                 shape := WhileStatement 4%nat 5%nat |};
     4%nat := built (Identifier "x");
     5%nat := built (BlockStatement []) ]}.

Definition before : State := Demo.initial (Demo.with_callback program).

Definition label : NodePathOf (@Scope Demo.babel) :=
  {| parentPath := None; parent := 0%nat; key := ListKey "body" 0;
     node := 1%nat; scope := tt |}.

(** The path of the loop: the [body] of the labeled statement. *)
Definition loop : NodePathOf (@Scope Demo.babel) :=
  {| parentPath := Some label; parent := 1%nat; key := FieldKey "body";
     node := 3%nat; scope := tt |}.

Definition visited : State :=
  final_state (H := Demo.babel)
    (breakAfter (H := Demo.babel) 2000 8%nat loop before).

End Labeled.

(** The program [if (a) outer: while (x) { }], a labeled loop that is the
    one statement of a branch: 0 the program, 1 the [if], 2 its test, 3 the
    labeled statement, 4 the label, 5 the loop, 6 its test, 7 its body; 8
    and 9 hold a callback. *)
Module LabeledBranch.

Definition program : Heap :=
  {[ 0%nat := built (Program [1%nat]);
     1%nat := built (IfStatement 2%nat 3%nat None);
     2%nat := built (Identifier "a");
     3%nat := built (LabeledStatement 4%nat 5%nat);
     4%nat := built (Identifier "outer");
     5%nat := {| loc := Some Demo.at_5_2;
                 shape := WhileStatement 6%nat 7%nat |};
     6%nat := built (Identifier "x");
     7%nat := built (BlockStatement []) ]}.

Definition before : State := Demo.initial (Demo.with_callback program).

Definition branch : NodePathOf (@Scope Demo.babel) :=
  {| parentPath := None; parent := 0%nat; key := ListKey "body" 0;
     node := 1%nat; scope := tt |}.

(** The path of the label: the [consequent] of the [if]. *)
Definition label : NodePathOf (@Scope Demo.babel) :=
  {| parentPath := Some branch; parent := 1%nat;
     key := FieldKey "consequent"; node := 3%nat; scope := tt |}.

(** The path of the loop: the [body] of the labeled statement. *)
Definition loop : NodePathOf (@Scope Demo.babel) :=
  {| parentPath := Some label; parent := 3%nat; key := FieldKey "body";
     node := 5%nat; scope := tt |}.

Definition visited : State :=
  final_state (H := Demo.babel)
    (breakAfter (H := Demo.babel) 2000 8%nat loop before).

End LabeledBranch.

(** A callback that holds a loop, [function $onAutoBreak$() { while (busy)
    { } }], in the store of the program [while (x) { }]: 8 the function
    expression, 9 its body, 10 its name, 11 the loop in the body, 12 its
    test, 13 its body. *)
Module Reentrant.

Definition store : Heap :=
  {[ 8%nat := built (FunctionExpression (Some 10%nat) [] 9%nat false false);
     9%nat := built (BlockStatement [11%nat]);
     10%nat := built (Identifier "$onAutoBreak$");
     11%nat := built (WhileStatement 12%nat 13%nat);
     12%nat := built (Identifier "busy");
     13%nat := built (BlockStatement []) ]} ∪ Demo.while_block.

Definition before : State := Demo.initial store.

(** The state after the visit of the loop of the program: its guard, which
    is then part of the program, holds the callback. *)
Definition program_visited : State :=
  final_state (H := Demo.babel)
    (breakAfter (H := Demo.babel) 2000 8%nat Demo.top_level before).

(** The path of the loop in the body of the callback. *)
Definition inner : NodePathOf (@Scope Demo.babel) :=
  {| parentPath := None; parent := 9%nat; key := ListKey "body" 0;
     node := 11%nat; scope := tt |}.

End Reentrant.

(** A host whose parser reads the text of one asynchronous function. *)
Module Flags.

Definition async_text : jsstring :=
  lit "async function report(line, column) { }".

Definition parse_async (h : Heap) : TransformOutcome * Heap :=
  let '(name, h) := Demo.build (Identifier "report") h in
  let '(line, h) := Demo.build (Identifier "line") h in
  let '(column, h) := Demo.build (Identifier "column") h in
  let '(body, h) := Demo.build (BlockStatement []) h in
  let '(declaration, h) :=
    Demo.build (FunctionDeclaration (Some name) [line; column] body
                  false true) h in
  (Demo.one_statement declaration, h).

Definition parse (code : jsstring) (h : Heap) : TransformOutcome * Heap :=
  if decide (code = async_text) then parse_async h
  else (Raised (JsError "SyntaxError"), h).

#[export] Instance babel : Babel := {|
  HostState := nat;
  Scope := unit;
  transform := fun code h s => (parse code h, s);
  generateUid := fun _ name n => (Demo.uid name n, S n)
|}.

Definition initial : StateOf nat :=
  {| heap := ∅; host := O; transformed := [] |}.

End Flags.

(* ===================================================================== *)
(** * Properties *)
(* ===================================================================== *)

(** ** Strings *)

Section StringFacts.

Lemma strip_prefix_app (p r : jsstring) : strip_prefix p (p ++ r) = Some r.
Proof.
  induction p as [|a p IH]; simpl; [reflexivity|].
  rewrite N.eqb_refl. exact IH.
Qed.


Lemma skip_spaces_app (ws rest : jsstring) (c : code_unit) :
  forallb is_regexp_space ws = true -> is_regexp_space c = false ->
  skip_spaces (ws ++ c :: rest) = c :: rest.
Proof.
  intros Hws Hc. induction ws as [|w ws IH]; simpl in *.
  - rewrite Hc. reflexivity.
  - apply andb_prop in Hws as [-> Hws]. auto.
Qed.


(** A message without backslash and line terminator is read back from
    its escaped form, whatever follows the closing quote. *)
Lemma string_literal_body_escape (m rest : jsstring) :
  Forall (fun c => c <> BACKSLASH /\ c <> 10%N /\ c <> 13%N) m ->
  string_literal_body (escape_double_quotes m ++ DQUOTE :: rest)
  = Some (m, rest).
Proof.
  induction 1 as [|c m (Hb & Hn & Hr) _ IH]; [reflexivity|].
  unfold escape_double_quotes in *. simpl.
  destruct (N.eqb_spec c DQUOTE) as [->|Hq].
  - simpl. rewrite IH. reflexivity.
  - simpl.
    destruct (N.eqb_spec c DQUOTE); [contradiction|].
    destruct (N.eqb_spec c BACKSLASH); [contradiction|].
    destruct (N.eqb_spec c 10); [contradiction|].
    destruct (N.eqb_spec c 13); [contradiction|].
    simpl. rewrite IH. reflexivity.
Qed.

End StringFacts.

(** ** The store *)

Section HeapFacts.

Lemma next_fresh (h : Heap) : h !! next h = None.
Proof. unfold next. apply (not_elem_of_dom (D := gset ref)), is_fresh. Qed.

Lemma allocate_lookup_new (h : Heap) s : allocate h s !! next h = Some (built s).
Proof. apply lookup_insert_eq. Qed.

Lemma allocate_subseteq (h : Heap) s : h ⊆ allocate h s.
Proof. apply insert_subseteq, next_fresh. Qed.

Lemma allocate_lookup_ne (h : Heap) s r :
  r <> next h -> allocate h s !! r = h !! r.
Proof. intros. apply lookup_insert_ne. congruence. Qed.

Lemma live_not_fresh (h : Heap) r x : live h r -> h !! x = None -> r <> x.
Proof. intros [n Hn] Hx ->. congruence. Qed.

Lemma fresh_weaken (h h' : Heap) r : h ⊆ h' -> h' !! r = None -> h !! r = None.
Proof. intros Hs Hr. eapply lookup_weaken_None; eauto. Qed.

End HeapFacts.

(** ** Running the monad *)

Section Post.
Context `{Babel}.

Lemma post_returns {A} (o : Outcome A) Q :
  post o Q <-> exists a σ, o = Returns a σ /\ Q a σ.
Proof.
  destruct o as [a σ|e σ]; simpl; split.
  - eauto.
  - intros (a' & σ' & E & HQ). congruence.
  - contradiction.
  - intros (a' & σ' & E & _). discriminate.
Qed.

Lemma post_mono {A} (o : Outcome A) (Q Q' : A -> State -> Prop) :
  post o Q -> (forall a σ, Q a σ -> Q' a σ) -> post o Q'.
Proof. destruct o; simpl; auto. Qed.

Lemma post_bind {A B} (m : M A) (k : A -> M B) σ Q :
  post (m σ) (fun a σ' => post (k a σ') Q) -> post (bind m k σ) Q.
Proof. unfold bind. destruct (m σ); simpl; auto. Qed.

Lemma post_new s σ (Q : ref -> State -> Prop) :
  (forall r h', heap σ !! r = None -> h' !! r = Some (built s) ->
                heap σ ⊆ h' -> Q r (with_heap σ h')) ->
  post (new s σ) Q.
Proof.
  intros HQ. apply (HQ (next (heap σ)) (allocate (heap σ) s)).
  - apply next_fresh.
  - apply allocate_lookup_new.
  - apply allocate_subseteq.
Qed.

Lemma post_bind_new {A} s (k : ref -> M A) σ Q :
  (forall r h', heap σ !! r = None -> h' !! r = Some (built s) ->
                heap σ ⊆ h' -> post (k r (with_heap σ h')) Q) ->
  post (bind (new s) k σ) Q.
Proof. intros HQ. apply post_bind, post_new. exact HQ. Qed.

Lemma read_live r n σ : heap σ !! r = Some n -> read r σ = Returns n σ.
Proof. intros E. unfold read, bind, get_heap. simpl. rewrite E. reflexivity. Qed.

Lemma read_dangling r σ :
  heap σ !! r = None ->
  read r σ = Throws (OutsideModel "dangling reference") σ.
Proof. intros E. unfold read, bind, get_heap. simpl. rewrite E. reflexivity. Qed.

Lemma write_live r n s σ :
  heap σ !! r = Some n ->
  write r s σ
  = Returns tt (with_heap σ (<[r := {| loc := loc n; shape := s |}]> (heap σ))).
Proof.
  intros E. unfold write, bind. rewrite (read_live r n σ E).
  reflexivity.
Qed.

Lemma post_bind_returns {A B} (m : M A) (k : A -> M B) σ a σ' Q :
  m σ = Returns a σ' -> post (k a σ') Q -> post (bind m k σ) Q.
Proof. intros E HQ. unfold bind. rewrite E. exact HQ. Qed.

Lemma bind_returns {A B} (m : M A) (k : A -> M B) σ a σ' :
  m σ = Returns a σ' -> bind m k σ = k a σ'.
Proof. intros E. unfold bind. rewrite E. reflexivity. Qed.

Lemma bind_throws {A B} (m : M A) (k : A -> M B) σ e σ' :
  m σ = Throws e σ' -> bind m k σ = Throws e σ'.
Proof. intros E. unfold bind. rewrite E. reflexivity. Qed.

End Post.

(** ** The two fragments in the store *)

Section Fragments.
Context `{Babel}.

Lemma keeps_new_subseteq base (h h' : Heap) : h ⊆ h' -> keeps_new base h h'.
Proof. intros Hs r n _ E. eapply lookup_weaken; eauto. Qed.

Lemma keeps_new_insert base (h : Heap) x v :
  live base x -> keeps_new base h (<[x := v]> h).
Proof.
  intros Hx r n Hr E. rewrite lookup_insert_ne; [exact E|].
  eapply live_not_fresh; eauto.
Qed.

Lemma keeps_new_trans base (h1 h2 h3 : Heap) :
  keeps_new base h1 h2 -> keeps_new base h2 h3 -> keeps_new base h1 h3.
Proof. unfold keeps_new. eauto. Qed.

Lemma init_at_keeps base h h' init id :
  keeps_new base h h' -> init_at base h init id -> init_at base h' init id.
Proof.
  intros K (date & now & member & call & declarator & F & L).
  exists date, now, member, call, declarator. split; [exact F|].
  repeat match type of F with Forall _ (_ :: _) =>
    apply Forall_cons in F as [? F] end.
  repeat match type of L with _ /\ _ => destruct L as [? L] end.
  repeat split; apply K; assumption.
Qed.

Lemma guard_at_keeps base h h' guard id cb line column timeout :
  keeps_new base h h' ->
  guard_at base h guard id cb line column timeout ->
  guard_at base h' guard id cb line column timeout.
Proof.
  intros K (date & now & member & call & elapsed & limit & test & l & c
            & notify & statement & exit & consequent & F & L).
  exists date, now, member, call, elapsed, limit, test, l, c, notify,
         statement, exit, consequent. split; [exact F|].
  repeat match type of F with Forall _ (_ :: _) =>
    apply Forall_cons in F as [? F] end.
  repeat match type of L with _ /\ _ => destruct L as [? L] end.
  repeat split; apply K; assumption.
Qed.

Lemma init_at_base (base base' : Heap) h init id :
  (forall r, base !! r = None -> base' !! r = None) ->
  init_at base h init id -> init_at base' h init id.
Proof.
  intros Hs (date & now & member & call & declarator & F & L).
  exists date, now, member, call, declarator. split; [|exact L].
  eapply Forall_impl; [exact F|]. intros r Hr. simpl in *. auto.
Qed.

Lemma guard_at_base (base base' : Heap) h guard id cb line column timeout :
  (forall r, base !! r = None -> base' !! r = None) ->
  guard_at base h guard id cb line column timeout ->
  guard_at base' h guard id cb line column timeout.
Proof.
  intros Hs (date & now & member & call & elapsed & limit & test & l & c
            & notify & statement & exit & consequent & F & L).
  exists date, now, member, call, elapsed, limit, test, l, c, notify,
         statement, exit, consequent. split; [|exact L].
  eapply Forall_impl; [exact F|]. intros r Hr. simpl in *. auto.
Qed.

Lemma init_at_new base h init id : init_at base h init id -> base !! init = None.
Proof.
  intros (date & now & member & call & declarator & F & _).
  repeat match type of F with Forall _ (_ :: _) =>
    apply Forall_cons in F as [? F] end. assumption.
Qed.

Lemma guard_at_new base h guard id cb line column timeout :
  guard_at base h guard id cb line column timeout -> base !! guard = None.
Proof.
  intros (date & now & member & call & elapsed & limit & test & l & c
          & notify & statement & exit & consequent & F & _).
  repeat match type of F with Forall _ (_ :: _) =>
    apply Forall_cons in F as [? F] end. assumption.
Qed.

End Fragments.

(** ** Reading the fragments back *)

Section ReadBack.

Lemma read_back_step n keep (h : Heap) r nd :
  r ∉ keep -> h !! r = Some nd ->
  read_back (S n) keep h r
  = (s ← traverse_shape (read_back n keep h) (shape nd); Some (T s)).
Proof.
  intros Hk E. simpl. rewrite bool_decide_eq_false_2 by exact Hk.
  rewrite E. reflexivity.
Qed.

Lemma read_back_keep n keep (h : Heap) r :
  r ∈ keep -> read_back (S n) keep h r = Some (Shared r).
Proof. intros Hk. simpl. rewrite bool_decide_eq_true_2 by exact Hk. reflexivity. Qed.

#[local] Arguments read_back : simpl never.

Lemma init_read_back base (h : Heap) init id nid x :
  init_at base h init id ->
  h !! id = Some nid -> shape nid = Identifier x ->
  read_back 5 [] h init = Some (init_form x).
Proof.
  intros (date & now & member & call & declarator & _ & L) Hid Hx.
  repeat match type of L with _ /\ _ => destruct L as [? L] end.
  repeat (erewrite read_back_step; [| apply not_elem_of_nil | eassumption];
          try rewrite Hx; cbn).
  reflexivity.
Qed.

Lemma guard_read_back base (h : Heap) guard id cb line column timeout nid x :
  guard_at base h guard id cb line column timeout ->
  live base cb -> id <> cb ->
  h !! id = Some nid -> shape nid = Identifier x ->
  read_back 6 [cb] h guard = Some (guard_form x line column timeout cb).
Proof.
  intros (date & now & member & call & elapsed & limit & test & l & c
          & notify & statement & exit & consequent & F & L) Hcb Hne Hid Hx.
  repeat match type of F with Forall _ (_ :: _) =>
    apply Forall_cons in F as [? F] end.
  repeat match type of L with _ /\ _ => destruct L as [? L] end.
  assert (Hkeep : forall r, base !! r = None -> r ∉ [cb]).
  { intros r Hr Hin. apply list_elem_of_singleton in Hin as ->.
    destruct Hcb as [? Hcb]. congruence. }
  assert (Hid' : id ∉ [cb]).
  { intros Hin. apply list_elem_of_singleton in Hin. contradiction. }
  assert (Hcb' : cb ∈ [cb]) by apply list_elem_of_here.
  repeat first
    [ rewrite (read_back_keep _ _ _ cb Hcb'); cbn
    | erewrite (read_back_step _ _ _ id); [| exact Hid' | exact Hid];
      rewrite Hx; cbn
    | erewrite read_back_step; [| apply Hkeep; eassumption | eassumption];
      cbn ].
  reflexivity.
Qed.

(** What the guard does at time [clock] when the timer variable holds
    [started]: it calls the callback with the position and breaks when
    more than [timeout] has elapsed, and does nothing otherwise. *)
Lemma guard_form_exec clock env x started line column timeout cb :
  env !! x = Some started ->
  exec clock env (guard_form x line column timeout cb)
  = Some (if Z.gtb (clock - started) timeout
          then ([{| callee := Shared cb;
                    args := [VNumber line; VNumber column] |}],
                Break None)
          else ([], Normal)).
Proof.
  intros Hx. unfold guard_form, date_now. cbn. rewrite Hx. cbn.
  destruct (Z.gtb (clock - started) timeout); reflexivity.
Qed.

(** A body that starts with the guard, once the timer has run out: the
    callback is called, the rest of the body is skipped, and the body
    completes with the unlabelled break. *)
Lemma guarded_body_exec clock env x started line column timeout cb rest :
  env !! x = Some started -> Z.gtb (clock - started) timeout = true ->
  exec clock env
    (T (BlockStatement (guard_form x line column timeout cb :: rest)))
  = Some ([{| callee := Shared cb;
              args := [VNumber line; VNumber column] |}],
          Break None).
Proof.
  intros Hx Hgt.
  pose proof (guard_form_exec clock env x started line column timeout cb Hx)
    as G. rewrite Hgt in G.
  change (exec clock env
            (T (BlockStatement
                  (guard_form x line column timeout cb :: rest))))
    with (match exec clock env (guard_form x line column timeout cb) with
          | Some (c1, Normal) =>
              match exec clock env (T (BlockStatement rest)) with
              | Some (c2, k) => Some (c1 ++ c2, k)
              | None => None
              end
          | other => other
          end).
  rewrite G. reflexivity.
Qed.

End ReadBack.

(** ** The fragment builders *)

Ltac chain :=
  solve [ repeat first [ reflexivity | eassumption | (etrans; [eassumption|]) ] ].

Ltac node_lookup :=
  first [ eassumption | eapply lookup_weaken; [eassumption | chain] ].

Ltac node_new :=
  first [ eassumption | eapply fresh_weaken; [| eassumption]; chain ].

Section BuilderSpecs.
Context `{Babel}.

(** Both builders only allocate: they return, the nodes there were are
    as they were, and the host and the parser log are untouched. *)
Lemma generateInitialization_spec id σ :
  post (generateInitialization id σ) (fun init σ' =>
    exists h', σ' = with_heap σ h' /\ heap σ ⊆ h'
               /\ init_at (heap σ) h' init id).
Proof.
  unfold generateInitialization, t.identifier,
    t.memberExpression, t.callExpression, t.variableDeclarator,
    t.variableDeclaration.
  apply post_bind_new; intros date h1 F1 L1 S1.
  apply post_bind_new; intros now h2 F2 L2 S2.
  apply post_bind_new; intros member h3 F3 L3 S3.
  apply post_bind_new; intros call h4 F4 L4 S4.
  apply post_bind_new; intros declarator h5 F5 L5 S5.
  apply post_new; intros init h6 F6 L6 S6.
  simpl in *. exists h6. split; [reflexivity|]. split; [chain|].
  exists date, now, member, call, declarator.
  split; [repeat (apply Forall_cons_2; [node_new|]); apply Forall_nil_2|].
  repeat split; node_lookup.
Qed.

Lemma generateLoopGuard_spec id line column timeout cb σ :
  post (generateLoopGuard id line column timeout cb σ) (fun guard σ' =>
    exists h', σ' = with_heap σ h' /\ heap σ ⊆ h'
               /\ guard_at (heap σ) h' guard id cb line column timeout).
Proof.
  unfold generateLoopGuard, t.identifier, t.memberExpression,
    t.callExpression, t.binaryExpression, t.numericLiteral,
    t.expressionStatement, t.breakStatement, t.blockStatement,
    t.ifStatement.
  apply post_bind_new; intros date h1 F1 L1 S1.
  apply post_bind_new; intros now h2 F2 L2 S2.
  apply post_bind_new; intros member h3 F3 L3 S3.
  apply post_bind_new; intros call h4 F4 L4 S4.
  apply post_bind_new; intros elapsed h5 F5 L5 S5.
  apply post_bind_new; intros limit h6 F6 L6 S6.
  apply post_bind_new; intros test h7 F7 L7 S7.
  apply post_bind_new; intros l h8 F8 L8 S8.
  apply post_bind_new; intros c h9 F9 L9 S9.
  apply post_bind_new; intros notify h10 F10 L10 S10.
  apply post_bind_new; intros statement h11 F11 L11 S11.
  apply post_bind_new; intros exit h12 F12 L12 S12.
  apply post_bind_new; intros consequent h13 F13 L13 S13.
  apply post_new; intros guard h14 F14 L14 S14.
  simpl in *. exists h14. split; [reflexivity|]. split; [chain|].
  exists date, now, member, call, elapsed, limit, test, l, c, notify,
         statement, exit, consequent.
  split; [repeat (apply Forall_cons_2; [node_new|]); apply Forall_nil_2|].
  repeat split; node_lookup.
Qed.

End BuilderSpecs.

(** ** The path operations *)

Section PathFacts.
Context `{Babel}.

Lemma call_generateUid_returns sc name σ :
  call_generateUid sc name σ
  = Returns (fst (generateUid sc name (host σ)))
      {| heap := heap σ; host := snd (generateUid sc name (host σ));
         transformed := transformed σ |}.
Proof.
  unfold call_generateUid.
  destruct (generateUid sc name (host σ)) as [x s']. reflexivity.
Qed.

Lemma generateUidIdentifier_spec sc name σ :
  post (generateUidIdentifier sc name σ) (fun id σ' =>
    host σ' = snd (generateUid sc name (host σ))
    /\ transformed σ' = transformed σ
    /\ heap σ !! id = None
    /\ heap σ' !! id
       = Some (built (Identifier (fst (generateUid sc name (host σ)))))
    /\ heap σ ⊆ heap σ').
Proof.
  unfold generateUidIdentifier, t.identifier.
  eapply post_bind_returns; [apply call_generateUid_returns|].
  apply post_new. intros id h' F L S. simpl in *. auto.
Qed.

(** The kinds of node, by what they hold. *)
Lemma get_list_delegates (lk : string) (s : NodeShape ref) l :
  get_list lk s = Some l -> delegates s = false.
Proof. destruct s; simpl; congruence. Qed.

Lemma get_field_expression (f : string) (s : NodeShape ref) b :
  get_field f s = Some b -> is_expression s = false.
Proof. destruct s; simpl; congruence. Qed.

Lemma get_field_statement (f : string) (s : NodeShape ref) b :
  get_field f s = Some b -> get_statement f s = Some b.
Proof. destruct s; simpl; congruence. Qed.

Lemma set_statement_body (s : NodeShape ref) b b' :
  get_field "body" s = Some b -> set_statement "body" b' s = set_field b' s.
Proof. destruct s; simpl; try discriminate; reflexivity. Qed.

Lemma insertBefore_eq (p : NodePath) (n : ref) :
  insertBefore p n
  = (par <- read (parent p) ;;
     if delegates (shape par) then
       match parentPath p with
       | Some pp => insertBefore pp n ;;; ret p
       | None => throw (OutsideModel "insertBefore: the path of the parent")
       end
     else
       nd <- read (node p) ;;
       if is_expression (shape nd) then
         throw (OutsideModel "insertBefore: replaceExpressionWithStatements")
       else
         match key p with
         | ListKey lk i =>
             match get_list lk (shape par) with
             | Some l =>
                 write (parent p)
                       (set_list (take i l ++ n :: drop i l) (shape par)) ;;;
                 ret (after_insertion p)
             | None => throw (OutsideModel "insertBefore: no such list")
             end
         | FieldKey f =>
             if statement_or_block_key f then
               block <- t.blockStatement [node p] ;;
               replaceWith p block ;;;
               unshiftContainer (with_node p block) "body" n ;;;
               ret (with_node p block)
             else if (is_ForStatement (shape par) && String.eqb f "init")%bool
             then
               throw (OutsideModel
                        "insertBefore: replaceExpressionWithStatements")
             else
               match shape par with
               | OtherNode _ _ =>
                   throw (OutsideModel
                            "insertBefore: a parent of another kind")
               | _ =>
                   throw (JsError
                            "We don't know what to do with this node type. We were previously a Statement but we can't fit in here?")
               end
         end).
Proof. destruct p; reflexivity. Qed.

Lemma insertBefore_list p n σ lk i np nd l :
  key p = ListKey lk i -> heap σ !! parent p = Some np ->
  get_list lk (shape np) = Some l ->
  heap σ !! node p = Some nd -> is_expression (shape nd) = false ->
  insertBefore p n σ
  = Returns (after_insertion p)
      (with_heap σ
         (<[parent p := {| loc := loc np;
                           shape := set_list (take i l ++ n :: drop i l)
                                             (shape np) |}]> (heap σ))).
Proof.
  intros Hk HP Hl HN He. rewrite insertBefore_eq.
  rewrite (bind_returns _ _ _ _ _ (read_live _ _ _ HP)).
  rewrite (get_list_delegates _ _ _ Hl).
  rewrite (bind_returns _ _ _ _ _ (read_live _ _ _ HN)).
  rewrite He, Hk, Hl.
  erewrite bind_returns; [reflexivity|]. apply write_live. exact HP.
Qed.

Lemma get_field_path p f σ nl b :
  heap σ !! node p = Some nl -> get_statement f (shape nl) = Some b ->
  get p f σ
  = Returns (One {| parentPath := Some p; parent := node p;
                    key := FieldKey f; node := b; scope := scope p |}) σ.
Proof.
  intros HL Hb. unfold get.
  rewrite (bind_returns _ _ _ _ _ (read_live _ _ _ HL)). rewrite Hb.
  reflexivity.
Qed.

Lemma isBlockStatement_live p σ n :
  heap σ !! node p = Some n ->
  isBlockStatement p σ = Returns (is_BlockStatement (shape n)) σ.
Proof.
  intros E. unfold isBlockStatement, bind, get_heap, ret,
    t.isBlockStatement, t.isKind. simpl. rewrite E. reflexivity.
Qed.

Lemma replaceWith_field p n σ f nl b :
  key p = FieldKey f -> heap σ !! parent p = Some nl ->
  get_statement f (shape nl) = Some b ->
  replaceWith p n σ
  = Returns tt
      (with_heap σ
         (<[parent p := {| loc := loc nl;
                           shape := set_statement f n (shape nl) |}]>
            (heap σ))).
Proof.
  intros Hk HP Hb. unfold replaceWith.
  rewrite (bind_returns _ _ _ _ _ (read_live _ _ _ HP)). rewrite Hk, Hb.
  apply write_live. exact HP.
Qed.

Lemma unshiftContainer_list p lk n σ nb l :
  heap σ !! node p = Some nb -> get_list lk (shape nb) = Some l ->
  unshiftContainer p lk n σ
  = Returns tt
      (with_heap σ
         (<[node p := {| loc := loc nb; shape := set_list (n :: l) (shape nb) |}]>
            (heap σ))).
Proof.
  intros HN Hl. unfold unshiftContainer.
  rewrite (bind_returns _ _ _ _ _ (read_live _ _ _ HN)). rewrite Hl.
  apply write_live. exact HN.
Qed.

End PathFacts.

(** ** One visit of a loop *)

Section BreakAfter.
Context `{Babel}.

Lemma is_loop_get_field (s : NodeShape ref) b :
  get_field "body" s = Some b -> is_loop s = true.
Proof. destruct s; simpl; congruence. Qed.

Lemma get_list_not_loop (s : NodeShape ref) lk l :
  get_list lk s = Some l -> is_loop s = false.
Proof. destruct s; simpl; congruence. Qed.

Lemma non_block_case (s : NodeShape ref) (P : list ref -> Prop) (Q : Prop) :
  is_BlockStatement s = false -> Q ->
  match s with BlockStatement body => P body | _ => Q end.
Proof. destruct s; simpl; intros; (discriminate || assumption). Qed.

Lemma loop_site_parent_ne h p nl np nb b i stmts :
  loop_site h p nl np nb b i stmts -> parent p <> node p.
Proof.
  intros S E. destruct S as [HL Hb _ _ HP Hl _ _].
  rewrite E in HP. rewrite HL in HP. injection HP as <-.
  apply is_loop_get_field in Hb. apply get_list_not_loop in Hl. congruence.
Qed.

(** *** The insertion, place by place *)

Lemma new_returns (s : NodeShape ref) (σ : State) :
  new s σ = Returns (next (heap σ)) (with_heap σ (allocate (heap σ) s)).
Proof. reflexivity. Qed.

(** A statement held in a field is wrapped in a new block, and the new
    statement goes first in that block. *)
Lemma insertBefore_wrap p n σ f nh nd :
  key p = FieldKey f -> statement_or_block_key f = true ->
  heap σ !! parent p = Some nh -> delegates (shape nh) = false ->
  get_statement f (shape nh) = Some (node p) ->
  heap σ !! node p = Some nd -> is_expression (shape nd) = false ->
  insertBefore p n σ
  = Returns (with_node p (next (heap σ)))
      (with_heap σ
         (<[parent p := {| loc := loc nh;
                           shape := set_statement f (next (heap σ))
                                                  (shape nh) |}]>
            (<[next (heap σ) := built (BlockStatement [n; node p])]>
               (heap σ)))).
Proof.
  intros Hk Hf HP Hd Hs HN He. rewrite insertBefore_eq.
  rewrite (bind_returns _ _ _ _ _ (read_live _ _ _ HP)). rewrite Hd.
  rewrite (bind_returns _ _ _ _ _ (read_live _ _ _ HN)). rewrite He, Hk, Hf.
  unfold t.blockStatement.
  rewrite (bind_returns _ _ _ _ _ (new_returns _ _)).
  set (block := next (heap σ)).
  assert (Fb : heap σ !! block = None) by apply next_fresh.
  assert (Hbp : block <> parent p) by (intros E; rewrite E in Fb; congruence).
  assert (HP1 : allocate (heap σ) (BlockStatement [node p]) !! parent p
                = Some nh).
  { rewrite allocate_lookup_ne; [exact HP|]. fold block. congruence. }
  erewrite bind_returns;
    [| eapply (replaceWith_field p block _ f); [exact Hk | exact HP1 | exact Hs]].
  erewrite bind_returns;
    [| eapply (unshiftContainer_list (with_node p block) "body" n _
                 (built (BlockStatement [node p])) [node p]);
       [|reflexivity]].
  - unfold ret, with_heap. cbn [heap host transformed node with_node].
    f_equal. f_equal. unfold allocate. fold block.
    rewrite (insert_insert_ne _ block (parent p)) by exact Hbp.
    rewrite insert_insert_eq. reflexivity.
  - cbn [heap with_heap node with_node].
    rewrite lookup_insert_ne by congruence.
    unfold allocate. fold block. apply lookup_insert_eq.
Qed.

(** Under a label the insertion is the one before the label, and the path
    stays as it is. *)
Lemma insertBefore_up p pp np n σ q σ' :
  heap σ !! parent p = Some np -> delegates (shape np) = true ->
  parentPath p = Some pp ->
  insertBefore pp n σ = Returns q σ' ->
  insertBefore p n σ = Returns p σ'.
Proof.
  intros HP Hd Hpp E. rewrite insertBefore_eq.
  rewrite (bind_returns _ _ _ _ _ (read_live _ _ _ HP)). rewrite Hd, Hpp.
  rewrite (bind_returns _ _ _ _ _ E). reflexivity.
Qed.

Lemma placed_weaken (h h' : Heap) p a :
  h ⊆ h' -> placed h p a -> placed h' p a.
Proof.
  intros Hsub. induction 1 as [p np HP Hd|p pp np a HP Hd Hpp Hn _ IH].
  - eapply placed_here; [|exact Hd]. eapply lookup_weaken; eassumption.
  - eapply placed_up; [|exact Hd|exact Hpp|exact Hn|exact IH].
    eapply lookup_weaken; eassumption.
Qed.

Lemma held_weaken (h h' : Heap) a nh :
  h ⊆ h' -> held h a nh -> held h' a nh.
Proof.
  intros Hsub (HP & (na & Hna & He) & Hk). split; [|split].
  - eapply lookup_weaken; eassumption.
  - exists na. split; [eapply lookup_weaken; eassumption | exact He].
  - exact Hk.
Qed.

(** The place of an insertion is not under a label. *)
Lemma placed_anchor (h : Heap) p a :
  placed h p a ->
  exists np, h !! parent a = Some np /\ delegates (shape np) = false.
Proof. induction 1; eauto. Qed.

Lemma single_statement_false (h : Heap) p np :
  h !! parent p = Some np -> delegates (shape np) = false ->
  single_statement h p = false ->
  exists lk i, key p = ListKey lk i.
Proof.
  intros HP Hd. unfold single_statement. rewrite HP, Hd.
  destruct (key p) as [lk i|f]; [eauto | discriminate].
Qed.

(** The insertion at a place that holds a statement, in the two forms it
    takes, as one write to the parent of the place over a store that has
    the new nodes. *)
Lemma insertBefore_at σ a nh n :
  held (heap σ) a nh -> delegates (shape nh) = false ->
  exists q nh' h' news,
    insertBefore a n σ = Returns q (with_heap σ (<[parent a := nh']> h'))
    /\ heap σ ⊆ h'
    /\ Forall (fun rn => heap σ !! rn.1 = None /\ h' !! rn.1 = Some rn.2
                         /\ rn.1 <> parent a) news
    /\ inserted_shape a nh n nh' news
    /\ match key a with
       | ListKey _ _ => q = after_insertion a
       | FieldKey _ => q = with_node a (next (heap σ))
       end.
Proof.
  intros (HP & (na & Hna & He) & Hk) Hd. unfold inserted_shape.
  destruct (key a) as [lk i|f] eqn:Ek.
  - destruct Hk as (l & Hl & Hi).
    eexists _, _, (heap σ), [].
    split; [eapply insertBefore_list; eassumption|].
    split; [reflexivity|]. split; [apply Forall_nil_2|].
    split; [|reflexivity]. exists l. auto.
  - destruct Hk as (Hf & Hs).
    assert (Fb : heap σ !! next (heap σ) = None) by apply next_fresh.
    eexists _, _, _, [(next (heap σ), _)].
    split; [eapply insertBefore_wrap; eassumption|].
    split; [apply insert_subseteq; exact Fb|].
    split.
    { apply Forall_cons_2; [|apply Forall_nil_2]. cbn [fst snd].
      split; [exact Fb|]. split; [apply lookup_insert_eq|].
      intros E. rewrite E in Fb. congruence. }
    split; [|reflexivity]. eexists. split; reflexivity.
Qed.

(** The insertion before a visited path: it is made at the place of the
    path, and the path that comes back still has the node and the scope
    it had, unless the path was itself a single statement. *)
Lemma insertBefore_site σ p a nh n :
  placed (heap σ) p a -> held (heap σ) a nh ->
  single_statement (heap σ) p = false ->
  exists q nh' h' news,
    insertBefore p n σ = Returns q (with_heap σ (<[parent a := nh']> h'))
    /\ node q = node p /\ scope q = scope p
    /\ heap σ ⊆ h'
    /\ Forall (fun rn => heap σ !! rn.1 = None /\ h' !! rn.1 = Some rn.2
                         /\ rn.1 <> parent a) news
    /\ inserted_shape a nh n nh' news.
Proof.
  intros Hpl Hheld Hss.
  destruct (placed_anchor _ _ _ Hpl) as (np' & HPa & Hda).
  assert (np' = nh) as -> by (destruct Hheld as (HP & _); congruence).
  destruct (insertBefore_at σ a nh n Hheld Hda)
    as (q & nh' & h' & news & E & Hsub & Hnews & Hshape & Hq).
  destruct Hpl as [p np HP Hd|p pp np a HP Hd Hpp Hn Hpl].
  - destruct (single_statement_false _ _ _ HP Hd Hss) as (lk & i & Hk).
    rewrite Hk in Hq. subst q.
    exists (after_insertion p), nh', h', news. auto 10.
  - exists p, nh', h', news. split; [|auto 10].
    clear Hss Hshape Hnews Hq.
    revert p np HP Hd Hpp Hn.
    induction Hpl as [a np0 HP0 Hd0|p' pp' np' a HP' Hd' Hpp' Hn' Hpl IH];
      intros p np HP Hd Hpp Hn.
    + eapply insertBefore_up; eassumption.
    + eapply insertBefore_up; [exact HP | exact Hd | exact Hpp |].
      eapply IH; eassumption.
Qed.

Lemma single_statement_weaken (h h' : Heap) p a :
  h ⊆ h' -> placed h p a -> single_statement h' p = single_statement h p.
Proof.
  intros Hsub Hpl.
  assert (exists np, h !! parent p = Some np) as [np HP]
    by (destruct Hpl; eauto).
  unfold single_statement.
  rewrite HP, (lookup_weaken _ _ _ _ HP Hsub). reflexivity.
Qed.

(** *** One visit that returns *)

Lemma breakAfter_returns timeout cb p a σ nl nh nb b :
  visited_loop (heap σ) p a nl nh nb b ->
  single_statement (heap σ) p = false ->
  post (breakAfter timeout cb p σ)
       (fun _ σ' => exists id init guard nh' news,
          rewritten_at timeout cb p nl nb b (parent a) nh' news σ σ'
            id init guard
          /\ inserted_shape a nh init nh' news).
Proof.
  intros [HL Hb Hnb Hpl Hheld (HPb & HLb & HPL)] Hss.
  assert (HP : heap σ !! parent a = Some nh) by (destruct Hheld; assumption).
  unfold breakAfter.
  eapply post_bind_returns; [apply read_live; exact HL|].
  cbv zeta. fold (line_of nl) (column_of nl).
  apply post_bind. eapply post_mono; [apply generateUidIdentifier_spec|].
  intros id σ1 (Hhost & Htr & Fid & Lid & S01).
  apply post_bind. eapply post_mono; [apply generateInitialization_spec|].
  intros init σ2 (h2 & -> & S12 & Hinit).
  destruct σ1 as [h1 host1 tr1]. simpl in Hhost, Htr, Lid, S01, S12, Hinit.
  subst host1 tr1. unfold with_heap at 1. cbn [heap host transformed].
  set (host' := snd (generateUid (scope p) "auto_break_start" (host σ))).
  assert (S02 : heap σ ⊆ h2) by chain.
  (* insertBefore *)
  destruct (insertBefore_site
              {| heap := h2; host := host'; transformed := transformed σ |}
              p a nh init
              (placed_weaken _ _ _ _ S02 Hpl) (held_weaken _ _ _ _ S02 Hheld))
    as (q & nh' & h2' & news & Eins & Hq & Hsc & S22' & Hnews & Hshape).
  { cbn [heap]. rewrite (single_statement_weaken _ _ _ _ S02 Hpl). exact Hss. }
  cbn [heap] in Eins, S22', Hnews.
  eapply post_bind_returns; [exact Eins|].
  unfold with_heap at 1. cbn [heap host transformed].
  set (h3 := <[parent a := nh']> h2').
  assert (S02' : heap σ ⊆ h2') by chain.
  assert (HL3 : h3 !! node p = Some nl).
  { unfold h3. rewrite lookup_insert_ne by congruence.
    eapply lookup_weaken; [exact HL | exact S02']. }
  assert (Hnb3 : h3 !! b = Some nb).
  { unfold h3. rewrite lookup_insert_ne by congruence.
    eapply lookup_weaken; [exact Hnb | exact S02']. }
  (* loop.get('body') *)
  eapply post_bind_returns;
    [eapply (get_field_path q);
     [cbn [heap]; rewrite Hq; exact HL3
     | eapply get_field_statement; exact Hb]|].
  (* generateLoopGuard *)
  apply post_bind. eapply post_mono; [apply generateLoopGuard_spec|].
  intros guard σ4 (h4 & -> & S34 & Hguard).
  unfold with_heap at 1. cbn [heap host transformed] in *.
  cbv beta iota.
  assert (HP4 : h4 !! parent a = Some nh').
  { eapply lookup_weaken; [|exact S34]. unfold h3. apply lookup_insert_eq. }
  assert (HL4 : h4 !! node p = Some nl) by node_lookup.
  assert (Hnb4 : h4 !! b = Some nb) by node_lookup.
  (* isBlockStatement *)
  eapply post_bind_returns;
    [eapply isBlockStatement_live; exact Hnb4|].
  cbn [node]. rewrite Hq.
  (* what the allocations and the splice kept *)
  assert (B1 : forall r, h1 !! r = None -> heap σ !! r = None)
    by (intros r Hr; eapply fresh_weaken; [exact S01 | exact Hr]).
  assert (B3 : forall r, h3 !! r = None -> heap σ !! r = None).
  { intros r Hr. unfold h3 in Hr. apply lookup_insert_None in Hr as [Hr _].
    eapply fresh_weaken; [exact S02' | exact Hr]. }
  assert (K24 : keeps_new (heap σ) h2 h4).
  { eapply keeps_new_trans; [apply keeps_new_subseteq; exact S22'|].
    eapply keeps_new_trans; [|apply keeps_new_subseteq; exact S34].
    apply keeps_new_insert. eexists; exact HP. }
  assert (K14 : keeps_new (heap σ) h1 h4).
  { eapply keeps_new_trans; [apply keeps_new_subseteq; exact S12|exact K24]. }
  assert (Hinit4 : init_at (heap σ) h4 init id).
  { eapply init_at_keeps; [exact K24|].
    eapply init_at_base; [exact B1 | exact Hinit]. }
  assert (Hguard4 : guard_at (heap σ) h4 guard id cb
                      (line_of nl) (column_of nl) timeout).
  { eapply guard_at_base; [exact B3 | exact Hguard]. }
  assert (Lid4 := K14 _ _ Fid Lid).
  assert (Hnews4 : Forall (fun rn => heap σ !! rn.1 = None
                                     /\ h4 !! rn.1 = Some rn.2) news).
  { eapply Forall_impl; [exact Hnews|]. intros [r n] (F & L & Hne).
    cbn [fst snd] in *. split; [eapply fresh_weaken; [exact S02 | exact F]|].
    eapply lookup_weaken; [|exact S34]. unfold h3.
    rewrite lookup_insert_ne by congruence. exact L. }
  assert (Fr4 : forall r n, heap σ !! r = Some n -> r <> parent a ->
                            h4 !! r = Some n).
  { intros r n Hr Hne. eapply (lookup_weaken h3); [|exact S34].
    unfold h3. rewrite lookup_insert_ne by congruence.
    eapply lookup_weaken; [exact Hr | exact S02']. }
  destruct (is_BlockStatement (shape nb)) eqn:Eblk; cbn [negb].
  - (* the body is a block: the guard goes first *)
    destruct (shape nb) as [| | | | | | | | | | | |body| | | | | | | | | | | | |]
      eqn:Enb; try discriminate Eblk.
    erewrite unshiftContainer_list;
      [| cbn [node heap]; exact Hnb4 | rewrite Enb; reflexivity].
    cbn [post node heap with_heap host transformed]. rewrite Enb.
    cbn [set_list].
    set (h5 := <[b := _]> h4).
    assert (K45 : keeps_new (heap σ) h4 h5)
      by (apply keeps_new_insert; eexists; exact Hnb).
    exists id, init, guard, nh', news. split; [|exact Hshape].
    unfold rewritten_at, with_heap.
    cbn [heap host transformed]. rewrite Enb.
    split_and!.
    + reflexivity.
    + reflexivity.
    + exact Fid.
    + exact (K45 _ _ Fid Lid4).
    + eapply init_at_keeps; eassumption.
    + eapply guard_at_keeps; eassumption.
    + unfold h5. rewrite lookup_insert_ne by congruence. exact HP4.
    + eapply Forall_impl; [exact Hnews4|]. intros [r n] (F & L).
      cbn [fst snd] in *. split; [exact F|]. exact (K45 _ _ F L).
    + unfold h5. rewrite lookup_insert_ne by congruence. exact HL4.
    + unfold h5. apply lookup_insert_eq.
    + intros r n Hr HrP HrL Hrb. unfold h5.
      rewrite lookup_insert_ne by congruence. auto.
  - (* the body is a bare statement: a new block takes its place *)
    unfold t.blockStatement. apply post_bind_new.
    intros block h5 F5 L5 S45. cbn [heap] in F5.
    assert (HL5 : h5 !! node p = Some nl) by node_lookup.
    erewrite replaceWith_field;
      [| reflexivity | cbn [parent heap with_heap]; exact HL5
       | eapply get_field_statement; exact Hb].
    rewrite (set_statement_body _ _ _ Hb).
    unfold with_heap. cbn [post parent heap host transformed].
    set (nl' := {| loc := loc nl; shape := set_field block (shape nl) |}).
    set (h6 := <[node p := nl']> h5).
    assert (Hblock : block <> node p).
    { intros ->. rewrite HL4 in F5. discriminate. }
    assert (K46 : keeps_new (heap σ) h4 h6).
    { eapply keeps_new_trans; [apply keeps_new_subseteq; exact S45|].
      apply keeps_new_insert. eexists; exact HL. }
    exists id, init, guard, nh', news. split; [|exact Hshape].
    unfold rewritten_at.
    cbn [heap host transformed].
    split_and!.
    + reflexivity.
    + reflexivity.
    + exact Fid.
    + exact (K46 _ _ Fid Lid4).
    + eapply init_at_keeps; eassumption.
    + eapply guard_at_keeps; eassumption.
    + unfold h6. rewrite lookup_insert_ne by congruence. node_lookup.
    + eapply Forall_impl; [exact Hnews4|]. intros [r n] (F & L).
      cbn [fst snd] in *. split; [exact F|]. exact (K46 _ _ F L).
    + apply non_block_case; [exact Eblk|].
      exists block. split_and!.
      * eapply B3, fresh_weaken; [exact S34 | exact F5].
      * unfold h6. rewrite lookup_insert_ne by congruence. exact L5.
      * unfold h6. apply lookup_insert_eq.
      * unfold h6. rewrite lookup_insert_ne by congruence. node_lookup.
    + intros r n Hr HrP HrL Hrb. unfold h6.
      rewrite lookup_insert_ne by congruence.
      eapply lookup_weaken; [|exact S45]. auto.
Qed.

(** A loop in a statement list is a visited loop whose insertion is made
    where it sits. *)
Lemma loop_site_visited h p nl np nb b i stmts :
  loop_site h p nl np nb b i stmts ->
  visited_loop h p p nl np nb b /\ single_statement h p = false.
Proof.
  intros S. pose proof (loop_site_parent_ne _ _ _ _ _ _ _ _ S) as HPL.
  destruct S as [HL Hb Hnb Hkey HP Hlist Hidx [HPb HLb]].
  split.
  - constructor; try assumption.
    + eapply placed_here; [exact HP|].
      eapply get_list_delegates; exact Hlist.
    + split; [exact HP|]. split.
      * exists nl. split; [exact HL|].
        eapply get_field_expression; exact Hb.
      * rewrite Hkey. exists stmts. auto.
    + auto.
  - unfold single_statement. rewrite HP, Hkey. reflexivity.
Qed.

Lemma breakAfter_spec timeout cb p σ nl np nb b i stmts :
  loop_site (heap σ) p nl np nb b i stmts ->
  live (heap σ) cb ->
  post (breakAfter timeout cb p σ)
       (fun _ σ' => exists id init guard,
          rewritten timeout cb p nl np nb b i stmts σ σ' id init guard).
Proof.
  intros S _. destruct (loop_site_visited _ _ _ _ _ _ _ _ S) as [V Hss].
  eapply post_mono; [apply (breakAfter_returns _ _ _ _ _ _ _ _ _ V Hss)|].
  intros _ σ' (id & init & guard & nh' & news & R & Hshape).
  exists id, init, guard.
  destruct S as [_ _ _ Hkey _ Hlist _ _].
  unfold inserted_shape in Hshape. rewrite Hkey in Hshape.
  destruct Hshape as (l & Hl & -> & ->).
  rewrite Hlist in Hl. injection Hl as <-.
  destruct R as (R1 & R2 & R3 & R4 & R5 & R6 & R7 & _ & R9 & R10).
  unfold rewritten. auto 10.
Qed.

(** *** One visit of a loop that is a single statement *)

Lemma get_list_path p f σ nd l :
  heap σ !! node p = Some nd -> get_statement f (shape nd) = None ->
  get_list f (shape nd) = Some l ->
  exists ps, get p f σ = Returns (Many ps) σ.
Proof.
  intros HN Hs Hl. unfold get.
  rewrite (bind_returns _ _ _ _ _ (read_live _ _ _ HN)). rewrite Hs, Hl.
  eexists. reflexivity.
Qed.

Lemma breakAfter_wrapped timeout cb p σ nl nh f :
  heap σ !! node p = Some nl -> is_expression (shape nl) = false ->
  key p = FieldKey f -> statement_or_block_key f = true ->
  heap σ !! parent p = Some nh -> delegates (shape nh) = false ->
  get_statement f (shape nh) = Some (node p) ->
  exists σ' id init guard block,
    breakAfter timeout cb p σ = Throws not_a_function σ'
    /\ wrapped_at timeout cb p nl nh f σ σ' id init guard block.
Proof.
  intros HL He Hk Hf HP Hd Hs.
  destruct (proj1 (post_returns _ _)
              (generateUidIdentifier_spec (scope p) "auto_break_start" σ))
    as (id & σ1 & E1 & Hhost & Htr & Fid & Lid & S01).
  destruct (proj1 (post_returns _ _) (generateInitialization_spec id σ1))
    as (init & σ2 & E2 & h2 & -> & S12 & Hinit).
  assert (S02 : heap σ ⊆ h2) by chain.
  assert (HP2 : h2 !! parent p = Some nh) by node_lookup.
  assert (HL2 : h2 !! node p = Some nl) by node_lookup.
  pose proof (insertBefore_wrap p init (with_heap σ1 h2) f nh nl
                Hk Hf HP2 Hd Hs HL2 He) as E3.
  cbn [heap with_heap host transformed] in E3.
  set (block := next h2) in *.
  assert (Fb : h2 !! block = None) by apply next_fresh.
  assert (Hbp : block <> parent p) by (intros E; rewrite E in Fb; congruence).
  set (nh' := {| loc := loc nh; shape := set_statement f block (shape nh) |})
    in *.
  set (h3 := <[parent p := nh']>
               (<[block := built (BlockStatement [init; node p])]> h2)) in *.
  assert (Lb3 : h3 !! block = Some (built (BlockStatement [init; node p]))).
  { unfold h3. rewrite lookup_insert_ne by congruence.
    apply lookup_insert_eq. }
  destruct (get_list_path (with_node p block) "body"
              {| heap := h3; host := host σ1; transformed := transformed σ1 |}
              _ [init; node p] Lb3 eq_refl eq_refl) as (ps & E4).
  destruct (proj1 (post_returns _ _)
              (generateLoopGuard_spec id (line_of nl) (column_of nl) timeout
                 cb {| heap := h3; host := host σ1;
                       transformed := transformed σ1 |}))
    as (guard & σ4 & E5 & h4 & -> & S34 & Hguard).
  cbn [heap] in S34, Hguard.
  exists (with_heap {| heap := h3; host := host σ1;
                       transformed := transformed σ1 |} h4),
    id, init, guard, block.
  split.
  - unfold breakAfter.
    rewrite (bind_returns _ _ _ _ _ (read_live _ _ _ HL)). cbv zeta.
    fold (line_of nl) (column_of nl).
    rewrite (bind_returns _ _ _ _ _ E1), (bind_returns _ _ _ _ _ E2).
    rewrite (bind_returns _ _ _ _ _ E3), (bind_returns _ _ _ _ _ E4).
    rewrite (bind_returns _ _ _ _ _ E5). reflexivity.
  - assert (S23 : forall r n, h2 !! r = Some n -> r <> parent p ->
                              h3 !! r = Some n).
    { intros r n Hr Hne. unfold h3. rewrite lookup_insert_ne by congruence.
      rewrite lookup_insert_ne; [exact Hr|].
      intros <-. congruence. }
    assert (B1 : forall r, heap σ1 !! r = None -> heap σ !! r = None)
      by (intros r Hr; eapply fresh_weaken; [exact S01 | exact Hr]).
    assert (B3 : forall r, h3 !! r = None -> heap σ !! r = None).
    { intros r Hr. unfold h3 in Hr. apply lookup_insert_None in Hr as [Hr _].
      apply lookup_insert_None in Hr as [Hr _].
      eapply fresh_weaken; [exact S02 | exact Hr]. }
    assert (K24 : keeps_new (heap σ) h2 h4).
    { eapply keeps_new_trans; [|apply keeps_new_subseteq; exact S34].
      unfold h3. eapply keeps_new_trans;
        [apply keeps_new_subseteq, insert_subseteq; exact Fb|].
      apply keeps_new_insert. eexists; exact HP. }
    unfold wrapped_at, with_heap. cbn [heap host transformed].
    split_and!.
    + exact Hhost.
    + exact Htr.
    + exact Fid.
    + apply K24; [exact Fid|]. eapply lookup_weaken; [exact Lid | exact S12].
    + eapply init_at_keeps; [exact K24|].
      eapply init_at_base; [exact B1 | exact Hinit].
    + eapply guard_at_base; [exact B3 | exact Hguard].
    + eapply fresh_weaken; [exact S02 | exact Fb].
    + eapply lookup_weaken; [exact Lb3 | exact S34].
    + eapply lookup_weaken; [|exact S34]. unfold h3. apply lookup_insert_eq.
    + intros r n Hr Hne. eapply lookup_weaken; [|exact S34].
      apply S23; [|exact Hne]. eapply lookup_weaken; [exact Hr | exact S02].
Qed.

Lemma get_field_set_field (s : NodeShape ref) b b' :
  get_field "body" s = Some b -> get_field "body" (set_field b' s) = Some b'.
Proof. destruct s; simpl; congruence. Qed.

Lemma loop_header_set_field (s : NodeShape ref) b' :
  loop_header (set_field b' s) = loop_header s.
Proof. destruct s; reflexivity. Qed.

(** The engine's dispatch reaches [breakAfter] for the three kinds of
    loop. *)
Lemma visit_loop (p : NodePath) (σ : State) (nl : Node)
  (timeout : Z) (cb b : ref) :
  heap σ !! node p = Some nl -> get_field "body" (shape nl) = Some b ->
  visit (visitor (plugin_of timeout cb)) p σ = breakAfter timeout cb p σ.
Proof.
  intros HL Hb. unfold visit.
  rewrite (bind_returns _ _ _ _ _ (read_live _ _ _ HL)).
  destruct (shape nl); try discriminate Hb; reflexivity.
Qed.

Section Rewritten.
Variables (timeout : Z) (cb : ref) (p : NodePath) (nl np nb : Node)
  (b : ref) (i : nat) (stmts : list ref) (σ σ' : State)
  (id init guard : ref).
Hypothesis R : rewritten timeout cb p nl np nb b i stmts σ σ' id init guard.
Hypothesis S : loop_site (heap σ) p nl np nb b i stmts.

Lemma rewritten_guard_form :
  live (heap σ) cb ->
  read_back 6 [cb] (heap σ') guard
  = Some (guard_form (timer_name σ p) (line_of nl) (column_of nl)
            timeout cb).
Proof.
  intros Hcb. destruct R as (_ & _ & Fid & Lid & _ & G & _).
  eapply guard_read_back; [exact G | exact Hcb | | exact Lid | reflexivity].
  intros ->. destruct Hcb as [n Hn]. congruence.
Qed.

Lemma rewritten_first_of_body :
  first_of_body (heap σ') (node p) = Some guard.
Proof.
  destruct S as [_ Hb _ _ _ _ _ _].
  destruct R as (_ & _ & _ & _ & _ & _ & _ & B & _).
  unfold first_of_body.
  destruct (is_BlockStatement (shape nb)) eqn:E.
  - destruct (shape nb); try discriminate E.
    destruct B as [B1 B2]. rewrite B1. simpl. rewrite Hb. simpl.
    rewrite B2. reflexivity.
  - assert (B' : exists block,
               heap σ' !! block = Some (built (BlockStatement [guard; b]))
               /\ heap σ' !! node p
                  = Some {| loc := loc nl;
                            shape := set_field block (shape nl) |}).
    { destruct (shape nb); try discriminate E;
        destruct B as (block & _ & ? & ? & _); eauto. }
    destruct B' as (block & B1 & B2). rewrite B2. simpl.
    rewrite (get_field_set_field _ _ _ Hb). simpl. rewrite B1.
    reflexivity.
Qed.

End Rewritten.

End BreakAfter.

(** ** The position of a loop *)

Section Position.




End Position.

(** ** What the operations of a visit leave in place *)

Section Steady.
Context `{Babel}.

Lemma get_list_set_list (s : NodeShape ref) l l' :
  get_list "body" s = Some l -> get_list "body" (set_list l' s) = Some l'.
Proof. destruct s; simpl; congruence. Qed.

Lemma get_list_block (l : list ref) :
  get_list "body" (BlockStatement l) = Some l.
Proof. reflexivity. Qed.

Lemma shape_grows_refl (s : NodeShape ref) : shape_grows s s.
Proof. destruct s; simpl; eauto. Qed.

(** A longer list in the place of a statement list. *)
Lemma shape_grows_list (s : NodeShape ref) (lk : string) (l l' : list ref) :
  get_list lk s = Some l -> sublist l l' -> shape_grows s (set_list l' s).
Proof.
  intros Hl Hsub. destruct s; simpl in Hl; try discriminate Hl;
    (destruct (decide _); [|discriminate Hl]); injection Hl as ->;
    simpl; eauto.
Qed.

(** Another statement in a field that held one. *)
Lemma shape_grows_statement (s : NodeShape ref) (f : string) (b b' : ref) :
  get_statement f s = Some b -> shape_grows s (set_statement f b' s).
Proof.
  intros Hb. destruct s; simpl in Hb; try discriminate Hb; simpl.
  - destruct (String.eqb f "consequent");
      [eexists _, _; split; [reflexivity | auto]|].
    destruct (String.eqb f "alternate"); [|discriminate Hb].
    eexists _, _. split; [reflexivity|]. intros ->. discriminate Hb.
  - destruct (String.eqb f "body"); simpl; eauto.
  - destruct (String.eqb f "body"); simpl; eauto.
  - destruct (String.eqb f "body"); simpl; eauto.
  - destruct (String.eqb f "body"); simpl; eauto.
  - destruct (String.eqb f "body"); simpl; eauto.
  - destruct (String.eqb f "body"); simpl; eauto.
  - destruct (String.eqb f "body"); simpl; eauto.
Qed.

Lemma shape_grows_trans (s1 s2 s3 : NodeShape ref) :
  shape_grows s1 s2 -> shape_grows s2 s3 -> shape_grows s1 s3.
Proof.
  intros H12 H23.
  destruct s1; simpl in H12;
    try (subst s2; exact H23);
    try (destruct H12 as (l2 & -> & S12); simpl in H23;
         destruct H23 as (l3 & -> & S23); simpl; exists l3;
         split; [reflexivity | etrans; eassumption]);
    try (destruct H12 as (b2 & ->); exact H23).
  destruct H12 as (c2 & a2 & -> & N12). simpl in H23.
  destruct H23 as (c3 & a3 & -> & N23). simpl.
  exists c3, a3. split; [reflexivity | auto].
Qed.

(** What [shape_grows] keeps, in the words of the accessors. *)
Lemma shape_grows_keeps (s s' : NodeShape ref) :
  shape_grows s s' ->
  loop_header s' = loop_header s
  /\ (is_container s = false -> s' = s)
  /\ (forall lk l, get_list lk s = Some l ->
        exists l', get_list lk s' = Some l' /\ sublist l l').
Proof.
  intros G.
  destruct s; simpl in G;
    try (subst s'; split_and!; [reflexivity | reflexivity | eauto]);
    try (destruct G as (l' & -> & Hsub);
         split_and!; [reflexivity | discriminate |];
         intros lk l E; simpl in E |- *;
         destruct (decide _); [|discriminate E]; injection E as <-;
         eauto);
    try (destruct G as (b' & ->);
         split_and!; [reflexivity | discriminate | discriminate]).
  destruct G as (c' & a' & -> & _).
  split_and!; [reflexivity | discriminate | discriminate].
Qed.

Lemma grown_refl (σ : State) : grown σ σ.
Proof.
  split; [reflexivity|]. intros r n Hr. exists n.
  split_and!; [exact Hr | reflexivity | apply shape_grows_refl].
Qed.

Lemma grown_trans (σ1 σ2 σ3 : State) :
  grown σ1 σ2 -> grown σ2 σ3 -> grown σ1 σ3.
Proof.
  intros [T12 N12] [T23 N23]. split; [congruence|].
  intros r n Hr. destruct (N12 r n Hr) as (n2 & H2 & L2 & G2).
  destruct (N23 r n2 H2) as (n3 & H3 & L3 & G3).
  exists n3. split_and!; [exact H3 | congruence |].
  eapply shape_grows_trans; eassumption.
Qed.

Lemma grown_extend (σ : State) (h' : Heap) (s' : HostState) :
  heap σ ⊆ h' ->
  grown σ {| heap := h'; host := s'; transformed := transformed σ |}.
Proof.
  intros Hsub. split; [reflexivity|]. intros r n Hr. exists n.
  split_and!; [|reflexivity | apply shape_grows_refl].
  eapply lookup_weaken; [exact Hr | exact Hsub].
Qed.

Lemma grown_write (σ : State) (x : ref) (n : Node) (s : NodeShape ref) :
  heap σ !! x = Some n -> shape_grows (shape n) s ->
  grown σ (with_heap σ (<[x := {| loc := loc n; shape := s |}]> (heap σ))).
Proof.
  intros Hx Hs. split; [reflexivity|]. intros r n0 Hr. cbn [heap with_heap].
  destruct (decide (r = x)) as [->|Hne].
  - rewrite lookup_insert_eq. rewrite Hx in Hr. injection Hr as <-.
    eexists. split; [reflexivity|]. split; [reflexivity | exact Hs].
  - rewrite lookup_insert_ne by congruence. exists n0.
    split_and!; [exact Hr | reflexivity | apply shape_grows_refl].
Qed.

Lemma steady_ret {A} (a : A) : steady (ret a).
Proof. intros σ. apply grown_refl. Qed.

Lemma steady_throw {A} (e : Error) : steady (throw (A := A) e).
Proof. intros σ. apply grown_refl. Qed.

Lemma steady_bind_post {A B} (m : M A) (k : A -> M B) (P : A -> Prop) :
  steady m -> (forall σ a σ', m σ = Returns a σ' -> P a) ->
  (forall a, P a -> steady (k a)) -> steady (bind m k).
Proof.
  intros Hm HP Hk σ. unfold bind. specialize (Hm σ).
  destruct (m σ) as [a σ'|e σ'] eqn:E; cbn [final_state] in *.
  - eapply grown_trans; [exact Hm|]. apply Hk. eapply HP. exact E.
  - exact Hm.
Qed.

Lemma steady_bind {A B} (m : M A) (k : A -> M B) :
  steady m -> (forall a, steady (k a)) -> steady (bind m k).
Proof.
  intros Hm Hk. apply (steady_bind_post m k (fun _ => True)); auto.
Qed.

Lemma steady_read (r : ref) : steady (read r).
Proof.
  intros σ. unfold read, bind, get_heap.
  destruct (heap σ !! r); apply grown_refl.
Qed.

Lemma steady_new (s : NodeShape ref) : steady (new s).
Proof. intros σ. apply (grown_extend σ), allocate_subseteq. Qed.

Lemma steady_write (x : ref) (n : Node) (s : NodeShape ref) (σ : State) :
  heap σ !! x = Some n -> shape_grows (shape n) s ->
  grown σ (final_state (write x s σ)).
Proof.
  intros Hx Hs. rewrite (write_live _ _ _ _ Hx). apply grown_write; assumption.
Qed.

Lemma sublist_insert_before (l : list ref) (i : nat) (x : ref) :
  sublist l (take i l ++ x :: drop i l).
Proof.
  rewrite <- (take_drop i l) at 1.
  apply sublist_app; [reflexivity|]. apply sublist_cons. reflexivity.
Qed.

Lemma steady_replaceWith (p : NodePath) (n : ref) (f : string) :
  key p = FieldKey f -> steady (replaceWith p n).
Proof.
  intros Hk σ. unfold replaceWith.
  destruct (heap σ !! parent p) as [par|] eqn:HP.
  - rewrite (bind_returns _ _ _ _ _ (read_live _ _ _ HP)). rewrite Hk.
    destruct (get_statement f (shape par)) as [b|] eqn:Hb; [|apply grown_refl].
    eapply steady_write; [exact HP|].
    eapply shape_grows_statement. exact Hb.
  - rewrite (bind_throws _ _ _ _ _ (read_dangling _ _ HP)). apply grown_refl.
Qed.

Lemma steady_unshiftContainer (p : NodePath) (lk : string) (n : ref) :
  steady (unshiftContainer p lk n).
Proof.
  intros σ. unfold unshiftContainer.
  destruct (heap σ !! node p) as [nd|] eqn:HN.
  - rewrite (bind_returns _ _ _ _ _ (read_live _ _ _ HN)).
    destruct (get_list lk (shape nd)) as [l|] eqn:Hl; [|apply grown_refl].
    eapply steady_write; [exact HN|].
    eapply shape_grows_list; [exact Hl|].
    apply sublist_cons. reflexivity.
  - rewrite (bind_throws _ _ _ _ _ (read_dangling _ _ HN)). apply grown_refl.
Qed.

(** Induction on a path along its parent paths. *)
Lemma NodePath_parent_ind (P : NodePath -> Prop) :
  (forall p, (forall pp, parentPath p = Some pp -> P pp) -> P p) ->
  forall p, P p.
Proof.
  intros IH. fix rec 1. intros [[pp|] par k n sc]; apply IH; simpl.
  - intros q E. injection E as <-. apply rec.
  - intros q E. discriminate E.
Qed.

Lemma steady_insertBefore (p : NodePath) (n : ref) : steady (insertBefore p n).
Proof.
  induction p as [p IH] using NodePath_parent_ind.
  rewrite insertBefore_eq. intros σ.
  destruct (heap σ !! parent p) as [par|] eqn:HP;
    [|rewrite (bind_throws _ _ _ _ _ (read_dangling _ _ HP));
      apply grown_refl].
  rewrite (bind_returns _ _ _ _ _ (read_live _ _ _ HP)).
  destruct (delegates (shape par)).
  { destruct (parentPath p) as [pp|]; [|apply grown_refl].
    exact (steady_bind _ _ (IH pp eq_refl) (fun _ => steady_ret _) σ). }
  destruct (heap σ !! node p) as [nd|] eqn:HN;
    [|rewrite (bind_throws _ _ _ _ _ (read_dangling _ _ HN));
      apply grown_refl].
  rewrite (bind_returns _ _ _ _ _ (read_live _ _ _ HN)).
  destruct (is_expression (shape nd)); [apply grown_refl|].
  destruct (key p) as [lk i|f] eqn:Hk.
  - destruct (get_list lk (shape par)) as [l|] eqn:Hl; [|apply grown_refl].
    unfold bind. rewrite (write_live _ _ _ _ HP). cbn [final_state ret].
    apply grown_write; [exact HP|].
    eapply shape_grows_list; [exact Hl | apply sublist_insert_before].
  - destruct (statement_or_block_key f).
    + revert σ HP HN.
      assert (S : steady (block <- t.blockStatement [node p] ;;
                          replaceWith p block ;;;
                          unshiftContainer (with_node p block) "body" n ;;;
                          ret (with_node p block))); [|intros; apply S].
      apply steady_bind; [apply steady_new | intros block].
      apply steady_bind; [eapply steady_replaceWith; exact Hk | intros _].
      apply steady_bind; [apply steady_unshiftContainer | intros _].
      apply steady_ret.
    + destruct (is_ForStatement (shape par) && String.eqb f "init")%bool;
        [apply grown_refl|].
      destruct (shape par); apply grown_refl.
Qed.

Lemma steady_get (p : NodePath) (f : string) : steady (get p f).
Proof.
  unfold get. apply steady_bind; [apply steady_read | intros n].
  destruct (get_statement f (shape n)); [apply steady_ret|].
  destruct (get_list f (shape n)); [apply steady_ret | apply steady_throw].
Qed.

(** The single path [get] returns is the path of a field. *)
Lemma get_key (p : NodePath) (f : string) (σ σ' : State) (q : NodePath) :
  get p f σ = Returns (One q) σ' -> key q = FieldKey f.
Proof.
  intros E. unfold get in E.
  destruct (heap σ !! node p) as [n|] eqn:HN.
  - rewrite (bind_returns _ _ _ _ _ (read_live _ _ _ HN)) in E.
    destruct (get_statement f (shape n)).
    + injection E as <- _. reflexivity.
    + destruct (get_list f (shape n)); discriminate E.
  - rewrite (bind_throws _ _ _ _ _ (read_dangling _ _ HN)) in E.
    discriminate E.
Qed.

Lemma steady_isBlockStatement (p : NodePath) : steady (isBlockStatement p).
Proof. intros σ. apply grown_refl. Qed.

Lemma steady_generateUidIdentifier (sc : Scope) (name : string) :
  steady (generateUidIdentifier sc name).
Proof.
  unfold generateUidIdentifier. apply steady_bind; [|intros; apply steady_new].
  intros σ. rewrite call_generateUid_returns. apply grown_extend. reflexivity.
Qed.

Lemma steady_generateInitialization (id : ref) :
  steady (generateInitialization id).
Proof.
  unfold generateInitialization.
  repeat (apply steady_bind; [apply steady_new | intros ?]). apply steady_new.
Qed.

Lemma steady_generateLoopGuard (id : ref) (line column timeout : Z)
  (onAutoBreak : ref) :
  steady (generateLoopGuard id line column timeout onAutoBreak).
Proof.
  unfold generateLoopGuard.
  repeat (apply steady_bind; [apply steady_new | intros ?]). apply steady_new.
Qed.

Lemma steady_breakAfter (timeout : Z) (onAutoBreak : ref) (p : NodePath) :
  steady (breakAfter timeout onAutoBreak p).
Proof.
  unfold breakAfter.
  apply steady_bind; [apply steady_read | intros n]. cbv zeta.
  apply steady_bind; [apply steady_generateUidIdentifier | intros id].
  apply steady_bind; [apply steady_generateInitialization | intros init].
  apply steady_bind; [apply steady_insertBefore | intros loop].
  apply (steady_bind_post _ _
           (fun g => match g with
                     | One q => key q = FieldKey "body"
                     | Many _ => True
                     end));
    [apply steady_get
    | intros σ [q|qs] σ' E; [eapply get_key; exact E | exact I]
    | intros [loopBody|ps] Hk].
  - apply steady_bind; [apply steady_generateLoopGuard | intros loopGuard].
    apply steady_bind; [apply steady_isBlockStatement | intros isBlock].
    destruct (negb isBlock).
    + apply steady_bind; [apply steady_new | intros block].
      eapply steady_replaceWith. exact Hk.
    + apply steady_unshiftContainer.
  - apply steady_bind; [apply steady_generateLoopGuard | intros loopGuard].
    apply steady_throw.
Qed.

Lemma steady_visit (timeout : Z) (cb : ref) (p : NodePath) :
  steady (visit (visitor (plugin_of timeout cb)) p).
Proof.
  unfold visit. apply steady_bind; [apply steady_read | intros n].
  destruct (shape n); try apply steady_ret; apply steady_breakAfter.
Qed.

Lemma steady_traverse (timeout : Z) (cb : ref) (paths : list NodePath) :
  steady (traverse (visitor (plugin_of timeout cb)) paths).
Proof.
  induction paths as [|p rest IH]; simpl; [apply steady_ret|].
  apply steady_bind; [apply steady_visit | intros _; exact IH].
Qed.

End Steady.

(** ** One visit of a loop, wherever it sits *)

Section Outcome.
Context `{Babel}.

(** A visited loop that is a single statement is its own place of
    insertion, in a field of its parent. *)
Lemma single_statement_place (h : Heap) p a nl nh nb b :
  visited_loop h p a nl nh nb b -> single_statement h p = true ->
  a = p
  /\ is_expression (shape nl) = false
  /\ h !! parent p = Some nh
  /\ delegates (shape nh) = false
  /\ exists f, key p = FieldKey f /\ statement_or_block_key f = true
               /\ get_statement f (shape nh) = Some (node p).
Proof.
  intros [HL Hb Hnb Hpl Hheld _] Hss. unfold single_statement in Hss.
  assert (a = p) as ->.
  { destruct Hpl as [p np HP Hd|p pp np a HP Hd _ _ _]; [reflexivity|].
    rewrite HP, Hd in Hss. destruct (key p); discriminate Hss. }
  destruct Hheld as (HP & _ & Hk). rewrite HP in Hss.
  split; [reflexivity|].
  split; [eapply get_field_expression; exact Hb|].
  split; [exact HP|].
  destruct (key p) as [lk i|f]; [discriminate Hss|].
  split; [destruct (delegates (shape nh)); [discriminate Hss|reflexivity]|].
  exists f. destruct Hk. auto.
Qed.

(** What one visit of a loop does, whether it returns or not.  The timer
    identifier, the initialisation and the guard are made, the guard with
    the position of the loop; the initialisation is inserted at the place
    [a]; the parser is not called; apart from the parent of that place,
    the loop and its body every node is as it was.  The visit of a loop
    that is a single statement of its parent then stops at line 48 with
    the loop and its body as they were; any other visit returns with the
    guard first in the body. *)
Lemma breakAfter_visited timeout cb p a σ nl nh nb b :
  visited_loop (heap σ) p a nl nh nb b ->
  exists σ' id init guard nh' news,
    final_state (breakAfter timeout cb p σ) = σ'
    /\ transformed σ' = transformed σ
    /\ heap σ !! id = None
    /\ heap σ' !! id = Some (built (Identifier (timer_name σ p)))
    /\ init_at (heap σ) (heap σ') init id
    /\ guard_at (heap σ) (heap σ') guard id cb
         (line_of nl) (column_of nl) timeout
    /\ heap σ' !! parent a = Some nh'
    /\ inserted_shape a nh init nh' news
    /\ Forall (fun rn => heap σ !! rn.1 = None
                         /\ heap σ' !! rn.1 = Some rn.2) news
    /\ (forall r n, heap σ !! r = Some n ->
          r <> parent a -> r <> node p -> r <> b -> heap σ' !! r = Some n)
    /\ if single_statement (heap σ) p
       then breakAfter timeout cb p σ = Throws not_a_function σ'
            /\ heap σ' !! node p = Some nl
            /\ heap σ' !! b = Some nb
       else breakAfter timeout cb p σ = Returns tt σ'
            /\ match shape nb with
               | BlockStatement body =>
                   heap σ' !! node p = Some nl
                   /\ heap σ' !! b
                      = Some {| loc := loc nb;
                                shape := BlockStatement (guard :: body) |}
               | _ =>
                   exists block,
                     heap σ !! block = None
                     /\ heap σ' !! block
                        = Some (built (BlockStatement [guard; b]))
                     /\ heap σ' !! node p
                        = Some {| loc := loc nl;
                                  shape := set_field block (shape nl) |}
                     /\ heap σ' !! b = Some nb
               end.
Proof.
  intros V. destruct (single_statement (heap σ) p) eqn:Hss.
  - destruct (single_statement_place _ _ _ _ _ _ _ V Hss)
      as (-> & He & HP & Hd & f & Hk & Hf & Hs).
    destruct V as [HL Hb Hnb _ _ (HPb & HLb & HPL)].
    destruct (breakAfter_wrapped timeout cb p σ nl nh f HL He Hk Hf HP Hd Hs)
      as (σ' & id & init & guard & block & E & W).
    destruct W as (_ & W2 & W3 & W4 & W5 & W6 & W7 & W8 & W9 & W10).
    exists σ', id, init, guard,
      {| loc := loc nh; shape := set_statement f block (shape nh) |},
      [(block, built (BlockStatement [init; node p]))].
    rewrite E. cbn [final_state].
    split_and!; try assumption; try reflexivity.
    + unfold inserted_shape. rewrite Hk. eexists. split; reflexivity.
    + apply Forall_cons_2; [|apply Forall_nil_2]. cbn [fst snd]. auto.
    + intros r n Hr N1 _ _. apply W10; assumption.
    + apply W10; [exact HL | congruence].
    + apply W10; [exact Hnb | congruence].
  - pose proof (breakAfter_returns timeout cb p a σ nl nh nb b V Hss) as R.
    destruct (proj1 (post_returns _ _) R)
      as ([] & σ' & E & id & init & guard & nh' & news & Rw & Hshape).
    destruct Rw as (_ & R2 & R3 & R4 & R5 & R6 & R7 & R8 & R9 & R10).
    exists σ', id, init, guard, nh', news.
    rewrite E. cbn [final_state].
    split_and!; try assumption; reflexivity.
Qed.

(** One visit asks the scope for one name. *)
Lemma breakAfter_visited_host timeout cb p a σ nl nh nb b :
  visited_loop (heap σ) p a nl nh nb b ->
  host (final_state (breakAfter timeout cb p σ))
  = snd (generateUid (scope p) "auto_break_start" (host σ)).
Proof.
  intros V. destruct (single_statement (heap σ) p) eqn:Hss.
  - destruct (single_statement_place _ _ _ _ _ _ _ V Hss)
      as (-> & He & HP & Hd & f & Hk & Hf & Hs).
    destruct V as [HL Hb Hnb _ _ _].
    destruct (breakAfter_wrapped timeout cb p σ nl nh f HL He Hk Hf HP Hd Hs)
      as (σ' & id & init & guard & block & E & W).
    rewrite E. destruct W as (W1 & _). exact W1.
  - pose proof (breakAfter_returns timeout cb p a σ nl nh nb b V Hss) as R.
    destruct (proj1 (post_returns _ _) R)
      as ([] & σ' & E & id & init & guard & nh' & news & Rw & Hshape).
    rewrite E. destruct Rw as (R1 & _). exact R1.
Qed.

(** The guard and the initialisation of a visit, read back. *)
Lemma guard_at_form (σ σ' : State) (p : NodePath) guard id cb line column
  timeout :
  guard_at (heap σ) (heap σ') guard id cb line column timeout ->
  heap σ !! id = None ->
  heap σ' !! id = Some (built (Identifier (timer_name σ p))) ->
  live (heap σ) cb ->
  read_back 6 [cb] (heap σ') guard
  = Some (guard_form (timer_name σ p) line column timeout cb).
Proof.
  intros G Fid Lid Hcb.
  eapply guard_read_back; [exact G | exact Hcb | | exact Lid | reflexivity].
  intros ->. destruct Hcb as [n Hn]. congruence.
Qed.

Lemma init_at_form (σ σ' : State) (p : NodePath) init id :
  init_at (heap σ) (heap σ') init id ->
  heap σ' !! id = Some (built (Identifier (timer_name σ p))) ->
  read_back 5 [] (heap σ') init = Some (init_form (timer_name σ p)).
Proof.
  intros I Lid. eapply init_read_back; [exact I | exact Lid | reflexivity].
Qed.

End Outcome.

(** The visited loops of the demonstration programs. *)
Ltac demo_visited :=
  constructor;
  [ vm_compute; reflexivity
  | reflexivity
  | vm_compute; reflexivity
  | repeat first
      [ eapply placed_here; [vm_compute; reflexivity | reflexivity]
      | eapply placed_up;
        [vm_compute; reflexivity | reflexivity | reflexivity | reflexivity |] ]
  | split; [vm_compute; reflexivity|];
    split; [eexists; split; [vm_compute; reflexivity | reflexivity]|];
    first [ eexists; split; reflexivity | split; reflexivity ]
  | split_and!; intro; discriminate ].

(* ===================================================================== *)
(** * The claims *)
(* ===================================================================== *)

(** ** The guard *)

(** C1. The statement [generateLoopGuard] builds reads back as
    [if ((Date.now() - timer) > timeout) { callback(line, column); break; }]:
    the comparison is [>], the timeout and the position are numeric
    literals, the callee is the callback node itself, and the exit is a
    [break] without a label.  Run at time [clock] with the timer holding
    [started], the guard calls the callback with the position and
    completes with that unlabelled break exactly when
    [clock - started > timeout]; when the elapsed time equals the timeout it
    makes no call and completes normally.  A loop whose body starts with
    the guard is ended by that break and completes normally itself, so
    the statements after it in an enclosing block (the body of an outer
    loop, say) still run. *)
Theorem generateLoopGuard_form `{Babel} (id : ref) (nid : Node) (x : string)
  (line column timeout : Z) (cb : ref) (σ : State) :
  heap σ !! id = Some nid -> shape nid = Identifier x ->
  live (heap σ) cb -> id <> cb ->
  exists guard σ',
    generateLoopGuard id line column timeout cb σ = Returns guard σ'
    /\ read_back 6 [cb] (heap σ') guard
       = Some (guard_form x line column timeout cb)
    /\ (forall clock started,
          exec clock {[ x := started ]} (guard_form x line column timeout cb)
          = Some (if Z.gtb (clock - started) timeout
                  then ([{| callee := Shared cb;
                            args := [VNumber line; VNumber column] |}],
                        Break None)
                  else ([], Normal)))
    /\ (forall clock started, clock - started = timeout ->
          exec clock {[ x := started ]} (guard_form x line column timeout cb)
          = Some ([], Normal))
    /\ (forall clock started test rest after,
          Z.gtb (clock - started) timeout = true ->
          truthy <$> eval clock {[ x := started ]} test = Some true ->
          let call := {| callee := Shared cb;
                         args := [VNumber line; VNumber column] |} in
          let inner :=
            T (WhileStatement test
                 (T (BlockStatement
                       (guard_form x line column timeout cb :: rest)))) in
          exec clock {[ x := started ]} inner = Some ([call], Normal)
          /\ exec clock {[ x := started ]} (T (BlockStatement (inner :: after)))
             = match exec clock {[ x := started ]} (T (BlockStatement after))
               with
               | Some (calls, k) => Some (call :: calls, k)
               | None => None
               end).
Proof.
  intros Hid Hx Hcb Hne.
  pose proof (generateLoopGuard_spec id line column timeout cb σ) as G.
  destruct (proj1 (post_returns _ _) G) as (guard & σ' & E & h' & -> & Hsub & G').
  exists guard, (with_heap σ h'). split; [exact E|]. split; [|split; [|split]].
  - eapply guard_read_back; [exact G' | exact Hcb | exact Hne | | exact Hx].
    eapply lookup_weaken; [exact Hid | exact Hsub].
  - intros clock started. apply guard_form_exec. apply lookup_singleton_eq.
  - intros clock started Hel.
    rewrite (guard_form_exec clock _ x started) by apply lookup_singleton_eq.
    rewrite Hel, Z.gtb_ltb, Z.ltb_irrefl. reflexivity.
  - intros clock started test rest after Hgt Htest call inner.
    assert (Hin : exec clock {[ x := started ]} inner = Some ([call], Normal)).
    { unfold inner.
      change (exec clock {[ x := started ]}
                (T (WhileStatement test
                      (T (BlockStatement
                            (guard_form x line column timeout cb :: rest))))))
        with (match truthy <$> eval clock {[ x := started ]} test with
              | Some true =>
                  end_of_loop
                    (exec clock {[ x := started ]}
                       (T (BlockStatement
                             (guard_form x line column timeout cb :: rest))))
              | Some false => Some ([], Normal)
              | None => None
              end).
      rewrite Htest.
      rewrite (guarded_body_exec clock _ x started)
        by (apply lookup_singleton_eq || exact Hgt).
      reflexivity. }
    split; [exact Hin|].
    change (exec clock {[ x := started ]} (T (BlockStatement (inner :: after))))
      with (match exec clock {[ x := started ]} inner with
            | Some (c1, Normal) =>
                match exec clock {[ x := started ]} (T (BlockStatement after))
                with
                | Some (c2, k) => Some (c1 ++ c2, k)
                | None => None
                end
            | other => other
            end).
    rewrite Hin. reflexivity.
Qed.

Lemma generateLoopGuard_form_witness :
  exists guard σ',
    generateLoopGuard 2%nat 5 2 2000 8%nat
      (Demo.initial (Demo.with_callback Demo.while_block))
    = Returns guard σ'
    /\ read_back 6 [8%nat] (heap σ') guard
       = Some (guard_form "x" 5 2 2000 8%nat)
    /\ (forall clock started,
          exec clock {[ "x" := started ]} (guard_form "x" 5 2 2000 8%nat)
          = Some (if Z.gtb (clock - started) 2000
                  then ([{| callee := Shared 8%nat;
                            args := [VNumber 5; VNumber 2] |}],
                        Break None)
                  else ([], Normal)))
    /\ (forall clock started, clock - started = 2000 ->
          exec clock {[ "x" := started ]} (guard_form "x" 5 2 2000 8%nat)
          = Some ([], Normal))
    /\ (forall clock started test rest after,
          Z.gtb (clock - started) 2000 = true ->
          truthy <$> eval clock {[ "x" := started ]} test = Some true ->
          let call := {| callee := Shared 8%nat;
                         args := [VNumber 5; VNumber 2] |} in
          let inner :=
            T (WhileStatement test
                 (T (BlockStatement
                       (guard_form "x" 5 2 2000 8%nat :: rest)))) in
          exec clock {[ "x" := started ]} inner = Some ([call], Normal)
          /\ exec clock {[ "x" := started ]}
               (T (BlockStatement (inner :: after)))
             = match exec clock {[ "x" := started ]}
                       (T (BlockStatement after))
               with
               | Some (calls, k) => Some (call :: calls, k)
               | None => None
               end).
Proof.
  apply (generateLoopGuard_form (H := Demo.babel) 2%nat
           (built (Identifier "x")) "x" 5 2 2000 8%nat).
  - vm_compute. reflexivity.
  - reflexivity.
  - vm_compute. eexists. reflexivity.
  - lia.
Defined.

(** ** The body of a visited loop *)

(** The loops of the two demonstration programs are loop sites. *)
Ltac demo_site :=
  constructor; [ vm_compute; reflexivity .. | split; intro; discriminate ].

Ltac run_breakAfter S Hcb E tid ini grd R :=
  match type of S with
  | loop_site (heap ?σ) ?p ?nl ?np ?nb ?b ?i ?stmts =>
      match goal with
      | |- context [breakAfter ?timeout ?cb p σ] =>
          destruct (proj1 (post_returns _ _)
                      (breakAfter_spec timeout cb p σ nl np nb b i stmts S Hcb))
            as ([] & ? & E & tid & ini & grd & R)
      end
  end.

(** C2.  A loop that is the one statement of a field of its parent (the
    branch of an [if], the body of [with], of a [for ... in] or of a
    [for ... of]) is visited like any other, and its body is not
    rewritten: the visit stops with [TypeError: loopBody.isBlockStatement
    is not a function] at line 48, and in the state it stops in the loop
    node and its body are exactly as they were, so the body has gained no
    guard.  (To insert the initialisation the host has put the loop in a
    new block, the path of the loop has become the path of that block, and
    [get('body')] of a block is an array of paths.) *)
Theorem breakAfter_single_statement `{Babel} (timeout : Z) (cb : ref)
  (p a : NodePath) (σ : State) (nl nh nb : Node) (b : ref) :
  visited_loop (heap σ) p a nl nh nb b ->
  single_statement (heap σ) p = true ->
  exists σ',
    visit (visitor (plugin_of timeout cb)) p σ = Throws not_a_function σ'
    /\ heap σ' !! node p = Some nl
    /\ heap σ' !! b = Some nb
    /\ first_of_body (heap σ') (node p) = first_of_body (heap σ) (node p).
Proof.
  intros V Hss.
  destruct (breakAfter_visited timeout cb p a σ nl nh nb b V)
    as (σ' & tid & ini & grd & nh' & news & _ & _ & _ & _ & _ & _ & _ & _ & _
        & _ & O).
  rewrite Hss in O. destruct O as (E & HL' & Hb').
  destruct V as [HL Hb Hnb _ _ _].
  exists σ'. split; [|split; [exact HL'|split; [exact Hb'|]]].
  - rewrite (visit_loop p σ nl timeout cb b HL Hb). exact E.
  - unfold first_of_body. rewrite HL', HL. simpl. rewrite Hb. simpl.
    rewrite Hb', Hnb. reflexivity.
Qed.

Lemma breakAfter_single_statement_witness :
  exists σ',
    visit (visitor (plugin_of 2000 8%nat)) Branch.loop Branch.before
    = Throws not_a_function σ'
    /\ heap σ' !! 3%nat
       = Some {| loc := Some Demo.at_5_2; shape := WhileStatement 4%nat 5%nat |}
    /\ heap σ' !! 5%nat = Some (built (ExpressionStatement 6%nat))
    /\ first_of_body (heap σ') 3%nat = first_of_body (heap Branch.before) 3%nat.
Proof.
  apply (breakAfter_single_statement (H := Demo.babel) 2000 8%nat
           Branch.loop Branch.loop Branch.before
           {| loc := Some Demo.at_5_2; shape := WhileStatement 4%nat 5%nat |}
           (built (IfStatement 2%nat 3%nat None))
           (built (ExpressionStatement 6%nat)) 5%nat).
  - demo_visited.
  - vm_compute. reflexivity.
Defined.

(** The same visit, run: the [if] holds a new block with the
    initialisation and the loop, and the body of the loop is still the
    call. *)
Example breakAfter_branch_run :
  breakAfter 2000 8%nat Branch.loop Branch.before
  = Throws not_a_function Branch.stopped
  /\ (n ← heap Branch.stopped !! 1%nat;
      c ← get_statement "consequent" (shape n);
      statements (heap Branch.stopped) c
      ≫= mapM (read_back 5 [] (heap Branch.stopped)))
     = Some [init_form "_auto_break_start";
             T (WhileStatement (T (Identifier "x"))
                  (T (ExpressionStatement
                        (T (CallExpression (T (Identifier "y")) [])))))].
Proof. split; vm_compute; reflexivity. Qed.

(** ** The timer initialisation *)

Lemma insert_before_lookup (l : list ref) (i : nat) (x y : ref) :
  l !! i = Some y ->
  (take i l ++ x :: drop i l) !! i = Some x
  /\ (take i l ++ x :: drop i l) !! S i = Some y
  /\ length (take i l ++ x :: drop i l) = S (length l).
Proof.
  intros Hy. pose proof (lookup_lt_Some _ _ _ Hy) as Hlt.
  assert (Hlen : length (take i l) = i) by (rewrite length_take; lia).
  split; [|split].
  - rewrite lookup_app_r by lia. rewrite Hlen, Nat.sub_diag. reflexivity.
  - rewrite lookup_app_r by lia. rewrite Hlen.
    replace (S i - i)%nat with 1%nat by lia. simpl.
    rewrite lookup_drop, Nat.add_0_r. exact Hy.
  - rewrite length_app. simpl. rewrite length_drop. lia.
Qed.

Lemma get_list_set_list_key (lk : string) (s : NodeShape ref) (l l' : list ref) :
  get_list lk s = Some l -> get_list lk (set_list l' s) = Some l'.
Proof.
  destruct s; simpl; try discriminate;
    (destruct (decide _); [reflexivity | discriminate]).
Qed.

Lemma get_statement_set_statement (f : string) (s : NodeShape ref) (b b' : ref) :
  get_statement f s = Some b -> get_statement f (set_statement f b' s) = Some b'.
Proof.
  destruct s; simpl; try discriminate.
  - destruct (String.eqb f "consequent") eqn:E1; simpl; [rewrite E1; reflexivity|].
    destruct (String.eqb f "alternate") eqn:E2; [|discriminate].
    simpl. rewrite E1, E2. reflexivity.
  - destruct (decide (f = "body")) as [->|]; [reflexivity | discriminate].
  - destruct (decide (f = "body")) as [->|]; [reflexivity | discriminate].
  - destruct (decide (f = "body")) as [->|]; [reflexivity | discriminate].
  - destruct (String.eqb f "body") eqn:E; simpl; [rewrite E; reflexivity | discriminate].
  - destruct (String.eqb f "body") eqn:E; simpl; [rewrite E; reflexivity | discriminate].
  - destruct (String.eqb f "body") eqn:E; simpl; [rewrite E; reflexivity | discriminate].
  - destruct (String.eqb f "body") eqn:E; simpl; [rewrite E; reflexivity | discriminate].
Qed.

(** A loop that is not under a label is its own place of insertion. *)
Lemma placed_unlabeled `{Babel} (h : Heap) (p a : NodePath) (np : Node) :
  placed h p a -> h !! parent p = Some np -> delegates (shape np) = false ->
  a = p.
Proof.
  intros [p0 np0 HP Hd|p0 pp np0 a0 HP Hd _ _ _] HP' Hd'; [reflexivity|].
  congruence.
Qed.

(** C3 (amended).  One visit makes exactly one initialisation statement,
    which reads back as [var <timer> = Date.now()], a single declaration
    with a single declarator, where [<timer>] is the name the scope minted,
    and inserts it before the place [a] of the loop: the loop itself, or
    the outermost of its labels when the loop is labeled.  When that place
    is at an index of a statement list, the list becomes the statements
    before the place, then the new statement, then the place and what
    followed it.  When that place is the single statement of a field of its
    parent, the field holds a new block, whose statements are the new
    statement and then the place.  This holds in the state the visit ends
    in, whether it returns or stops at line 48. *)
Theorem breakAfter_initialization `{Babel} (timeout : Z) (cb : ref)
  (p a : NodePath) (σ : State) (nl nh nb : Node) (b : ref) :
  visited_loop (heap σ) p a nl nh nb b ->
  let σ' := final_state (breakAfter timeout cb p σ) in
  (forall np, heap σ !! parent p = Some np -> delegates (shape np) = false ->
     a = p)
  /\ exists init nh',
       heap σ !! init = None
       /\ read_back 5 [] (heap σ') init = Some (init_form (timer_name σ p))
       /\ heap σ' !! parent a = Some nh'
       /\ loc nh' = loc nh
       /\ match key a with
          | ListKey lk i =>
              exists stmts,
                let stmts' := take i stmts ++ init :: drop i stmts in
                get_list lk (shape nh) = Some stmts
                /\ shape nh' = set_list stmts' (shape nh)
                /\ get_list lk (shape nh') = Some stmts'
                /\ stmts' !! i = Some init
                /\ stmts' !! S i = Some (node a)
                /\ length stmts' = S (length stmts)
          | FieldKey f =>
              exists block,
                heap σ !! block = None
                /\ heap σ' !! block
                   = Some (built (BlockStatement [init; node a]))
                /\ get_statement f (shape nh) = Some (node a)
                /\ shape nh' = set_statement f block (shape nh)
                /\ get_statement f (shape nh') = Some block
          end.
Proof.
  intros V σ'. split.
  { intros np HP Hd. destruct V as [_ _ _ Hpl _ _].
    eapply placed_unlabeled; eassumption. }
  destruct (breakAfter_visited timeout cb p a σ nl nh nb b V)
    as (σ1 & tid & ini & grd & nh' & news & E & _ & _ & Lid & I & _ & P
        & Hshape & Hnews & _).
  subst σ'. rewrite E. exists ini, nh'.
  split; [eapply init_at_new; exact I|].
  split; [eapply init_at_form; eassumption|].
  split; [exact P|].
  destruct V as [_ _ _ _ (_ & _ & Hk) _].
  unfold inserted_shape in Hshape.
  destruct (key a) as [lk i|f].
  - destruct Hshape as (l & Hl & _ & ->). destruct Hk as (l0 & Hl0 & Hi).
    rewrite Hl in Hl0. injection Hl0 as <-.
    split; [reflexivity|]. exists l. cbv zeta.
    split; [exact Hl|]. split; [reflexivity|].
    split; [eapply get_list_set_list_key; exact Hl|].
    apply insert_before_lookup. exact Hi.
  - destruct Hshape as (block & -> & ->). destruct Hk as (_ & Hs).
    apply Forall_cons in Hnews. destruct Hnews as ((Fb & Lb) & _).
    cbn [fst snd] in Fb, Lb.
    split; [reflexivity|]. exists block.
    split; [exact Fb|]. split; [exact Lb|]. split; [exact Hs|].
    split; [reflexivity|].
    eapply get_statement_set_statement; exact Hs.
Qed.

Lemma breakAfter_initialization_witness :
  let σ' := final_state
              (breakAfter 2000 8%nat Demo.top_level Demo.while_state) in
  (forall np, heap Demo.while_state !! 0%nat = Some np ->
     delegates (shape np) = false -> Demo.top_level = Demo.top_level)
  /\ exists init nh',
       heap Demo.while_state !! init = None
       /\ read_back 5 [] (heap σ') init
          = Some (init_form (timer_name Demo.while_state Demo.top_level))
       /\ heap σ' !! 0%nat = Some nh'
       /\ loc nh' = None
       /\ exists stmts,
            let stmts' := take 0 stmts ++ init :: drop 0 stmts in
            get_list "body" (Program [1%nat]) = Some stmts
            /\ shape nh' = set_list stmts' (Program [1%nat])
            /\ get_list "body" (shape nh') = Some stmts'
            /\ stmts' !! 0%nat = Some init
            /\ stmts' !! 1%nat = Some 1%nat
            /\ length stmts' = S (length stmts).
Proof.
  apply (breakAfter_initialization (H := Demo.babel) 2000 8%nat
           Demo.top_level Demo.top_level Demo.while_state
           {| loc := Some Demo.at_5_2; shape := WhileStatement 2%nat 3%nat |}
           (built (Program [1%nat])) (built (BlockStatement []))
           3%nat).
  demo_visited.
Defined.

(** The claim as it stands fails on a labeled loop, [outer: while (x) { }]:
    the visit returns, the one statement list that has changed is the
    program, which holds the new declaration and then the labeled
    statement, and the loop is still the body of its label: the
    declaration is not a sibling of the loop, which is in no statement
    list. *)
Lemma initialization_before_label :
  breakAfter 2000 8%nat Labeled.loop Labeled.before
  = Returns tt Labeled.visited
  /\ heap Labeled.before !! 16%nat = None
  /\ read_back 5 [] (heap Labeled.visited) 16%nat
     = Some (init_form "_auto_break_start")
  /\ statements (heap Labeled.before) 0%nat = Some [1%nat]
  /\ statements (heap Labeled.visited) 0%nat = Some [16%nat; 1%nat]
  /\ heap Labeled.visited !! 1%nat
     = Some (built (LabeledStatement 2%nat 3%nat))
  /\ first_of_body (heap Labeled.visited) 3%nat
     ≫= read_back 6 [8%nat] (heap Labeled.visited)
     = Some (guard_form "_auto_break_start" 5 2 2000 8%nat).
Proof. split_and!; vm_compute; reflexivity. Qed.

(** ** The position given to the callback *)

(** First in the body of the loop at [node p] goes [guard]. *)
Lemma first_of_body_rewritten `{Babel} (h' : Heap) (p : NodePath)
  (nl nb : Node) (b guard : ref) (h : Heap) :
  get_field "body" (shape nl) = Some b ->
  match shape nb with
  | BlockStatement body =>
      h' !! node p = Some nl
      /\ h' !! b
         = Some {| loc := loc nb; shape := BlockStatement (guard :: body) |}
  | _ =>
      exists block,
        h !! block = None
        /\ h' !! block = Some (built (BlockStatement [guard; b]))
        /\ h' !! node p
           = Some {| loc := loc nl; shape := set_field block (shape nl) |}
        /\ h' !! b = Some nb
  end ->
  first_of_body h' (node p) = Some guard.
Proof.
  intros Hb B. unfold first_of_body.
  destruct (is_BlockStatement (shape nb)) eqn:E.
  - destruct (shape nb); try discriminate E.
    destruct B as [B1 B2]. rewrite B1. simpl. rewrite Hb. simpl.
    rewrite B2. reflexivity.
  - assert (B' : exists block,
               h' !! block = Some (built (BlockStatement [guard; b]))
               /\ h' !! node p
                  = Some {| loc := loc nl;
                            shape := set_field block (shape nl) |}).
    { destruct (shape nb); try discriminate E;
        destruct B as (block & _ & ? & ? & _); eauto. }
    destruct B' as (block & B1 & B2). rewrite B2. simpl.
    rewrite (get_field_set_field _ _ _ Hb). simpl. rewrite B1.
    reflexivity.
Qed.



(** A loop without a position in a statement list: the visit returns and
    the guard carries line 0, column 0. *)
Example breakAfter_position_0_0 :
  match breakAfter 2000 8%nat Demo.top_level Demo.for_state with
  | Returns _ σ' =>
      g ← first_of_body (heap σ') 1%nat; read_back 6 [8%nat] (heap σ') g
  | Throws _ _ => None
  end = Some (guard_form "_auto_break_start" 0 0 2000 8%nat).
Proof. vm_compute. reflexivity. Qed.

(** A loop with a position: the guard carries line 5, column 2. *)
Example breakAfter_position_5_2 :
  match breakAfter 2000 8%nat Demo.top_level Demo.while_state with
  | Returns _ σ' =>
      g ← first_of_body (heap σ') 1%nat; read_back 6 [8%nat] (heap σ') g
  | Throws _ _ => None
  end = Some (guard_form "_auto_break_start" 5 2 2000 8%nat).
Proof. vm_compute. reflexivity. Qed.

(** ** What a visit leaves alone *)

(** The loop of a visit keeps its header. *)
Lemma loop_kept `{Babel} (h h' : Heap) (p : NodePath) (nl nb : Node)
  (b guard : ref) :
  match shape nb with
  | BlockStatement body =>
      h' !! node p = Some nl
      /\ h' !! b
         = Some {| loc := loc nb; shape := BlockStatement (guard :: body) |}
  | _ =>
      exists block,
        h !! block = None
        /\ h' !! block = Some (built (BlockStatement [guard; b]))
        /\ h' !! node p
           = Some {| loc := loc nl; shape := set_field block (shape nl) |}
        /\ h' !! b = Some nb
  end ->
  exists nl', h' !! node p = Some nl' /\ loc nl' = loc nl
              /\ loop_header (shape nl') = loop_header (shape nl).
Proof.
  intros B. destruct (is_BlockStatement (shape nb)) eqn:E.
  - destruct (shape nb); try discriminate E.
    destruct B as [B _]. exists nl. auto.
  - assert (B' : exists block, h' !! node p
                   = Some {| loc := loc nl;
                             shape := set_field block (shape nl) |}).
    { destruct (shape nb); try discriminate E;
        destruct B as (block & _ & _ & B & _); eauto. }
    destruct B' as (block & B'). eexists. split; [exact B'|].
    split; [reflexivity|]. apply loop_header_set_field.
Qed.

(** C10 (amended).  In the state a visit ends in, whether it returns or
    stops at line 48: the loop node is a loop of the same kind, at the same
    position, with the same initialisation, test and update references;
    the parent of the place [a] of the loop (the loop itself, or the
    outermost of its labels) has changed as the insertion of the
    initialisation makes it, which is a longer statement list when the
    place is in a list and a new block in the place of a single statement;
    and every other node that existed, apart from the loop's body, is
    exactly as it was (so the test and update expressions are
    untouched). *)
Theorem breakAfter_frame `{Babel} (timeout : Z) (cb : ref) (p a : NodePath)
  (σ : State) (nl nh nb : Node) (b : ref) :
  visited_loop (heap σ) p a nl nh nb b ->
  let σ' := final_state (breakAfter timeout cb p σ) in
  (exists nl', heap σ' !! node p = Some nl' /\ loc nl' = loc nl
               /\ loop_header (shape nl') = loop_header (shape nl))
  /\ (exists init nh' news,
        heap σ !! init = None
        /\ heap σ' !! parent a = Some nh'
        /\ inserted_shape a nh init nh' news
        /\ Forall (fun rn => heap σ !! rn.1 = None
                             /\ heap σ' !! rn.1 = Some rn.2) news)
  /\ (forall r n, heap σ !! r = Some n ->
        r <> parent a -> r <> node p -> r <> b -> heap σ' !! r = Some n).
Proof.
  intros V σ'.
  destruct (breakAfter_visited timeout cb p a σ nl nh nb b V)
    as (σ1 & tid & ini & grd & nh' & news & E & _ & _ & _ & I & _ & P
        & Hshape & Hnews & F & O).
  subst σ'. rewrite E. split; [|split; [|exact F]].
  - destruct (single_statement (heap σ) p).
    + destruct O as (_ & HL' & _). exists nl. auto.
    + destruct O as (_ & B). eapply loop_kept; exact B.
  - exists ini, nh', news. split; [eapply init_at_new; exact I|]. auto.
Qed.

Lemma breakAfter_frame_witness :
  let σ' := final_state
              (breakAfter 2000 8%nat Demo.top_level Demo.while_state) in
  (exists nl', heap σ' !! 1%nat = Some nl'
               /\ loc nl' = Some Demo.at_5_2
               /\ loop_header (shape nl')
                  = Some ("WhileStatement", [Some 2%nat]))
  /\ (exists init nh' news,
        heap Demo.while_state !! init = None
        /\ heap σ' !! 0%nat = Some nh'
        /\ inserted_shape Demo.top_level (built (Program [1%nat])) init nh'
             news
        /\ Forall (fun rn => heap Demo.while_state !! rn.1 = None
                             /\ heap σ' !! rn.1 = Some rn.2) news)
  /\ (forall r n, heap Demo.while_state !! r = Some n ->
        r <> 0%nat -> r <> 1%nat -> r <> 3%nat -> heap σ' !! r = Some n).
Proof.
  apply (breakAfter_frame (H := Demo.babel) 2000 8%nat Demo.top_level
           Demo.top_level Demo.while_state
           {| loc := Some Demo.at_5_2; shape := WhileStatement 2%nat 3%nat |}
           (built (Program [1%nat])) (built (BlockStatement []))
           3%nat).
  demo_visited.
Defined.

(** The claim as it stands fails on [if (a) outer: while (x) { }]: the
    visit returns, and it has changed the [if] statement, which is neither
    the loop nor its body and has gained no sibling.  The [consequent] of
    the [if] was the labeled loop 3 and is the new block 17, which holds
    the new declaration 16 and then the labeled loop; the program still has
    the [if] as its one statement. *)
Lemma branch_replaced_by_block :
  breakAfter 2000 8%nat LabeledBranch.loop LabeledBranch.before
  = Returns tt LabeledBranch.visited
  /\ heap LabeledBranch.before !! 1%nat
     = Some (built (IfStatement 2%nat 3%nat None))
  /\ heap LabeledBranch.visited !! 1%nat
     = Some (built (IfStatement 2%nat 17%nat None))
  /\ heap LabeledBranch.before !! 17%nat = None
  /\ heap LabeledBranch.visited !! 17%nat
     = Some (built (BlockStatement [16%nat; 3%nat]))
  /\ read_back 5 [] (heap LabeledBranch.visited) 16%nat
     = Some (init_form "_auto_break_start")
  /\ statements (heap LabeledBranch.visited) 0%nat = Some [1%nat]
  /\ heap LabeledBranch.visited !! 3%nat
     = Some (built (LabeledStatement 4%nat 5%nat)).
Proof. split_and!; vm_compute; reflexivity. Qed.

(** ** The source text of the callback *)

(** A message without backslash and line terminator is what the emitted
    arrow function reports. *)
Lemma message_round_trip (m : jsstring) :
  Forall (fun c => c <> BACKSLASH /\ c <> 10%N /\ c <> 13%N) m ->
  reported_message (onAutoBreakCode (Message m)) = Some m.
Proof.
  intros Hm. unfold reported_message, onAutoBreakCode.
  rewrite (app_assoc (lit "() => console.error(") [DQUOTE]).
  rewrite strip_prefix_app. cbn [mbind option_bind].
  change ([DQUOTE] ++ lit ")") with (DQUOTE :: lit ")").
  rewrite (string_literal_body_escape m (lit ")") Hm).
  destruct (decide (lit ")" = lit ")")); [reflexivity | contradiction].
Qed.

(** C5 (the code departs from the claim).  For the message made of a
    backslash and a double quote, the argument in the text handed to the
    parser is: quote, backslash, backslash, quote, quote.  The quote of the
    message is escaped but its backslash is not, so the string literal ends
    after the two backslashes with the value of one backslash, and what
    follows it is a stray quote that opens a literal which never ends,
    instead of the closing parenthesis.  The text is not an arrow function
    that reports the message. *)
Theorem message_backslash_not_escaped :
  onAutoBreakCode (Message Demo.backslash_quote)
  = lit "() => console.error("
      ++ [DQUOTE; BACKSLASH; BACKSLASH; DQUOTE; DQUOTE] ++ lit ")"
  /\ string_literal_body
       ([BACKSLASH; BACKSLASH; DQUOTE; DQUOTE] ++ lit ")")
     = Some ([BACKSLASH], [DQUOTE] ++ lit ")")
  /\ reported_message (onAutoBreakCode (Message Demo.backslash_quote)) = None.
Proof. repeat split; vm_compute; reflexivity. Qed.



Example anonymous_function_named :
  onAutoBreakCode (Callable {| toString := lit "function  (l, c) {}" |})
  = lit "function $onAutoBreak$(l, c) {}".
Proof. reflexivity. Qed.

Example arrow_function_unchanged :
  onAutoBreakCode (Callable {| toString := lit "(l, c) => {}" |})
  = lit "(l, c) => {}".
Proof. reflexivity. Qed.

(** ** The callback synthesizer *)

Section Synthesizer.
Context `{Babel}.

(** [transformOnBreak] in one step: the call of the parser, then the
    inspection of the first statement. *)
Lemma transformOnBreak_run (onBreak : OnBreak) (σ : State) :
  transformOnBreak onBreak σ
  = let code := onAutoBreakCode onBreak in
    let '(out, h1, s1) := transform code (heap σ) (host σ) in
    let σ1 := {| heap := h1; host := s1;
                 transformed := transformed σ ++ [code] |} in
    match out with
    | Raised e => Throws e σ1
    | Parsed result =>
        match first_statement result ≫= (fun r => shape <$> h1 !! r) with
        | Some (ExpressionStatement e) => Returns e σ1
        | Some (FunctionDeclaration id params body _ _) =>
            Returns (next h1)
              (with_heap σ1
                 (allocate h1 (FunctionExpression id params body false false)))
        | _ => Throws invalid_onBreak σ1
        end
    end.
Proof.
  unfold transformOnBreak, bind, call_transform. cbv zeta.
  destruct (transform (onAutoBreakCode onBreak) (heap σ) (host σ))
    as [[out h1] s1].
  destruct out as [result|e]; [|reflexivity].
  unfold get_heap. cbn [heap].
  destruct (first_statement result ≫= (fun r => shape <$> h1 !! r))
    as [[]|]; reflexivity.
Qed.

(** The two kind tests of the source, on the statement read from the
    store. *)
Lemma kind_tests (h : Heap) (o : option ref) :
  t.isExpressionStatement h o
  = match o ≫= (fun r => shape <$> h !! r) with
    | Some s => is_ExpressionStatement s
    | None => false
    end
  /\ t.isFunctionDeclaration h o
     = match o ≫= (fun r => shape <$> h !! r) with
       | Some s => is_FunctionDeclaration s
       | None => false
       end.
Proof.
  unfold t.isExpressionStatement, t.isFunctionDeclaration, t.isKind.
  destruct o as [r|]; simpl; [|auto].
  destruct (h !! r); simpl; auto.
Qed.

Lemma autoBreak_run (options : AutoBreakOptions) (σ : State) :
  autoBreak options σ
  = match transformOnBreak (default (Callable noop) (onBreak options)) σ with
    | Returns cb σ1 =>
        Returns {| visitor := {|
                     visit_ForStatement :=
                       breakAfter (default 2000 (timeout options)) cb;
                     visit_WhileStatement :=
                       breakAfter (default 2000 (timeout options)) cb;
                     visit_DoWhileStatement :=
                       breakAfter (default 2000 (timeout options)) cb |} |}
                σ1
    | Throws e σ1 => Throws e σ1
    end.
Proof. reflexivity. Qed.

End Synthesizer.

(** C6.  The text of a method whose braces start on a new line is a call
    followed by a block.  Its first statement is an expression statement
    that wraps a call, which is neither of the two shapes the claim lets
    through (it wraps no callable and it is no function declaration), and
    [transformOnBreak] does not throw: line 72 returns that call as the
    callback, after one call of the parser. *)
Lemma call_statement_accepted :
  wraps_callable (snd (Demo.parse_method ∅)) (Some 4%nat) = false
  /\ t.isFunctionDeclaration (snd (Demo.parse_method ∅)) (Some 4%nat) = false
  /\ transformOnBreak (Callable {| toString := Demo.method_text |})
       (Demo.initial ∅)
     = Returns 3%nat
         (Demo.state (snd (Demo.parse_method ∅)) O [Demo.method_text])
  /\ snd (Demo.parse_method ∅) !! 3%nat
     = Some (built (CallExpression 0%nat [1%nat; 2%nat])).
Proof. repeat split; vm_compute; reflexivity. Qed.

(** C8.  When the first statement of the parsed text is the declaration of
    a generator or of an asynchronous function, the function expression
    that [transformOnBreak] returns is neither: line 76 gives the builder
    the [id], the [params] and the [body] of the declaration and leaves
    [generator] and [async] to their default, which is [false].  The
    expression has the body of the declaration without the kind of function
    that body was written for. *)
Theorem transformOnBreak_drops_flags `{Babel} (onBreak : OnBreak) (σ : State)
  (result : option BabelFileResult) (h1 : Heap) (s1 : HostState)
  (statement : ref) (nd : Node) (id : option ref) (params : list ref)
  (body : ref) (generator async : bool) :
  transform (onAutoBreakCode onBreak) (heap σ) (host σ)
  = (Parsed result, h1, s1) ->
  first_statement result = Some statement ->
  h1 !! statement = Some nd ->
  shape nd = FunctionDeclaration id params body generator async ->
  (generator || async)%bool = true ->
  exists r σ' nr,
    transformOnBreak onBreak σ = Returns r σ'
    /\ heap σ' !! r = Some nr
    /\ function_body (shape nr) = function_body (shape nd)
    /\ function_flags (shape nr) = Some (false, false)
    /\ function_flags (shape nr) <> function_flags (shape nd).
Proof.
  intros Ht Hs Hn Hd Hf. rewrite transformOnBreak_run. cbv zeta. rewrite Ht, Hs.
  cbn [mbind option_bind]. rewrite Hn. cbn [fmap option_fmap option_map].
  rewrite Hd. eexists _, _, _. split; [reflexivity|].
  cbn [heap with_heap]. split; [apply allocate_lookup_new|].
  cbn [shape built function_body function_flags].
  split_and!; try reflexivity.
  intros E. injection E as <- <-. discriminate Hf.
Qed.

Lemma transformOnBreak_drops_flags_witness :
  exists r σ' nr,
    transformOnBreak (H := Flags.babel)
      (Callable {| toString := Flags.async_text |}) Flags.initial
    = Returns r σ'
    /\ heap σ' !! r = Some nr
    /\ function_body (shape nr) = Some 3%nat
    /\ function_flags (shape nr) = Some (false, false)
    /\ function_flags (shape nr) <> Some (false, true).
Proof.
  apply (transformOnBreak_drops_flags (H := Flags.babel)
           (Callable {| toString := Flags.async_text |}) Flags.initial
           (Some {| ast := Some {| program_body := [4%nat] |} |})
           (snd (Flags.parse_async ∅)) O 4%nat
           (built (FunctionDeclaration (Some 0%nat) [1%nat; 2%nat] 3%nat
                     false true))
           (Some 0%nat) [1%nat; 2%nat] 3%nat false true).
  - vm_compute. reflexivity.
  - reflexivity.
  - vm_compute. reflexivity.
  - reflexivity.
  - reflexivity.
Defined.

(** ** The callback in the guards *)

Section OnePass.
Context `{Babel}.

Lemma transformOnBreak_log (onBreak : OnBreak) (σ σ1 : State) (cb : ref) :
  transformOnBreak onBreak σ = Returns cb σ1 ->
  transformed σ1 = transformed σ ++ [onAutoBreakCode onBreak].
Proof.
  rewrite transformOnBreak_run. cbv zeta.
  destruct (transform _ (heap σ) (host σ)) as [[out h1] s1].
  destruct out as [result|e]; [|discriminate].
  destruct (first_statement result ≫= (fun r => shape <$> h1 !! r))
    as [[]|]; intros E; try discriminate E; injection E as _ <-;
    reflexivity.
Qed.

(** A computation that only grows the program leaves the parser's log
    and every node that holds no statement as they were. *)
Lemma grown_keeps (σ σ' : State) (r : ref) (n : Node) :
  grown σ σ' -> heap σ !! r = Some n -> is_container (shape n) = false ->
  transformed σ' = transformed σ /\ heap σ' !! r = Some n.
Proof.
  intros [Ht Hn] Hr Hc. split; [exact Ht|].
  destruct (Hn r n Hr) as (n' & Hr' & Hl & Hg).
  destruct (shape_grows_keeps _ _ Hg) as (_ & K & _).
  rewrite Hr'. f_equal. destruct n, n'. simpl in *.
  rewrite Hl, (K Hc). reflexivity.
Qed.

End OnePass.

(** C4.  The callback is not left as it was made when it holds a loop.
    The node [cb] is part of the program as soon as one guard is in place,
    and a loop in the body of the function at [cb] is visited like any
    other: the visit returns, the statement list that is the body of the
    callback has gained the declaration of a timer before the loop, and the
    body of that loop starts with a guard, which calls [cb] itself. *)
Theorem callback_loop_rewritten `{Babel} (timeout : Z) (cb : ref)
  (ncb : Node) (p : NodePath) (σ : State) (nl np nb : Node) (b : ref)
  (i : nat) (stmts : list ref) :
  heap σ !! cb = Some ncb ->
  function_body (shape ncb) = Some (parent p) ->
  loop_site (heap σ) p nl np nb b i stmts ->
  exists σ' init guard,
    visit (visitor (plugin_of timeout cb)) p σ = Returns tt σ'
    /\ heap σ' !! cb = Some ncb
    /\ statements (heap σ) (parent p) = Some stmts
    /\ heap σ !! init = None
    /\ statements (heap σ') (parent p)
       = Some (take i stmts ++ init :: drop i stmts)
    /\ first_of_body (heap σ') (node p) = Some guard
    /\ read_back 6 [cb] (heap σ') guard
       = Some (guard_form (timer_name σ p) (line_of nl) (column_of nl)
                 timeout cb).
Proof.
  intros Hcb Hbody S.
  assert (Hlive : live (heap σ) cb) by (eexists; exact Hcb).
  destruct (proj1 (post_returns _ _)
              (breakAfter_spec timeout cb p σ nl np nb b i stmts S Hlive))
    as ([] & σ' & E & tid & ini & grd & R).
  assert (V : visit (visitor (plugin_of timeout cb)) p σ = Returns tt σ').
  { destruct S as [HL Hb _ _ _ _ _ _].
    rewrite (visit_loop p σ nl timeout cb b HL Hb). exact E. }
  pose proof (steady_visit timeout cb p σ) as G. rewrite V in G.
  cbn [final_state] in G.
  assert (Hnc : is_container (shape ncb) = false)
    by (destruct (shape ncb); try discriminate Hbody; reflexivity).
  destruct (grown_keeps _ _ _ _ G Hcb Hnc) as [_ Hcb'].
  exists σ', ini, grd. split; [exact V|]. split; [exact Hcb'|].
  pose proof (rewritten_first_of_body _ _ _ _ _ _ _ _ _ _ _ _ _ _ R S) as FB.
  pose proof (rewritten_guard_form _ _ _ _ _ _ _ _ _ _ _ _ _ _ R Hlive) as GF.
  destruct R as (_ & _ & _ & _ & I & _ & P & _).
  destruct S as [_ _ _ _ HP Hlist _ _].
  split. { unfold statements. rewrite HP. exact Hlist. }
  split; [eapply init_at_new; exact I|].
  split. { unfold statements. rewrite P. simpl.
           eapply get_list_set_list; exact Hlist. }
  split; assumption.
Qed.

Lemma callback_loop_rewritten_witness :
  exists σ' init guard,
    visit (visitor (plugin_of 2000 8%nat)) Reentrant.inner
      Reentrant.program_visited
    = Returns tt σ'
    /\ heap σ' !! 8%nat
       = Some (built (FunctionExpression (Some 10%nat) [] 9%nat false false))
    /\ statements (heap Reentrant.program_visited) 9%nat = Some [11%nat]
    /\ heap Reentrant.program_visited !! init = None
    /\ statements (heap σ') 9%nat
       = Some (take 0 [11%nat] ++ init :: drop 0 [11%nat])
    /\ first_of_body (heap σ') 11%nat = Some guard
    /\ read_back 6 [8%nat] (heap σ') guard
       = Some (guard_form
                 (timer_name Reentrant.program_visited Reentrant.inner)
                 (line_of (built (WhileStatement 12%nat 13%nat)))
                 (column_of (built (WhileStatement 12%nat 13%nat)))
                 2000 8%nat).
Proof.
  apply (callback_loop_rewritten (H := Demo.babel) 2000 8%nat
           (built (FunctionExpression (Some 10%nat) [] 9%nat false false))
           Reentrant.inner Reentrant.program_visited
           (built (WhileStatement 12%nat 13%nat))
           (built (BlockStatement [11%nat])) (built (BlockStatement []))
           13%nat 0%nat [11%nat]).
  - vm_compute. reflexivity.
  - reflexivity.
  - demo_site.
Defined.

(** The callback of that program, read back before and after the visit of
    its loop: [function $onAutoBreak$() { while (busy) { } }] has become a
    function that times its own loop and calls itself from it. *)
Example callback_before_and_after :
  let σ' := final_state
              (visit (visitor (plugin_of 2000 8%nat)) Reentrant.inner
                 Reentrant.program_visited) in
  (b ← function_body (FunctionExpression (Some 10%nat) [] 9%nat false false);
   statements (heap Reentrant.program_visited) b
   ≫= mapM (read_back 4 [] (heap Reentrant.program_visited)))
  = Some [T (WhileStatement (T (Identifier "busy")) (T (BlockStatement [])))]
  /\ (b ← function_body (FunctionExpression (Some 10%nat) [] 9%nat false false);
      statements (heap σ') b ≫= mapM (read_back 8 [8%nat] (heap σ')))
     = Some [init_form "_auto_break_start2";
             T (WhileStatement (T (Identifier "busy"))
                  (T (BlockStatement
                        [guard_form "_auto_break_start2" 0 0 2000 8%nat])))].
Proof. split; vm_compute; reflexivity. Qed.

(* ===================================================================== *)
(** * Further properties of the code *)
(* ===================================================================== *)

(** ** The text of the callback, further *)

Section Literal.

Lemma string_literal_body_cons (c : code_unit) (s' : jsstring) :
  string_literal_body (c :: s')
  = if (c =? DQUOTE)%N then Some ([], s')
    else if (c =? BACKSLASH)%N then
      match s' with
      | d :: s'' =>
          if ((d =? DQUOTE) || (d =? BACKSLASH) || (d =? 39))%N then
            match string_literal_body s'' with
            | Some (v, rest) => Some (d :: v, rest)
            | None => None
            end
          else None
      | [] => None
      end
    else if ((c =? 10) || (c =? 13))%N then None
    else match string_literal_body s' with
         | Some (v, rest) => Some (c :: v, rest)
         | None => None
         end.
Proof. reflexivity. Qed.

(** The lexer consumes the closing quote at least. *)
Lemma string_literal_body_shorter (n : nat) :
  forall s v r, (length s <= n)%nat ->
    string_literal_body s = Some (v, r) -> (length r < length s)%nat.
Proof.
  induction n as [|n IH]; intros [|c s'] v r Hn E;
    try discriminate E; cbn [length] in *; try lia.
  rewrite string_literal_body_cons in E.
  destruct (c =? DQUOTE)%N.
  { injection E as _ <-. lia. }
  destruct (c =? BACKSLASH)%N.
  - destruct s' as [|d s'']; [discriminate|].
    destruct ((d =? DQUOTE) || (d =? BACKSLASH) || (d =? 39))%N;
      [|discriminate].
    destruct (string_literal_body s'') as [[v' r']|] eqn:E';
      [|discriminate].
    injection E as _ <-. cbn [length] in *.
    specialize (IH s'' v' r' ltac:(lia) E'). lia.
  - destruct ((c =? 10) || (c =? 13))%N; [discriminate|].
    destruct (string_literal_body s') as [[v' r']|] eqn:E'; [|discriminate].
    injection E as _ <-. specialize (IH s' v' r' ltac:(lia) E'). lia.
Qed.

Lemma escape_double_quotes_cons (c : code_unit) (m : jsstring) :
  escape_double_quotes (c :: m)
  = (if (c =? DQUOTE)%N then [BACKSLASH; DQUOTE] else [c])
      ++ escape_double_quotes m.
Proof. reflexivity. Qed.

(** The literal made from a message, when it ends at the quote that was
    meant to close it, has at most the length of the message, and it is
    the message only if the message is plain. *)
Lemma escaped_literal (n : nat) :
  forall m rest v rest', (length m <= n)%nat ->
    string_literal_body (escape_double_quotes m ++ DQUOTE :: rest)
    = Some (v, rest') ->
    length rest' = length rest ->
    (length v <= length m)%nat /\ (v = m -> Forall plain m).
Proof.
  induction n as [|n IH]; intros [|c m'] rest v rest' Hn E Hr;
    cbn [length] in Hn; try lia.
  - injection E as <- _. split; [lia | intros _; apply Forall_nil_2].
  - injection E as <- _. split; [lia | intros _; apply Forall_nil_2].
  - rewrite escape_double_quotes_cons in E.
    destruct (N.eqb_spec c DQUOTE) as [->|Hq].
    + (* a quote of the message: escaped, read back as the quote *)
      change (([BACKSLASH; DQUOTE] ++ escape_double_quotes m')
                ++ DQUOTE :: rest)
        with (BACKSLASH :: DQUOTE
                :: (escape_double_quotes m' ++ DQUOTE :: rest)) in E.
      rewrite string_literal_body_cons in E.
      change (BACKSLASH =? DQUOTE)%N with false in E.
      change (BACKSLASH =? BACKSLASH)%N with true in E.
      change ((DQUOTE =? DQUOTE) || (DQUOTE =? BACKSLASH) || (DQUOTE =? 39))%N
        with true in E. cbv iota in E.
      destruct (string_literal_body
                  (escape_double_quotes m' ++ DQUOTE :: rest))
        as [[v' r']|] eqn:E'; [|discriminate].
      injection E as <- <-.
      destruct (IH m' rest v' r' ltac:(lia) E' Hr) as [Hl Hp].
      cbn [length]. split; [lia|]. intros Ev. injection Ev as Ev.
      apply Forall_cons_2; [|auto]. repeat split; discriminate.
    + change (([c] ++ escape_double_quotes m') ++ DQUOTE :: rest)
        with (c :: (escape_double_quotes m' ++ DQUOTE :: rest)) in E.
      rewrite string_literal_body_cons in E.
      destruct (N.eqb_spec c DQUOTE) as [|_]; [contradiction|].
      destruct (N.eqb_spec c BACKSLASH) as [->|Hb].
      * (* a backslash of the message: it escapes what follows it *)
        destruct m' as [|d m''].
        { change (escape_double_quotes [] ++ DQUOTE :: rest)
            with (DQUOTE :: rest) in E. cbv beta iota in E.
          change ((DQUOTE =? DQUOTE) || (DQUOTE =? BACKSLASH)
                  || (DQUOTE =? 39))%N with true in E. cbv iota in E.
          destruct (string_literal_body rest) as [[v' r']|] eqn:E';
            [|discriminate].
          injection E as _ <-.
          pose proof (string_literal_body_shorter _ _ _ _ (le_n _) E').
          lia. }
        rewrite escape_double_quotes_cons in E.
        destruct (N.eqb_spec d DQUOTE) as [->|Hdq].
        { change (([BACKSLASH; DQUOTE] ++ escape_double_quotes m'')
                    ++ DQUOTE :: rest)
            with (BACKSLASH :: DQUOTE
                    :: (escape_double_quotes m'' ++ DQUOTE :: rest)) in E.
          cbv beta iota in E.
          change ((BACKSLASH =? DQUOTE) || (BACKSLASH =? BACKSLASH)
                  || (BACKSLASH =? 39))%N with true in E. cbv iota in E.
          rewrite string_literal_body_cons in E.
          change (DQUOTE =? DQUOTE)%N with true in E. cbv beta iota in E.
          injection E as _ <-. rewrite length_app in Hr. cbn [length] in Hr.
          lia. }
        change (([d] ++ escape_double_quotes m'') ++ DQUOTE :: rest)
          with (d :: (escape_double_quotes m'' ++ DQUOTE :: rest)) in E.
        cbv beta iota in E.
        destruct ((d =? DQUOTE) || (d =? BACKSLASH) || (d =? 39))%N;
          [|discriminate].
        destruct (string_literal_body
                    (escape_double_quotes m'' ++ DQUOTE :: rest))
          as [[v' r']|] eqn:E'; [|discriminate].
        injection E as <- <-. cbn [length] in *.
        destruct (IH m'' rest v' r' ltac:(lia) E' Hr) as [Hl _].
        split; [lia|]. intros Ev. apply (f_equal length) in Ev.
        cbn [length] in Ev. lia.
      * destruct ((c =? 10) || (c =? 13))%N eqn:Elt; [discriminate|].
        destruct (string_literal_body
                    (escape_double_quotes m' ++ DQUOTE :: rest))
          as [[v' r']|] eqn:E'; [|discriminate].
        injection E as <- <-.
        destruct (IH m' rest v' r' ltac:(lia) E' Hr) as [Hl Hp].
        cbn [length]. split; [lia|]. intros Ev. injection Ev as Ev.
        apply Forall_cons_2; [|auto].
        apply orb_false_elim in Elt as [E10 E13].
        apply N.eqb_neq in E10, E13. repeat split; assumption.
Qed.

End Literal.

(** X1.  The text made from a message reports that message exactly when the
    message is plain. *)
Theorem message_reported_iff (m : jsstring) :
  reported_message (onAutoBreakCode (Message m)) = Some m <-> Forall plain m.
Proof.
  split; [|apply message_round_trip].
  unfold reported_message, onAutoBreakCode.
  rewrite (app_assoc (lit "() => console.error(") [DQUOTE]).
  rewrite strip_prefix_app. cbn [mbind option_bind].
  change ([DQUOTE] ++ lit ")") with (DQUOTE :: lit ")").
  destruct (string_literal_body (escape_double_quotes m ++ DQUOTE :: lit ")"))
    as [[v r']|] eqn:E; cbn [mbind option_bind]; [|discriminate].
  intros Ev.
  destruct (decide (r' = lit ")")) as [->|]; [|discriminate Ev].
  injection Ev as ->.
  exact (proj2 (escaped_literal _ m _ _ _ (le_n _) E eq_refl) eq_refl).
Qed.

(** The rewritten head is not an anonymous head: after the keyword comes
    a space and the name. *)
Lemma named_head_kept (rest : jsstring) :
  name_anonymous_function (lit "function $onAutoBreak$(" ++ rest)
  = lit "function $onAutoBreak$(" ++ rest.
Proof. reflexivity. Qed.

Lemma name_anonymous_function_idempotent (s : jsstring) :
  name_anonymous_function (name_anonymous_function s)
  = name_anonymous_function s.
Proof.
  assert (C : name_anonymous_function s = s
              \/ exists rest, name_anonymous_function s
                              = lit "function $onAutoBreak$(" ++ rest).
  { unfold name_anonymous_function.
    destruct (strip_prefix (lit "function") s) as [tail|]; [|auto].
    destruct (skip_spaces tail) as [|c rest]; [auto|].
    destruct (c =? LPAREN)%N; eauto. }
  destruct C as [E | [rest E]]; rewrite E at 1.
  - reflexivity.
  - rewrite named_head_kept. symmetry. exact E.
Qed.

(** X2.  The text made from a callable is never the text of an anonymous
    function statement: it does not begin with [function], white space and
    an opening parenthesis, whatever the text of the callable was, and
    making the text again from it changes nothing. *)
Theorem callable_code_named (f : JsFunction) :
  onAutoBreakCode (Callable {| toString := onAutoBreakCode (Callable f) |})
  = onAutoBreakCode (Callable f)
  /\ forall ws rest, forallb is_regexp_space ws = true ->
       onAutoBreakCode (Callable f) <> lit "function" ++ ws ++ LPAREN :: rest.
Proof.
  split; [apply name_anonymous_function_idempotent|].
  intros ws rest Hws E.
  pose proof (name_anonymous_function_idempotent (toString f)) as I.
  unfold onAutoBreakCode in E. rewrite E in I.
  unfold name_anonymous_function in I at 1.
  rewrite strip_prefix_app in I.
  rewrite (skip_spaces_app ws rest LPAREN Hws) in I by reflexivity.
  rewrite N.eqb_refl in I.
  change (lit "function $onAutoBreak$(")
    with (lit "function" ++ lit " $onAutoBreak$(") in I.
  rewrite <- app_assoc in I. apply app_inv_head in I.
  destruct ws as [|w [|w' ws']].
  - discriminate I.
  - injection I as _ I. discriminate I.
  - injection I as <- <- _. discriminate Hws.
Qed.

(** ** The callback synthesizer, further *)

(** X3.  When the first statement of the parsed text is an expression
    statement, the synthesizer returns the expression that statement holds:
    the parser's own node, not a copy, whatever kind of expression it is.
    It builds nothing, so the store it returns in is the store the parser
    left, and the parser was called once. *)
Theorem transformOnBreak_expression `{Babel} (onBreak : OnBreak) (σ : State)
  (result : option BabelFileResult) (h1 : Heap) (s1 : HostState)
  (statement : ref) (nd : Node) (expression : ref) :
  transform (onAutoBreakCode onBreak) (heap σ) (host σ)
  = (Parsed result, h1, s1) ->
  first_statement result = Some statement ->
  h1 !! statement = Some nd ->
  shape nd = ExpressionStatement expression ->
  transformOnBreak onBreak σ
  = Returns expression
      {| heap := h1; host := s1;
         transformed := transformed σ ++ [onAutoBreakCode onBreak] |}.
Proof.
  intros Ht Hs Hn Hd. rewrite transformOnBreak_run. cbv zeta. rewrite Ht, Hs.
  cbn [mbind option_bind]. rewrite Hn. cbn [fmap option_fmap option_map].
  rewrite Hd. reflexivity.
Qed.

Lemma transformOnBreak_expression_witness :
  transformOnBreak (Message (lit "stuck")) (Demo.initial ∅)
  = Returns 5%nat
      {| heap := snd (Demo.parse_report (lit "stuck") ∅); host := O;
         transformed := transformed (Demo.initial ∅)
                        ++ [onAutoBreakCode (Message (lit "stuck"))] |}.
Proof.
  apply (transformOnBreak_expression (H := Demo.babel) (Message (lit "stuck"))
           (Demo.initial ∅)
           (Some {| ast := Some {| program_body := [6%nat] |} |})
           (snd (Demo.parse_report (lit "stuck") ∅)) O 6%nat
           (built (ExpressionStatement 5%nat)) 5%nat).
  - vm_compute. reflexivity.
  - reflexivity.
  - vm_compute. reflexivity.
  - reflexivity.
Defined.

(** ** The guard while the timer has not run out *)

Section InTime.

Lemma block_exec_cons clock env (s1 : Tree) (rest : list Tree) :
  exec clock env (T (BlockStatement (s1 :: rest)))
  = match exec clock env s1 with
    | Some (c1, Normal) =>
        match exec clock env (T (BlockStatement rest)) with
        | Some (c2, k) => Some (c1 ++ c2, k)
        | None => None
        end
    | other => other
    end.
Proof. reflexivity. Qed.

Lemma guard_form_in_time clock env x started line column timeout cb rest :
  env !! x = Some started -> clock - started <= timeout ->
  exec clock env
    (T (BlockStatement (guard_form x line column timeout cb :: rest)))
  = exec clock env (T (BlockStatement rest)).
Proof.
  intros Hx Hle. rewrite block_exec_cons.
  rewrite (guard_form_exec clock env x started) by exact Hx.
  replace (Z.gtb (clock - started) timeout) with false
    by (symmetry; rewrite Z.gtb_ltb; apply Z.ltb_ge; exact Hle).
  destruct (exec clock env (T (BlockStatement rest))) as [[c2 k]|];
    reflexivity.
Qed.

Lemma block_exec_single clock env (s : Tree) :
  exec clock env (T (BlockStatement [s])) = exec clock env s.
Proof.
  rewrite block_exec_cons.
  destruct (exec clock env s) as [[c1 [|l]]|]; try reflexivity.
  change (exec clock env (T (BlockStatement []))) with (Some ([] : list Call, Normal)).
  cbv beta iota. rewrite app_nil_r. reflexivity.
Qed.

End InTime.

(** X4.  While no more than [timeout] has elapsed since the timer was
    set, the guard that [generateLoopGuard] builds changes nothing of what
    a body does: a block that starts with the guard runs as the block
    without it, and the block of the guard and one statement, which takes
    the place of a body that was not a block, runs as that statement. *)
Theorem generateLoopGuard_in_time `{Babel} (id : ref) (nid : Node) (x : string)
  (line column timeout : Z) (cb : ref) (σ : State) :
  heap σ !! id = Some nid -> shape nid = Identifier x ->
  live (heap σ) cb -> id <> cb ->
  exists guard σ' g,
    generateLoopGuard id line column timeout cb σ = Returns guard σ'
    /\ read_back 6 [cb] (heap σ') guard = Some g
    /\ forall clock env started, env !! x = Some started ->
         clock - started <= timeout ->
         (forall rest,
             exec clock env (T (BlockStatement (g :: rest)))
             = exec clock env (T (BlockStatement rest)))
         /\ (forall s,
                exec clock env (T (BlockStatement [g; s])) = exec clock env s).
Proof.
  intros Hid Hx Hcb Hne.
  pose proof (generateLoopGuard_spec id line column timeout cb σ) as G.
  destruct (proj1 (post_returns _ _) G) as (guard & σ' & E & h' & -> & Hsub & G').
  exists guard, (with_heap σ h'), (guard_form x line column timeout cb).
  split; [exact E|]. split.
  - eapply guard_read_back; [exact G' | exact Hcb | exact Hne | | exact Hx].
    eapply lookup_weaken; [exact Hid | exact Hsub].
  - intros clock env started Hs Hle. split.
    + intros rest. eapply guard_form_in_time; eassumption.
    + intros s. erewrite guard_form_in_time by eassumption.
      apply block_exec_single.
Qed.

Lemma generateLoopGuard_in_time_witness :
  exists guard σ' g,
    generateLoopGuard 2%nat 5 2 2000 8%nat Demo.while_state = Returns guard σ'
    /\ read_back 6 [8%nat] (heap σ') guard = Some g
    /\ forall clock env started, env !! "x" = Some started ->
         clock - started <= 2000 ->
         (forall rest,
             exec clock env (T (BlockStatement (g :: rest)))
             = exec clock env (T (BlockStatement rest)))
         /\ (forall s,
                exec clock env (T (BlockStatement [g; s])) = exec clock env s).
Proof.
  apply (generateLoopGuard_in_time (H := Demo.babel) 2%nat
           (built (Identifier "x")) "x" 5 2 2000 8%nat Demo.while_state).
  - vm_compute. reflexivity.
  - reflexivity.
  - vm_compute. eexists. reflexivity.
  - lia.
Defined.

(** X5.  On every run of a traversal that the embedding follows to its
    end, that is one that returns or stops at an exception JavaScript
    throws (a run that reaches a part of the host this file does not follow
    is left out), whatever paths the engine visits and in whatever order,
    the plugin only adds to the program.  The parser is not called.  Every
    node there was is still there, at the same source position, and is a
    loop of the same kind with the same initialisation, test and update if
    it was one.  A node that holds no statement, in a list or in a field,
    is exactly as it was.  A statement list still has the statements it
    had, in the order they had: none is removed and no two are swapped. *)
Theorem traverse_only_adds `{Babel} (timeout : Z) (cb : ref)
  (paths : list NodePath) (σ : State) :
  followed (traverse (visitor (plugin_of timeout cb)) paths σ) ->
  let σ' := final_state (traverse (visitor (plugin_of timeout cb)) paths σ) in
  transformed σ' = transformed σ
  /\ forall r n, heap σ !! r = Some n ->
       exists n',
         heap σ' !! r = Some n' /\ loc n' = loc n
         /\ loop_header (shape n') = loop_header (shape n)
         /\ (is_container (shape n) = false -> n' = n)
         /\ (forall lk l, get_list lk (shape n) = Some l ->
               exists l', get_list lk (shape n') = Some l' /\ sublist l l').
Proof.
  intros _ σ'. destruct (steady_traverse timeout cb paths σ) as [Ht Hn].
  fold σ' in Ht, Hn. split; [exact Ht|]. intros r n Hr.
  destruct (Hn r n Hr) as (n' & Hr' & Hl & Hg). exists n'.
  destruct (shape_grows_keeps _ _ Hg) as (K1 & K2 & K3).
  split_and!; try assumption.
  intros Hc. destruct n as [l s], n' as [l' s']. simpl in *.
  rewrite Hl, (K2 Hc). reflexivity.
Qed.

Lemma traverse_only_adds_witness :
  let σ' := final_state
              (traverse (visitor (plugin_of 2000 8%nat))
                 [Branch.loop; Branch.branch] Branch.before) in
  transformed σ' = transformed Branch.before
  /\ forall r n, heap Branch.before !! r = Some n ->
       exists n',
         heap σ' !! r = Some n' /\ loc n' = loc n
         /\ loop_header (shape n') = loop_header (shape n)
         /\ (is_container (shape n) = false -> n' = n)
         /\ (forall lk l, get_list lk (shape n) = Some l ->
               exists l', get_list lk (shape n') = Some l' /\ sublist l l').
Proof.
  apply (traverse_only_adds (H := Demo.babel) 2000 8%nat
           [Branch.loop; Branch.branch] Branch.before).
  vm_compute. exact I.
Defined.

(** ** One visit, further: the timer, a second visit, a nested loop *)

Section Visits.
Context `{Babel}.

Lemma init_at_declared base (h : Heap) init id :
  init_at base h init id -> declared_id h init = Some id.
Proof.
  intros (date & now & member & call & declarator & _ & _ & _ & _ & _
          & Hd & Hi).
  unfold declared_id. rewrite Hi. simpl. rewrite Hd. reflexivity.
Qed.

Lemma guard_at_subtracted base (h : Heap) guard id cb line column timeout :
  guard_at base h guard id cb line column timeout ->
  subtracted_id h guard = Some id.
Proof.
  intros (date & now & member & call & elapsed & limit & test & l & c
          & notify & statement & exit & consequent & _ & _ & _ & _ & _
          & He & _ & Ht & _ & _ & _ & _ & _ & _ & Hg).
  unfold subtracted_id. rewrite Hg. simpl. rewrite Ht. simpl. rewrite He.
  reflexivity.
Qed.

Lemma guard_at_live base (h : Heap) guard id cb line column timeout :
  guard_at base h guard id cb line column timeout -> live h guard.
Proof.
  intros (date & now & member & call & elapsed & limit & test & l & c
          & notify & statement & exit & consequent & _ & _ & _ & _ & _
          & _ & _ & _ & _ & _ & _ & _ & _ & _ & Hg).
  eexists. exact Hg.
Qed.

Lemma init_at_live base (h : Heap) init id :
  init_at base h init id -> live h init.
Proof.
  intros (date & now & member & call & declarator & _ & _ & _ & _ & _
          & _ & Hi).
  eexists. exact Hi.
Qed.

Lemma insert_before_lookup_after (l : list ref) (i j : nat) (x : ref) :
  (i <= length l)%nat -> (i <= j)%nat ->
  (take i l ++ x :: drop i l) !! S j = l !! j.
Proof.
  intros Hi Hj.
  assert (Hlen : length (take i l) = i) by (rewrite length_take; lia).
  rewrite lookup_app_r by lia. rewrite Hlen.
  replace (S j - i)%nat with (S (j - i)) by lia. simpl.
  rewrite lookup_drop. f_equal. lia.
Qed.

Lemma first_of_body_frame (h h' : Heap) (r b : ref) (nl nb : Node) :
  h !! r = Some nl -> get_field "body" (shape nl) = Some b ->
  h !! b = Some nb -> h' !! r = Some nl -> h' !! b = Some nb ->
  first_of_body h' r = first_of_body h r.
Proof.
  intros Hr Hb Hnb Hr' Hnb'. unfold first_of_body.
  rewrite Hr, Hr'. cbn [mbind option_bind]. rewrite Hb.
  cbn [mbind option_bind]. rewrite Hnb, Hnb'. reflexivity.
Qed.

Lemma take_drop_after_insert (l : list ref) (i : nat) (x y : ref) :
  (i <= length l)%nat ->
  take (S i) (take i l ++ x :: drop i l) ++ y :: drop (S i) (take i l ++ x :: drop i l)
  = take i l ++ x :: y :: drop i l.
Proof.
  intros Hi.
  assert (Hlen : length (take i l) = i) by (rewrite length_take; lia).
  rewrite take_app_ge, drop_app_ge by lia. rewrite Hlen.
  replace (S i - i)%nat with 1%nat by lia. simpl. rewrite take_0, drop_0.
  rewrite <- app_assoc. reflexivity.
Qed.

Section Revisit.
Variables (timeout : Z) (cb : ref) (p : NodePath) (nl np nb : Node)
  (b : ref) (i : nat) (stmts : list ref) (σ σ' : State)
  (id init guard : ref).
Hypothesis Hrew : rewritten timeout cb p nl np nb b i stmts σ σ' id init guard.
Hypothesis Hsite : loop_site (heap σ) p nl np nb b i stmts.

(** No node is lost in a visit. *)
Lemma rewritten_live (r : ref) : live (heap σ) r -> live (heap σ') r.
Proof.
  intros [n Hn]. destruct Hsite as [HL Hb Hnb _ HP _ _ _].
  destruct Hrew as (_ & _ & _ & _ & _ & _ & P & B & F).
  destruct (decide (r = parent p)) as [->|HrP]; [eexists; exact P|].
  assert (B' : live (heap σ') (node p) /\ live (heap σ') b).
  { destruct (shape nb);
      try (destruct B as (block & _ & _ & B1 & B2); split; eexists;
           [exact B1 | exact B2]).
    destruct B as [B1 B2]. split; eexists; [exact B1 | exact B2]. }
  destruct B' as [BL Bb].
  destruct (decide (r = node p)) as [->|HrL]; [exact BL|].
  destruct (decide (r = b)) as [->|Hrb]; [exact Bb|].
  eexists. eapply F; eassumption.
Qed.

Lemma rewritten_statements :
  statements (heap σ') (parent p)
  = Some (take i stmts ++ init :: drop i stmts).
Proof.
  destruct Hsite as [_ _ _ _ _ Hl _ _].
  destruct Hrew as (_ & _ & _ & _ & _ & _ & P & _).
  unfold statements. rewrite P. simpl.
  eapply get_list_set_list. exact Hl.
Qed.

(** After the visit the loop is again a loop that can be visited: it
    sits one index further in the list, and its body is a block that
    starts with the guard. *)
Lemma rewritten_site :
  exists nl' nb' b' tl,
    loop_site (heap σ') (after_insertion p) nl'
      {| loc := loc np;
         shape := set_list (take i stmts ++ init :: drop i stmts)
                           (shape np) |}
      nb' b' (S i) (take i stmts ++ init :: drop i stmts)
    /\ shape nb' = BlockStatement (guard :: tl)
    /\ (b' = b \/ heap σ !! b' = None).
Proof.
  pose proof (loop_site_parent_ne _ _ _ _ _ _ _ _ Hsite) as HPL.
  destruct Hsite as [HL Hb Hnb Hkey HP Hlist Hidx [HPb HLb]].
  destruct Hrew as (_ & _ & _ & _ & _ & _ & P & B & _).
  destruct (insert_before_lookup stmts i init (node p) Hidx)
    as (_ & Hidx' & _).
  assert (Hkey' : key (after_insertion p) = ListKey "body" (S i))
    by (unfold after_insertion; cbn [key]; rewrite Hkey; reflexivity).
  destruct (is_BlockStatement (shape nb)) eqn:E.
  - destruct (shape nb) as [| | | | | | | | | | | |body| | | | | | | | | | | | |];
      try discriminate E.
    destruct B as [B1 B2].
    exists nl, {| loc := loc nb; shape := BlockStatement (guard :: body) |},
      b, body.
    split; [|split; [reflexivity | left; reflexivity]].
    constructor; cbn [after_insertion parent node]; try assumption.
    + eapply get_list_set_list. exact Hlist.
    + split; assumption.
  - assert (B' : exists block,
               heap σ !! block = None
               /\ heap σ' !! block = Some (built (BlockStatement [guard; b]))
               /\ heap σ' !! node p
                  = Some {| loc := loc nl;
                            shape := set_field block (shape nl) |}).
    { destruct (shape nb); try discriminate E;
        destruct B as (block & ? & ? & ? & _); eauto. }
    destruct B' as (block & F & B1 & B2).
    exists {| loc := loc nl; shape := set_field block (shape nl) |},
      (built (BlockStatement [guard; b])), block, [b].
    split; [|split; [reflexivity | right; exact F]].
    constructor; cbn [after_insertion parent node shape]; try assumption.
    + eapply get_field_set_field. exact Hb.
    + eapply get_list_set_list. exact Hlist.
    + split; intros <-; congruence.
Qed.

End Revisit.

End Visits.

(** X6.  In one visit of a loop, wherever the loop sits and whether the
    visit returns or stops at line 48, the plugin asks the scope of the
    loop for one name, with the hint [auto_break_start], and makes one
    identifier node of it.  That one node is both the variable the
    initialisation declares and the operand the test of the guard
    subtracts: the two new statements share it.  The initialisation is the
    statement inserted at the place of the loop, and when the visit returns
    the guard is the first statement of the body. *)
Theorem breakAfter_timer `{Babel} (timeout : Z) (cb : ref) (p a : NodePath)
  (σ : State) (nl nh nb : Node) (b : ref) :
  visited_loop (heap σ) p a nl nh nb b ->
  let σ' := final_state (breakAfter timeout cb p σ) in
  exists id init guard nh' news,
    host σ' = snd (generateUid (scope p) "auto_break_start" (host σ))
    /\ heap σ !! id = None
    /\ heap σ' !! id = Some (built (Identifier (timer_name σ p)))
    /\ heap σ !! init = None
    /\ declared_id (heap σ') init = Some id
    /\ heap σ' !! parent a = Some nh'
    /\ inserted_shape a nh init nh' news
    /\ heap σ !! guard = None
    /\ subtracted_id (heap σ') guard = Some id
    /\ (single_statement (heap σ) p = false ->
        first_of_body (heap σ') (node p) = Some guard).
Proof.
  intros V σ'.
  pose proof (breakAfter_visited_host timeout cb p a σ nl nh nb b V) as Hh.
  fold σ' in Hh.
  destruct (breakAfter_visited timeout cb p a σ nl nh nb b V)
    as (σ1 & tid & ini & grd & nh' & news & E & _ & Fid & Lid & I & G & P
        & Hshape & _ & _ & O).
  fold σ' in E. subst σ1.
  exists tid, ini, grd, nh', news.
  split_and!; try assumption.
  - eapply init_at_new; exact I.
  - eapply init_at_declared; exact I.
  - eapply guard_at_new; exact G.
  - eapply guard_at_subtracted; exact G.
  - intros Hss. rewrite Hss in O. destruct O as (_ & B).
    destruct V as [_ Hb _ _ _ _].
    eapply first_of_body_rewritten; eassumption.
Qed.

Lemma breakAfter_timer_witness :
  let σ' := final_state
              (breakAfter 2000 8%nat Labeled.loop Labeled.before) in
  exists id init guard nh' news,
    host σ' = snd (@generateUid Demo.babel tt "auto_break_start" O)
    /\ heap Labeled.before !! id = None
    /\ heap σ' !! id
       = Some (built (Identifier (timer_name Labeled.before Labeled.loop)))
    /\ heap Labeled.before !! init = None
    /\ declared_id (heap σ') init = Some id
    /\ heap σ' !! 0%nat = Some nh'
    /\ inserted_shape Labeled.label (built (Program [1%nat])) init nh' news
    /\ heap Labeled.before !! guard = None
    /\ subtracted_id (heap σ') guard = Some id
    /\ (single_statement (heap Labeled.before) Labeled.loop = false ->
        first_of_body (heap σ') 3%nat = Some guard).
Proof.
  apply (breakAfter_timer (H := Demo.babel) 2000 8%nat Labeled.loop
           Labeled.label Labeled.before
           {| loc := Some Demo.at_5_2; shape := WhileStatement 4%nat 5%nat |}
           (built (Program [1%nat])) (built (BlockStatement [])) 5%nat).
  demo_visited.
Defined.

(** X7.  The plugin does not recognise a loop it has already rewritten.
    A second visit of the same loop, by then one index further in its
    list, returns as the first did and adds a second timer and a second
    guard: the list holds the first initialisation, the second and then
    the loop, and the body starts with the second guard followed by the
    first.  The two guards are two nodes and so are the two
    initialisations. *)
Theorem breakAfter_twice `{Babel} (timeout : Z) (cb : ref) (p : NodePath)
  (σ : State) (nl np nb : Node) (b : ref) (i : nat) (stmts : list ref) :
  loop_site (heap σ) p nl np nb b i stmts -> live (heap σ) cb ->
  exists σ1 σ2 init1 init2 guard1 guard2 rest,
    breakAfter timeout cb p σ = Returns tt σ1
    /\ breakAfter timeout cb (after_insertion p) σ1 = Returns tt σ2
    /\ first_of_body (heap σ1) (node p) = Some guard1
    /\ body_statements (heap σ2) (node p) = Some (guard2 :: guard1 :: rest)
    /\ statements (heap σ2) (parent p)
       = Some (take i stmts ++ init1 :: init2 :: drop i stmts)
    /\ guard1 <> guard2 /\ init1 <> init2.
Proof.
  intros S Hcb.
  destruct (proj1 (post_returns _ _)
              (breakAfter_spec timeout cb p σ nl np nb b i stmts S Hcb))
    as ([] & σ1 & E1 & tid1 & ini1 & grd1 & R1).
  destruct (rewritten_site _ _ _ _ _ _ _ _ _ _ _ _ _ _ R1 S)
    as (nl' & nb' & b' & tl & S' & Hnb' & _).
  pose proof (rewritten_live _ _ _ _ _ _ _ _ _ _ _ _ _ _ R1 S cb Hcb) as Hcb'.
  destruct (proj1 (post_returns _ _)
              (breakAfter_spec timeout cb (after_insertion p) σ1 _ _ _ _ _ _
                 S' Hcb'))
    as ([] & σ2 & E2 & tid2 & ini2 & grd2 & R2).
  eexists _, _, ini1, ini2, grd1, grd2, tl.
  split; [exact E1|]. split; [exact E2|].
  split; [eapply rewritten_first_of_body; eassumption|].
  pose proof (rewritten_statements _ _ _ _ _ _ _ _ _ _ _ _ _ _ R2 S') as Hst.
  assert (Hi : (i <= length stmts)%nat).
  { destruct S as [_ _ _ _ _ _ Hidx _].
    apply lookup_lt_Some in Hidx. lia. }
  rewrite (take_drop_after_insert stmts i ini1 ini2 Hi) in Hst.
  destruct R1 as (_ & _ & _ & _ & I1 & G1 & _).
  destruct S' as [HL' Hb' _ _ _ _ _ _].
  destruct R2 as (_ & _ & _ & _ & I2 & G2 & _ & B2 & _).
  rewrite Hnb' in B2. destruct B2 as [B21 B22].
  split_and!.
  - unfold body_statements, statements. cbn [after_insertion node] in *.
    rewrite B21. cbn [mbind option_bind]. rewrite Hb'.
    cbn [mbind option_bind]. rewrite B22. reflexivity.
  - exact Hst.
  - eapply live_not_fresh; [eapply guard_at_live; exact G1|].
    eapply guard_at_new; exact G2.
  - eapply live_not_fresh; [eapply init_at_live; exact I1|].
    eapply init_at_new; exact I2.
Qed.

Lemma breakAfter_twice_witness :
  exists σ1 σ2 init1 init2 guard1 guard2 rest,
    breakAfter 2000 8%nat Demo.top_level Demo.while_state = Returns tt σ1
    /\ breakAfter 2000 8%nat (after_insertion Demo.top_level) σ1
       = Returns tt σ2
    /\ first_of_body (heap σ1) 1%nat = Some guard1
    /\ body_statements (heap σ2) 1%nat = Some (guard2 :: guard1 :: rest)
    /\ statements (heap σ2) 0%nat = Some ([] ++ init1 :: init2 :: [1%nat])
    /\ guard1 <> guard2 /\ init1 <> init2.
Proof.
  apply (breakAfter_twice (H := Demo.babel) 2000 8%nat Demo.top_level
           Demo.while_state
           {| loc := Some Demo.at_5_2; shape := WhileStatement 2%nat 3%nat |}
           (built (Program [1%nat])) (built (BlockStatement []))
           3%nat 0%nat [1%nat]).
  - demo_site.
  - vm_compute. eexists. reflexivity.
Defined.

(** X8.  The visit of a loop that sits in the body of another loop, after
    the first statement of that body, leaves the first statement of the
    outer body where it is: a guard the outer loop has been given stays the
    first statement of the outer body when the inner loop gets its timer
    and its guard. *)
Theorem breakAfter_inner_keeps_outer_guard `{Babel} (timeout : Z) (cb : ref)
  (p : NodePath) (σ : State) (nl np nb : Node) (b : ref) (i : nat)
  (stmts : list ref) (outer : ref) (no : Node) (g : ref) :
  loop_site (heap σ) p nl np nb b i stmts -> live (heap σ) cb ->
  heap σ !! outer = Some no ->
  get_field "body" (shape no) = Some (parent p) ->
  first_of_body (heap σ) outer = Some g ->
  (0 < i)%nat -> outer <> node p -> outer <> b ->
  exists σ' inner_guard,
    breakAfter timeout cb p σ = Returns tt σ'
    /\ first_of_body (heap σ') outer = Some g
    /\ first_of_body (heap σ') (node p) = Some inner_guard.
Proof.
  intros S Hcb Ho Hob Hg Hi HoL Hon.
  run_breakAfter S Hcb E tid ini grd R.
  eexists _, grd. split; [exact E|].
  pose proof (rewritten_first_of_body _ _ _ _ _ _ _ _ _ _ _ _ _ _ R S) as Hfb.
  destruct S as [HL Hb Hnb Hkey HP Hlist Hidx [HPb HLb]].
  unfold first_of_body in Hg. rewrite Ho in Hg. cbn [mbind option_bind] in Hg.
  rewrite Hob in Hg. cbn [mbind option_bind] in Hg. rewrite HP in Hg.
  cbn [mbind option_bind] in Hg.
  destruct (shape np) as [| | | | | | | | | | | |body| | | | | | | | | | | | |] eqn:Enp;
    try discriminate Hg.
  destruct body as [|g' tl]; [discriminate Hg|]. injection Hg as ->.
  rewrite get_list_block in Hlist. injection Hlist as <-.
  destruct R as (_ & _ & _ & _ & _ & G & P & _ & F).
  assert (HoP : outer <> parent p).
  { intros ->. rewrite HP in Ho. injection Ho as <-. rewrite Enp in Hob.
    discriminate Hob. }
  split_and!.
  - unfold first_of_body. rewrite (F outer no Ho HoP HoL Hon).
    cbn [mbind option_bind]. rewrite Hob. cbn [mbind option_bind].
    rewrite P, Enp. cbn [mbind option_bind shape set_list].
    destruct i as [|i']; [lia|]. reflexivity.
  - exact Hfb.
Qed.

Lemma breakAfter_inner_keeps_outer_guard_witness :
  exists σ' inner_guard,
    breakAfter 2000 8%nat Nested.inner_loop Nested.outer_visited
    = Returns tt σ'
    /\ first_of_body (heap σ') 1%nat = Some 30%nat
    /\ first_of_body (heap σ') 4%nat = Some inner_guard.
Proof.
  apply (breakAfter_inner_keeps_outer_guard (H := Demo.babel) 2000 8%nat
           Nested.inner_loop Nested.outer_visited
           (built (ForStatement None None None 5%nat))
           (built (BlockStatement [30%nat; 4%nat]))
           (built (ExpressionStatement 6%nat)) 5%nat 1%nat [30%nat; 4%nat]
           1%nat
           {| loc := Some Demo.at_5_2; shape := WhileStatement 2%nat 3%nat |}
           30%nat).
  - demo_site.
  - vm_compute. eexists. reflexivity.
  - vm_compute. reflexivity.
  - reflexivity.
  - vm_compute. reflexivity.
  - lia.
  - discriminate.
  - discriminate.
Defined.

(** X9.  Two loops of one statement list, visited in their order: the
    visit of the first moves the second one index further, where its visit
    returns as well.  After both, each loop has a guard of its own first in
    its body (the visit of the second loop did not disturb the guard of the
    first), and the list holds each initialisation right before its
    loop. *)
Theorem breakAfter_siblings `{Babel} (timeout : Z) (cb : ref)
  (p q : NodePath) (σ : State) (nl np nb nlq nbq : Node) (b bq : ref)
  (i j : nat) (stmts : list ref) :
  loop_site (heap σ) p nl np nb b i stmts ->
  loop_site (heap σ) q nlq np nbq bq j stmts ->
  parent q = parent p -> (i < j)%nat ->
  b <> bq -> b <> node q -> bq <> node p ->
  live (heap σ) cb ->
  exists σ1 σ2 init1 init2 guard1 guard2 stmts2,
    breakAfter timeout cb p σ = Returns tt σ1
    /\ breakAfter timeout cb (after_insertion q) σ1 = Returns tt σ2
    /\ first_of_body (heap σ2) (node p) = Some guard1
    /\ first_of_body (heap σ2) (node q) = Some guard2
    /\ guard1 <> guard2
    /\ statements (heap σ2) (parent p) = Some stmts2
    /\ stmts2 !! i = Some init1 /\ stmts2 !! S i = Some (node p)
    /\ stmts2 !! S j = Some init2 /\ stmts2 !! S (S j) = Some (node q)
    /\ length stmts2 = S (S (length stmts)).
Proof.
  intros Sp Sq Hpar Hij Hbb Hbq Hqb Hcb.
  destruct (proj1 (post_returns _ _)
              (breakAfter_spec timeout cb p σ nl np nb b i stmts Sp Hcb))
    as ([] & σ1 & E1 & tid1 & ini1 & grd1 & R1).
  pose proof (rewritten_live _ _ _ _ _ _ _ _ _ _ _ _ _ _ R1 Sp cb Hcb) as Hcb1.
  pose proof (rewritten_first_of_body _ _ _ _ _ _ _ _ _ _ _ _ _ _ R1 Sp) as F1.
  destruct (rewritten_site _ _ _ _ _ _ _ _ _ _ _ _ _ _ R1 Sp)
    as (nl' & nb' & b' & tl & Sp1 & Hnb' & Hb').
  pose proof (loop_site_parent_ne _ _ _ _ _ _ _ _ Sq) as HqPL.
  pose proof (loop_site_parent_ne _ _ _ _ _ _ _ _ Sp) as HpPL.
  assert (Hi : (i <= length stmts)%nat).
  { destruct Sp as [_ _ _ _ _ _ Hidx _]. apply lookup_lt_Some in Hidx. lia. }
  set (stmts1 := take i stmts ++ ini1 :: drop i stmts) in *.
  (* the second loop after the first visit *)
  assert (Hpq : node q <> node p).
  { intros Eq. destruct Sp as [HL Hb _ _ _ _ _ _].
    destruct Sq as [HLq Hbq' _ _ _ _ _ _]. rewrite Eq in HLq.
    rewrite HL in HLq. injection HLq as <-. congruence. }
  assert (Sq1 : loop_site (heap σ1) (after_insertion q) nlq
                  {| loc := loc np; shape := set_list stmts1 (shape np) |}
                  nbq bq (S j) stmts1).
  { destruct Sq as [HLq Hbq' Hnbq Hkq HPq Hlq Hiq [HPbq HLbq]].
    destruct R1 as (_ & _ & _ & _ & _ & _ & P & _ & F).
    constructor; cbn [after_insertion parent node].
    - apply F; [exact HLq | congruence | exact Hpq | congruence].
    - exact Hbq'.
    - apply F; [exact Hnbq | congruence | congruence | congruence].
    - unfold after_insertion. cbn [key]. rewrite Hkq. reflexivity.
    - rewrite Hpar. exact P.
    - eapply get_list_set_list. exact Hlq.
    - unfold stmts1. rewrite insert_before_lookup_after by lia. exact Hiq.
    - split; assumption. }
  destruct (proj1 (post_returns _ _)
              (breakAfter_spec timeout cb (after_insertion q) σ1 _ _ _ _ _ _
                 Sq1 Hcb1))
    as ([] & σ2 & E2 & tid2 & ini2 & grd2 & R2).
  pose proof (rewritten_first_of_body _ _ _ _ _ _ _ _ _ _ _ _ _ _ R2 Sq1) as F2.
  pose proof (rewritten_statements _ _ _ _ _ _ _ _ _ _ _ _ _ _ R2 Sq1) as Hst.
  cbn [after_insertion parent node] in F2, Hst.
  assert (Hj1 : stmts1 !! S j = Some (node q))
    by (destruct Sq1 as [_ _ _ _ _ _ Hidx _]; exact Hidx).
  destruct (insert_before_lookup stmts1 (S j) ini2 (node q) Hj1)
    as (Hini2 & Hq2 & Hlen2).
  exists σ1, σ2, ini1, ini2, grd1, grd2,
    (take (S j) stmts1 ++ ini2 :: drop (S j) stmts1).
  split; [exact E1|]. split; [exact E2|].
  assert (Hg1 : first_of_body (heap σ2) (node p) = Some grd1).
  { rewrite <- F1.
    destruct Sp1 as [HL1 Hb1 Hnb1 _ _ _ _ _]. cbn [after_insertion node] in *.
    destruct Sp as [HL Hb Hnb _ HP _ _ [HPb HLb]].
    destruct Sq as [HLq Hbq' Hnbq _ HPq _ _ [HPbq HLbq]].
    destruct R2 as (_ & _ & _ & _ & _ & _ & _ & _ & F).
    cbn [after_insertion parent node] in F.
    eapply first_of_body_frame; [exact HL1 | exact Hb1 | exact Hnb1 | |].
    - apply F; [exact HL1 | congruence | congruence | congruence].
    - apply F; [exact Hnb1 | | |]; destruct Hb' as [->|Fb'];
        try congruence; intros ->; congruence. }
  split; [exact Hg1|]. split; [exact F2|].
  split_and!.
  - destruct R1 as (_ & _ & _ & _ & _ & G1 & _).
    destruct R2 as (_ & _ & _ & _ & _ & G2 & _).
    eapply live_not_fresh; [eapply guard_at_live; exact G1|].
    eapply guard_at_new; exact G2.
  - rewrite <- Hpar. exact Hst.
  - rewrite lookup_app_l by (rewrite length_take; apply lookup_lt_Some in Hj1; lia).
    rewrite lookup_take_lt by lia.
    destruct Sp as [_ _ _ _ _ _ Hidx _].
    apply (insert_before_lookup stmts i ini1 (node p) Hidx).
  - rewrite lookup_app_l by (rewrite length_take; apply lookup_lt_Some in Hj1; lia).
    rewrite lookup_take_lt by lia.
    destruct Sp as [_ _ _ _ _ _ Hidx _].
    apply (insert_before_lookup stmts i ini1 (node p) Hidx).
  - exact Hini2.
  - exact Hq2.
  - rewrite Hlen2. unfold stmts1.
    destruct Sp as [_ _ _ _ _ _ Hidx _].
    destruct (insert_before_lookup stmts i ini1 (node p) Hidx) as (_ & _ & ->).
    reflexivity.
Qed.

Lemma breakAfter_siblings_witness :
  exists σ1 σ2 init1 init2 guard1 guard2 stmts2,
    breakAfter 2000 12%nat Demo.top_level Demo.made = Returns tt σ1
    /\ breakAfter 2000 12%nat (after_insertion Siblings.second) σ1
       = Returns tt σ2
    /\ first_of_body (heap σ2) 1%nat = Some guard1
    /\ first_of_body (heap σ2) 4%nat = Some guard2
    /\ guard1 <> guard2
    /\ statements (heap σ2) 0%nat = Some stmts2
    /\ stmts2 !! 0%nat = Some init1 /\ stmts2 !! 1%nat = Some 1%nat
    /\ stmts2 !! 2%nat = Some init2 /\ stmts2 !! 3%nat = Some 4%nat
    /\ length stmts2 = 4%nat.
Proof.
  apply (breakAfter_siblings (H := Demo.babel) 2000 12%nat Demo.top_level
           Siblings.second Demo.made
           {| loc := Some Demo.at_5_2; shape := WhileStatement 2%nat 3%nat |}
           (built (Program [1%nat; 4%nat])) (built (BlockStatement []))
           (built (ForStatement None None None 5%nat))
           (built (ExpressionStatement 6%nat)) 3%nat 5%nat 0%nat 1%nat
           [1%nat; 4%nat]).
  - demo_site.
  - demo_site.
  - reflexivity.
  - lia.
  - discriminate.
  - discriminate.
  - discriminate.
  - vm_compute. eexists. reflexivity.
Defined.

(** ** The visits that return, and the synthesizer, in full *)

(** X10.  The visit of a loop of any of the three kinds that is not the
    single statement of a field of its parent (it is an element of a
    statement list, or it is under a label) returns, and after it the guard
    is a new statement of the specified form and: when the body was a
    block, the loop still has that block as its body and the block's
    statements are the guard followed by the statements it had, in their
    order; when the body was any other statement, the loop's body is a new
    block holding exactly the guard and then the original statement, which
    is itself unchanged. *)
Theorem breakAfter_body `{Babel} (timeout : Z) (cb : ref) (p a : NodePath)
  (σ : State) (nl nh nb : Node) (b : ref) :
  visited_loop (heap σ) p a nl nh nb b ->
  single_statement (heap σ) p = false -> live (heap σ) cb ->
  exists σ' guard,
    breakAfter timeout cb p σ = Returns tt σ'
    /\ visit (visitor (plugin_of timeout cb)) p σ = Returns tt σ'
    /\ heap σ !! guard = None
    /\ read_back 6 [cb] (heap σ') guard
       = Some (guard_form (timer_name σ p) (line_of nl) (column_of nl)
                 timeout cb)
    /\ match shape nb with
       | BlockStatement body =>
           heap σ' !! node p = Some nl
           /\ heap σ' !! b
              = Some {| loc := loc nb; shape := BlockStatement (guard :: body) |}
       | _ =>
           exists block,
             heap σ !! block = None
             /\ heap σ' !! block = Some (built (BlockStatement [guard; b]))
             /\ heap σ' !! node p
                = Some {| loc := loc nl; shape := set_field block (shape nl) |}
             /\ heap σ' !! b = Some nb
       end.
Proof.
  intros V Hss Hcb.
  destruct (breakAfter_visited timeout cb p a σ nl nh nb b V)
    as (σ' & tid & ini & grd & nh' & news & _ & _ & Fid & Lid & _ & G & _ & _
        & _ & _ & O).
  rewrite Hss in O. destruct O as (E & B).
  exists σ', grd. split; [exact E|]. split; [|split; [|split]].
  - destruct V as [HL Hb _ _ _ _].
    rewrite (visit_loop p σ nl timeout cb b HL Hb). exact E.
  - eapply guard_at_new; exact G.
  - eapply guard_at_form; eassumption.
  - exact B.
Qed.

Lemma breakAfter_body_witness :
  exists σ' guard,
    breakAfter 2000 8%nat Labeled.loop Labeled.before = Returns tt σ'
    /\ visit (visitor (plugin_of 2000 8%nat)) Labeled.loop Labeled.before
       = Returns tt σ'
    /\ heap Labeled.before !! guard = None
    /\ read_back 6 [8%nat] (heap σ') guard
       = Some (guard_form (timer_name Labeled.before Labeled.loop)
                 (line_of {| loc := Some Demo.at_5_2;
                             shape := WhileStatement 4%nat 5%nat |})
                 (column_of {| loc := Some Demo.at_5_2;
                               shape := WhileStatement 4%nat 5%nat |})
                 2000 8%nat)
    /\ heap σ' !! 3%nat
       = Some {| loc := Some Demo.at_5_2; shape := WhileStatement 4%nat 5%nat |}
    /\ heap σ' !! 5%nat = Some (built (BlockStatement [guard])).
Proof.
  apply (breakAfter_body (H := Demo.babel) 2000 8%nat Labeled.loop
           Labeled.label Labeled.before
           {| loc := Some Demo.at_5_2; shape := WhileStatement 4%nat 5%nat |}
           (built (Program [1%nat])) (built (BlockStatement [])) 5%nat).
  - demo_visited.
  - vm_compute. reflexivity.
  - vm_compute. eexists. reflexivity.
Defined.

(** X11.  One call of [autoBreak] calls the parser once, before any loop
    is visited, and the callback it obtains is the node [cb] held by the
    closure of the plugin.  However many loops the engine then visits, the
    parser is not called again, the node object stored at [cb] (the
    function node itself, not the nodes of its body) stays as it was made,
    and the visit of each further loop that is an element of a statement
    list puts, first in the body of that loop, a guard whose callee is the
    reference [cb] itself. *)
Theorem callback_built_once_and_shared `{Babel} (options : AutoBreakOptions)
  (σ0 σ1 σ2 : State) (cb : ref) (ncb : Node) (paths : list NodePath)
  (p : NodePath) (nl np nb : Node) (b : ref) (i : nat) (stmts : list ref) :
  let timeout := default 2000 (timeout options) in
  let code := onAutoBreakCode (default (Callable noop) (onBreak options)) in
  let plugin := plugin_of timeout cb in
  transformOnBreak (default (Callable noop) (onBreak options)) σ0
  = Returns cb σ1 ->
  heap σ1 !! cb = Some ncb -> is_container (shape ncb) = false ->
  traverse (visitor plugin) paths σ1 = Returns tt σ2 ->
  loop_site (heap σ2) p nl np nb b i stmts ->
  autoBreak options σ0 = Returns plugin σ1
  /\ transformed σ1 = transformed σ0 ++ [code]
  /\ transformed σ2 = transformed σ1
  /\ heap σ2 !! cb = Some ncb
  /\ exists σ3 guard,
       visit (visitor plugin) p σ2 = Returns tt σ3
       /\ first_of_body (heap σ3) (node p) = Some guard
       /\ read_back 6 [cb] (heap σ3) guard
          = Some (guard_form (timer_name σ2 p) (line_of nl) (column_of nl)
                    timeout cb)
       /\ transformed σ3 = transformed σ1
       /\ heap σ3 !! cb = Some ncb.
Proof.
  intros timeout code plugin Ht Hcb Hnc Htr S.
  pose proof (steady_traverse timeout cb paths σ1) as G12.
  fold plugin in G12. rewrite Htr in G12. cbn [final_state] in G12.
  destruct (grown_keeps _ _ _ _ G12 Hcb Hnc) as [K2t K2h].
  split. { rewrite autoBreak_run. fold timeout. rewrite Ht. reflexivity. }
  split. { eapply transformOnBreak_log; exact Ht. }
  split; [exact K2t|]. split; [exact K2h|].
  assert (Hlive : live (heap σ2) cb) by (eexists; exact K2h).
  destruct (proj1 (post_returns _ _)
              (breakAfter_spec timeout cb p σ2 nl np nb b i stmts S Hlive))
    as ([] & σ3 & E & tid & ini & grd & R).
  assert (V : visit (visitor plugin) p σ2 = Returns tt σ3).
  { destruct S as [HL Hb _ _ _ _ _ _]. unfold plugin.
    rewrite (visit_loop p σ2 nl timeout cb b HL Hb). exact E. }
  pose proof (steady_visit timeout cb p σ2) as G23.
  fold plugin in G23. rewrite V in G23. cbn [final_state] in G23.
  destruct (grown_keeps _ _ _ _ G23 K2h Hnc) as [K3t K3h].
  exists σ3, grd. split; [exact V|].
  split; [eapply rewritten_first_of_body; eassumption|].
  split; [eapply rewritten_guard_form; eassumption|].
  split; [congruence | exact K3h].
Qed.

Lemma callback_built_once_and_shared_witness :
  autoBreak Demo.stuck (Demo.initial Demo.two_loops)
  = Returns (plugin_of 2000 12%nat) Demo.made
  /\ transformed Demo.made
     = transformed (Demo.initial Demo.two_loops)
         ++ [onAutoBreakCode (Message (lit "stuck"))]
  /\ transformed Demo.first_visited = transformed Demo.made
  /\ heap Demo.first_visited !! 12%nat
     = Some (built (ArrowFunctionExpression [] 11%nat false))
  /\ exists σ3 guard,
       visit (visitor (plugin_of 2000 12%nat)) Demo.second_loop
         Demo.first_visited
       = Returns tt σ3
       /\ first_of_body (heap σ3) 4%nat = Some guard
       /\ read_back 6 [12%nat] (heap σ3) guard
          = Some (guard_form (timer_name Demo.first_visited Demo.second_loop)
                    (line_of (built (ForStatement None None None 5%nat)))
                    (column_of (built (ForStatement None None None 5%nat)))
                    2000 12%nat)
       /\ transformed σ3 = transformed Demo.made
       /\ heap σ3 !! 12%nat
          = Some (built (ArrowFunctionExpression [] 11%nat false)).
Proof.
  apply (callback_built_once_and_shared (H := Demo.babel) Demo.stuck
           (Demo.initial Demo.two_loops) Demo.made Demo.first_visited
           12%nat (built (ArrowFunctionExpression [] 11%nat false))
           [Demo.top_level] Demo.second_loop
           (built (ForStatement None None None 5%nat))
           (built (Program [20%nat; 1%nat; 4%nat]))
           (built (ExpressionStatement 6%nat)) 5%nat 2%nat
           [20%nat; 1%nat; 4%nat]).
  - vm_compute. reflexivity.
  - vm_compute. reflexivity.
  - reflexivity.
  - vm_compute. reflexivity.
  - demo_site.
Defined.

(** X12.  [autoBreak] calls the parser once, on the text made from
    [onBreak], and then: if the parser raised, that exception leaves
    [autoBreak]; if the first statement of the parsed program is an
    expression statement or a function declaration, [autoBreak] returns its
    plugin; in every other case (no result, no AST, an empty program, a
    statement of another kind) it throws the error
    [babel-babel-auto-break: invalid onBreak action].  The throw happens
    while the plugin is being made, after exactly one call of the parser,
    and no callback is put in place of the missing one. *)
Theorem autoBreak_outcome `{Babel} (options : AutoBreakOptions) (σ : State) :
  let code := onAutoBreakCode (default (Callable noop) (onBreak options)) in
  let '(out, h1, s1) := transform code (heap σ) (host σ) in
  let σ1 := {| heap := h1; host := s1;
               transformed := transformed σ ++ [code] |} in
  match out with
  | Raised e => autoBreak options σ = Throws e σ1
  | Parsed result =>
      let statement := first_statement result in
      if (t.isExpressionStatement h1 statement
          || t.isFunctionDeclaration h1 statement)%bool
      then exists plugin σ',
             autoBreak options σ = Returns plugin σ'
             /\ transformed σ' = transformed σ ++ [code]
      else autoBreak options σ = Throws invalid_onBreak σ1
  end.
Proof.
  cbv zeta. rewrite autoBreak_run, transformOnBreak_run. cbv zeta.
  destruct (transform _ (heap σ) (host σ)) as [[out h1] s1].
  destruct out as [result|e]; [|reflexivity].
  destruct (kind_tests h1 (first_statement result)) as [-> ->].
  destruct (first_statement result ≫= (fun r => shape <$> h1 !! r))
    as [[]|]; cbn [is_ExpressionStatement is_FunctionDeclaration orb];
    try reflexivity; eexists _, _; split; reflexivity.
Qed.

(** X13.  When the first statement of the parsed text is a function
    declaration, the synthesizer returns a new function expression whose
    [id], [params] and [body] are the declaration's own (the same
    references) and whose [generator] and [async] are [false] whatever they
    are in the declaration; the nodes the parser made, the declaration
    among them, are left as they are. *)
Theorem transformOnBreak_declaration `{Babel} (onBreak : OnBreak) (σ : State)
  (result : option BabelFileResult) (h1 : Heap) (s1 : HostState)
  (statement : ref) (nd : Node) (id : option ref) (params : list ref)
  (body : ref) (generator async : bool) :
  transform (onAutoBreakCode onBreak) (heap σ) (host σ)
  = (Parsed result, h1, s1) ->
  first_statement result = Some statement ->
  h1 !! statement = Some nd ->
  shape nd = FunctionDeclaration id params body generator async ->
  exists r σ',
    transformOnBreak onBreak σ = Returns r σ'
    /\ h1 !! r = None
    /\ heap σ' !! r = Some (built (FunctionExpression id params body false false))
    /\ h1 ⊆ heap σ'.
Proof.
  intros Ht Hs Hn Hd. rewrite transformOnBreak_run. cbv zeta. rewrite Ht, Hs.
  cbn [mbind option_bind]. rewrite Hn. cbn [fmap option_fmap option_map].
  rewrite Hd. eexists _, _. split; [reflexivity|].
  split; [apply next_fresh|]. cbn [heap with_heap].
  split; [apply allocate_lookup_new | apply allocate_subseteq].
Qed.

Lemma transformOnBreak_declaration_witness :
  exists r σ',
    transformOnBreak (Callable noop) (Demo.initial ∅) = Returns r σ'
    /\ snd (Demo.parse_named_noop ∅) !! r = None
    /\ heap σ' !! r
       = Some (built (FunctionExpression (Some 0%nat) [] 1%nat false false))
    /\ snd (Demo.parse_named_noop ∅) ⊆ heap σ'.
Proof.
  apply (transformOnBreak_declaration (H := Demo.babel) (Callable noop)
           (Demo.initial ∅)
           (Some {| ast := Some {| program_body := [2%nat] |} |})
           (snd (Demo.parse_named_noop ∅)) O 2%nat
           (built (FunctionDeclaration (Some 0%nat) [] 1%nat false false))
           (Some 0%nat) [] 1%nat false false).
  - vm_compute. reflexivity.
  - reflexivity.
  - vm_compute. reflexivity.
  - reflexivity.
Defined.
